(** * sympy.physics.quantum.represent: a shallow embedding

    The module [represent.py] lowers abstract quantum expressions (kets,
    bras, operators and their sums, products, powers, ...) to concrete
    representations in a basis.  This file embeds its functions
    ([_sympy_to_scalar], [represent], [rep_innerproduct],
    [rep_expectation], [collapse_deltas], [integrate_result],
    [get_basis], [enumerate_states]) and proves properties of them.

    Conventions.
    - A Python exception is a value of [PyError]; a function that may
      raise returns a [result].
    - [**options] copies the dictionary at every call: the callee gets
      its own [Options] record.  The list stored under ["unities"] is a
      Python object shared by all the copies: it lives in a [Heap] and
      the record holds its location.
    - SymPy's expression algebra, the quantum class hierarchy and the
      basis-specific rules of concrete states and operators are
      collaborators of this module: they are the fields of [World]. *)

From stdpp Require Import base strings list list_numbers pretty.

(** ** Exceptions and results *)

Inductive PyError :=
  | NotImplementedError (reason : string)
  | TypeError (msg : string)
  | IndexError
  | KeyError (key : string).

Inductive result (A : Type) :=
  | Ok (a : A)
  | Raise (e : PyError).
Arguments Ok {A} a.
Arguments Raise {A} e.

#[global] Instance result_ret : MRet result := fun A a => Ok a.
#[global] Instance result_bind : MBind result := fun A B f m =>
  match m with
  | Ok a => f a
  | Raise e => Raise e
  end.

(** ** The quantum class hierarchy, as far as [isinstance] sees it *)

Inductive ClassKind :=
  | KKet                 (* subclass of KetBase *)
  | KBra                 (* subclass of BraBase *)
  | KState               (* StateBase, neither ket nor bra *)
  | KOperator            (* Operator, not Hermitian *)
  | KHermitianOperator   (* subclass of HermitianOperator *)
  | KQExpr.              (* any other QExpr *)

Record QClass := { cname : string; ckind : ClassKind }.

(** An instance of a [QExpr] class: its class and its label, the label
    components given by their [str]. *)
Record QObj := { qclass : QClass; qlabel : list string }.

#[global] Instance ClassKind_eq_dec : EqDecision ClassKind.
Proof. solve_decision. Defined.
#[global] Instance QClass_eq_dec : EqDecision QClass.
Proof. solve_decision. Defined.
#[global] Instance QObj_eq_dec : EqDecision QObj.
Proof. solve_decision. Defined.

Definition kind_is_KetBase (k : ClassKind) : bool :=
  match k with KKet => true | _ => false end.
Definition kind_is_BraBase (k : ClassKind) : bool :=
  match k with KBra => true | _ => false end.
Definition kind_is_StateBase (k : ClassKind) : bool :=
  match k with KKet | KBra | KState => true | _ => false end.
Definition kind_is_Operator (k : ClassKind) : bool :=
  match k with KOperator | KHermitianOperator => true | _ => false end.
Definition kind_is_HermitianOperator (k : ClassKind) : bool :=
  match k with KHermitianOperator => true | _ => false end.

Definition is_KetBase (q : QObj) : bool := kind_is_KetBase (ckind (qclass q)).
Definition is_BraBase (q : QObj) : bool := kind_is_BraBase (ckind (qclass q)).
Definition is_StateBase (q : QObj) : bool := kind_is_StateBase (ckind (qclass q)).
Definition is_Operator (q : QObj) : bool := kind_is_Operator (ckind (qclass q)).
Definition is_HermitianOperator (q : QObj) : bool :=
  kind_is_HermitianOperator (ckind (qclass q)).

(** A Python value in a position where the module tests what it is: the
    basis specifier, the first argument of [enumerate_states]. *)
Inductive PyObj :=
  | PyNone
  | PyInst (q : QObj)            (* an instance of a QExpr class *)
  | PyClass (c : QClass)         (* a QExpr class itself *)
  | PyForeignClass (name : string) (* a class outside the hierarchy *)
  | PyValue (repr : string).     (* any other value: a number, a string *)

Definition isinstance_StateBase (x : PyObj) : bool :=
  match x with PyInst q => is_StateBase q | _ => false end.
Definition isinstance_Operator (x : PyObj) : bool :=
  match x with PyInst q => is_Operator q | _ => false end.

(** [issubclass(x, C)] raises unless [x] is a class. *)
Definition issubclass (x : PyObj) (test : ClassKind -> bool) : result bool :=
  match x with
  | PyClass c => Ok (test (ckind c))
  | PyForeignClass _ => Ok false
  | _ => Raise (TypeError "issubclass() arg 1 must be a class")
  end.

(** ** The expression tree *)

Inductive Atom :=
  | AInteger (z : Z)
  | AFloat (repr : string)
  | ARational (p : Z) (q : positive)
  | ANumber (repr : string)        (* another Number *)
  | ANumberSymbol (name : string)
  | AImaginaryUnit
  | AOther (repr : string).        (* a Symbol, a function application, ... *)

Unset Elimination Schemes.
Inductive Expr :=
  | EQ (q : QObj)
  | EAdd (args : list Expr)
  | EMul (args : list Expr)
  | EPow (base exp : Expr)
  | ETensorProduct (args : list Expr)
  | EDagger (arg : Expr)
  | ECommutator (a b : Expr)
  | EAntiCommutator (a b : Expr)
  | EInnerProduct (bra ket : Expr)
  | EAtom (a : Atom).
Set Elimination Schemes.

Definition expr_is_KetBase (e : Expr) : bool :=
  match e with EQ q => is_KetBase q | _ => false end.
Definition expr_is_BraBase (e : Expr) : bool :=
  match e with EQ q => is_BraBase q | _ => false end.
Definition expr_is_StateBase (e : Expr) : bool :=
  match e with EQ q => is_StateBase q | _ => false end.
Definition expr_is_Operator (e : Expr) : bool :=
  match e with EQ q => is_Operator q | _ => false end.

(** Python scalars produced by [_sympy_to_scalar]; a float or a complex
    keeps the atom it was converted from. *)
Inductive PyScalar :=
  | PyInt (z : Z)
  | PyFloat (a : Atom)
  | PyComplex (a : Atom).

Definition _sympy_to_scalar (e : Expr) : result PyScalar :=
  match e with
  | EAtom (AInteger z) => Ok (PyInt z)
  | EAtom (AFloat r) => Ok (PyFloat (AFloat r))
  | EAtom (ARational p q) => Ok (PyFloat (ARational p q))
  | EAtom (ANumber r) => Ok (PyComplex (ANumber r))
  | EAtom (ANumberSymbol n) => Ok (PyComplex (ANumberSymbol n))
  | EAtom AImaginaryUnit => Ok (PyComplex AImaginaryUnit)
  | _ => Raise (TypeError "Expected number")
  end.

(** ** Options and the shared list *)

Abbreviation loc := nat (only parsing).
Abbreviation Heap := (list (list Z)) (only parsing).

Record Options := {
  o_format : option string;
  o_basis : option PyObj;
  o_index : option Z;
  o_unities : option loc;
  o_extra : list (string * string)
}.

Definition set_basis (b : option PyObj) (o : Options) : Options :=
  {| o_format := o_format o; o_basis := b; o_index := o_index o;
     o_unities := o_unities o; o_extra := o_extra o |}.
Definition set_index (i : option Z) (o : Options) : Options :=
  {| o_format := o_format o; o_basis := o_basis o; o_index := i;
     o_unities := o_unities o; o_extra := o_extra o |}.
Definition set_unities (u : option loc) (o : Options) : Options :=
  {| o_format := o_format o; o_basis := o_basis o; o_index := o_index o;
     o_unities := u; o_extra := o_extra o |}.

(** What a callee can read of the options it was passed: the keys, and
    the contents of the list (not its address). *)
Record OptView := {
  v_format : option string;
  v_basis : option PyObj;
  v_index : option Z;
  v_unities : option (list Z);
  v_extra : list (string * string)
}.

Definition unities_of (o : Options) (h : Heap) : option (list Z) :=
  match o_unities o with
  | Some l => h !! l
  | None => None
  end.

Definition view (o : Options) (h : Heap) : OptView :=
  {| v_format := o_format o; v_basis := o_basis o; v_index := o_index o;
     v_unities := unities_of o h; v_extra := o_extra o |}.

(** [options.get('format', 'sympy')] *)
Definition get_format (o : Options) : string := default "sympy" (o_format o).

Definition is_numeric_format (f : string) : bool :=
  bool_decide (f = "numpy") || bool_decide (f = "scipy.sparse").

(** [options.pop("basis", None)] *)
Definition pop_basis (o : Options) : PyObj := default PyNone (o_basis o).

(** ** enumerate_states *)

(** The arguments after the state: an index list, a (start, count)
    pair, or any other number of arguments. *)
Inductive EnumArgs :=
  | IndexList (index_list : list Z)
  | StartCount (start count : Z)
  | WrongArity.

(** [str(lab) + "_" + str(i)] *)
Definition suffix_label (i : Z) (lab : string) : string :=
  lab +:+ "_" +:+ pretty i.

(** The state built from the new label for position [i].  No call in
    the module passes keyword options to [enumerate_states], so the
    constructor gets the label only. *)
Definition enum_state (state : QObj) (i : Z) : QObj :=
  {| qclass := qclass state; qlabel := suffix_label i <$> qlabel state |}.

Definition enumerate_states (state : PyObj) (rest : EnumArgs) : result (list QObj) :=
  if isinstance_StateBase state then
    match state with
    | PyInst q =>
        match rest with
        | IndexList index_list => Ok (enum_state q <$> index_list)
        | StartCount start count => Ok (enum_state q <$> seqZ start count)
        | WrongArity => Raise (NotImplementedError "Wrong number of arguments!")
        end
    | _ => Raise (TypeError "First argument is not a state!")
    end
  else Raise (TypeError "First argument is not a state!").

(** ** Collaborators *)

(** The exponent handed to [**]: the SymPy exponent, or the Python
    scalar it was coerced to. *)
Inductive Exponent :=
  | ExpExpr (e : Expr)
  | ExpScalar (s : PyScalar).

(** Everything [represent.py] imports and calls but does not define.
    The operations on values ([+], [-], [*], [**], [Dagger],
    [TensorProduct], [flatten_scalar], [integrate]) are taken to return. *)
Class World := {
  (** representation values (SymPy expressions, matrices, arrays) and
      integration limits *)
  Val : Type;
  Lim : Type;
  (** the class hierarchy: [cls.default_args()], the dual class, and the
      operator/state mapping of [operatorset] (applied to an instance or
      to a class) *)
  default_args : QClass -> list string;
  dual_class : QClass -> QClass;
  operator_to_state : PyObj -> option QClass;
  state_to_operator : PyObj -> option QClass;
  (** [op.hilbert_space.interval], as (start, end) *)
  hilbert_interval : QObj -> Lim * Lim;
  (** a leaf's own rule [_represent], called on a copy of the options: it
      reads the keys and the list, and leaves the list as it is; and
      [_format_represent] *)
  own_represent : QObj -> OptView -> result Val;
  format_represent : QObj -> Val -> string -> result Val;
  (** [InnerProduct(bra, ket).doit()] and [qapply(bra*op*ket)] *)
  innerproduct_doit : QObj -> QObj -> result Val;
  qapply_sandwich : QObj -> QObj -> QObj -> result Val;
  (** the algebra of values *)
  val_of_expr : Expr -> Val;
  val_of_scalar : PyScalar -> Val;
  vadd : Val -> Val -> Val;
  vsub : Val -> Val -> Val;
  vmul : Val -> Val -> Val;
  vpow : Val -> Exponent -> Val;
  vtensor : list Val -> Val;
  vdagger : Val -> Val;
  flatten_scalar : Val -> Val;
  (** [isinstance(v, Expr)], [Symbol(s) in v.free_symbols],
      [integrate(v, (s, start, end))] *)
  is_Expr : Val -> bool;
  has_free_symbol : Val -> string -> bool;
  integrate : Val -> string -> Lim -> Lim -> Val
}.

Section Represent.
Context {W : World}.

(** [cls()]: the default instance of a class. *)
Definition instantiate (c : QClass) : QObj :=
  {| qclass := c; qlabel := default_args c |}.

(** [state.dual] *)
Definition dual (q : QObj) : QObj :=
  {| qclass := dual_class (qclass q); qlabel := qlabel q |}.

(** [state_class() if state_class is not None else None] *)
Definition state_of_mapping (state_class : option QClass) : PyObj :=
  match state_class with
  | Some c => PyInst (instantiate c)
  | None => PyNone
  end.

(** ** get_basis *)

Definition get_basis (expr : Expr) (o : Options) : result PyObj :=
  let basis := pop_basis o in
  match basis with
  | PyNone =>
      match expr with
      | EQ q =>
          if is_StateBase q then Ok (PyInst (instantiate (qclass q)))
          else if is_Operator q then
            Ok (state_of_mapping (operator_to_state (PyInst q)))
          else Ok PyNone
      | _ => Ok PyNone
      end
  | _ =>
      if isinstance_StateBase basis then Ok basis
      else
        is_state_class ← issubclass basis kind_is_StateBase;
        if is_state_class : bool then
          match basis with
          | PyClass c => Ok (PyInst (instantiate c))
          | _ => Raise (TypeError "object is not callable")
          end
        else
          is_op ← (if isinstance_Operator basis then Ok true
                   else issubclass basis kind_is_Operator);
          if is_op : bool then Ok (state_of_mapping (operator_to_state basis))
          else Ok PyNone
  end.

(** ** rep_innerproduct *)

(** The default of [options.pop('basis', ...)] in [rep_innerproduct]:
    [expr.__class__()] for a ket, [expr.dual_class()] otherwise. *)
Definition default_basis (q : QObj) : PyObj :=
  if is_KetBase q then PyInst (instantiate (qclass q))
  else PyInst (instantiate (dual_class (qclass q))).

(** [options["index"]], set to 1 when absent *)
Definition index_or_1 (o : Options) : Z := default 1%Z (o_index o).

Definition rep_innerproduct (expr : Expr) (o : Options) : result Val :=
  match expr with
  | EQ q =>
      if is_KetBase q || is_BraBase q then
        let basis := default (default_basis q) (o_basis o) in
        let basis :=
          match basis with
          | PyInst b => if is_BraBase b then PyInst (dual b) else basis
          | _ => basis
          end in
        basis_kets ← enumerate_states basis (StartCount (index_or_1 o) 2);
        match basis_kets with
        | [k0; k1] =>
            let '(bra, ket) :=
              if is_BraBase q
              then (q, if bool_decide (dual k0 = q) then k1 else k0)
              else (if bool_decide (k0 = q) then dual k1 else dual k0, q) in
            res ← innerproduct_doit bra ket;
            format_represent q res (get_format o)
        | _ => Raise IndexError
        end
      else Raise (TypeError "expr passed is not a Bra or Ket")
  | _ => Raise (TypeError "expr passed is not a Bra or Ket")
  end.

(** ** rep_expectation *)

Definition rep_expectation (expr : Expr) (o : Options) : result Val :=
  let basis := pop_basis o in
  match expr with
  | EQ q =>
      if is_Operator q then
        basis_kets ←
          match basis with
          | PyNone =>
              match operator_to_state (PyInst q) with
              | None =>
                  Raise (NotImplementedError
                           "Could not get basis kets for this operator")
              | Some basis_state =>
                  enumerate_states (PyInst (instantiate basis_state))
                                   (StartCount (index_or_1 o) 2)
              end
          | _ => enumerate_states basis (StartCount (index_or_1 o) 2)
          end;
        match basis_kets with
        | [k0; k1] => qapply_sandwich (dual k1) q k0
        | _ => Raise IndexError
        end
      else Raise (TypeError "The passed expression is not an operator")
  | _ => Raise (TypeError "The passed expression is not an operator")
  end.

(** ** integrate_result *)

(** [k.label[0]] *)
Definition label0 (k : QObj) : result string :=
  match qlabel k with
  | lab :: _ => Ok lab
  | [] => Raise IndexError
  end.

Fixpoint labels0 (kets : list QObj) : result (list string) :=
  match kets with
  | [] => Ok []
  | k :: kets' => lab ← label0 k; labs ← labels0 kets'; Ok (lab :: labs)
  end.

(** The basis [integrate_result] infers from the last factor when the
    options carry none: [None] when the key stays absent. *)
Definition infer_basis (arg : Expr) : option PyObj :=
  match arg with
  | EQ q =>
      if is_KetBase q || is_BraBase q then Some (PyInst (instantiate (qclass q)))
      else if is_Operator q then
        Some (state_of_mapping (operator_to_state (PyInst q)))
      else None
  | _ => None
  end.

Fixpoint integrate_coords (basis : PyObj) (coords : list string) (res : Val)
  : result Val :=
  match coords with
  | [] => Ok res
  | coord :: coords' =>
      if has_free_symbol res coord then
        match state_to_operator basis with
        | Some op_class =>
            let basis_op := instantiate op_class in
            let '(start, end_) := hilbert_interval basis_op in
            integrate_coords basis coords' (integrate res coord start end_)
        | None => Raise (TypeError "'NoneType' object is not callable")
        end
      else integrate_coords basis coords' res
  end.

Definition integrate_result (orig_args : list Expr) (res : Val)
    (o : Options) (h : Heap) : result Val :=
  if negb (is_Expr res) then Ok res
  else
    o ← match o_basis o with
        | Some _ => Ok o
        | None =>
            match last orig_args with
            | Some arg => Ok (set_basis (infer_basis arg) o)
            | None => Raise IndexError
            end
        end;
    match pop_basis o with
    | PyNone => Ok res
    | basis =>
        let unities := default [] (unities_of o h) in
        match unities with
        | [] => Ok res
        | _ =>
            kets ← enumerate_states basis (IndexList unities);
            coords ← labels0 kets;
            integrate_coords basis coords res
        end
    end.

(** ** represent *)

(** A call of [represent] on a fixed expression: it receives its own
    copy of the options and the heap, and returns a value and the heap. *)
Definition Rep := Options -> Heap -> result (Val * Heap).

(** The fallback of a leaf whose own rule declined with [strerr]. *)
Definition reraise (strerr : string) (r : result Val) : result Val :=
  match r with
  | Raise (NotImplementedError _) => Raise (NotImplementedError strerr)
  | _ => r
  end.

Definition represent_QExpr (q : QObj) (o : Options) (h : Heap) : result Val :=
  match own_represent q (view o h) with
  | Raise (NotImplementedError strerr) =>
      basis ← get_basis (EQ q) o;
      let o := set_basis (Some basis) o in
      if is_KetBase q || is_BraBase q then
        reraise strerr (rep_innerproduct (EQ q) o)
      else if is_HermitianOperator q then
        reraise strerr (rep_expectation (EQ q) o)
      else Raise (NotImplementedError strerr)
  | r => r
  end.

(** The loop of the [Add] case over [expr.args[1:]]. *)
Fixpoint add_loop (rest : list Rep) (o : Options) (res : Val) (h : Heap)
  : result (Val * Heap) :=
  match rest with
  | [] => Ok (res, h)
  | rep_arg :: rest' =>
      '(v, h) ← rep_arg o h;
      add_loop rest' o (vadd res v) h
  end.

(** The list comprehension of the [TensorProduct] case. *)
Fixpoint represent_all (reps : list Rep) (o : Options) (h : Heap)
  : result (list Val * Heap) :=
  match reps with
  | [] => Ok ([], h)
  | rep_arg :: reps' =>
      '(v, h) ← rep_arg o h;
      '(vs, h) ← represent_all reps' o h;
      Ok (v :: vs, h)
  end.

(** [options["index"] += 1] on entry of the product algorithm, or 1. *)
Definition enter_index (o : Options) : Options :=
  set_index (Some (match o_index o with Some i => i + 1 | None => 1 end)%Z) o.

(** [if not "unities" in options: options["unities"] = []] *)
Definition ensure_unities (o : Options) (h : Heap) : Options * Heap :=
  match o_unities o with
  | Some _ => (o, h)
  | None => (set_unities (Some (length h)) o, h ++ [[]])
  end.

(** [options["index"] += 1] *)
Definition incr_index (o : Options) : result Options :=
  match o_index o with
  | Some i => Ok (set_index (Some (i + 1)%Z) o)
  | None => Raise (KeyError "index")
  end.

(** [options["unities"].append(options["index"])] *)
Definition append_index (o : Options) (h : Heap) : result Heap :=
  match o_unities o with
  | Some l =>
      match o_index o with
      | Some i => Ok (alter (λ u, u ++ [i]) l h)
      | None => Raise (KeyError "index")
      end
  | None => Raise (KeyError "unities")
  end.

(** The adjacency rule at the head of the loop body. *)
Definition adjust_index (last_arg arg : Expr) (o : Options) (h : Heap)
  : result (Options * Heap) :=
  if expr_is_Operator last_arg then
    o ← incr_index o; h ← append_index o h; Ok (o, h)
  else if expr_is_BraBase last_arg && expr_is_KetBase arg then
    o ← incr_index o; Ok (o, h)
  else if expr_is_KetBase last_arg && expr_is_Operator arg then
    h ← append_index o h; Ok (o, h)
  else Ok (o, h).

(** The loop over [reversed(expr.args[:-1])]; every factor comes with
    the call of [represent] on it.  The loop keeps the options of the
    product's own frame. *)
Fixpoint mul_loop (rest : list (Expr * Rep)) (last_arg : Expr) (res : Val)
    (o : Options) (h : Heap) : result (Val * Options * Heap) :=
  match rest with
  | [] => Ok (res, o, h)
  | (arg, rep_arg) :: rest' =>
      '(o, h) ← adjust_index last_arg arg o h;
      '(v, h) ← rep_arg o h;
      mul_loop rest' arg (vmul v res) o h
  end.

(** The product algorithm, returning also the options of its frame as
    they are when it returns. *)
Definition represent_Mul (factors : list (Expr * Rep)) (o : Options) (h : Heap)
  : result (Val * Options * Heap) :=
  let o := enter_index o in
  let '(o, h) := ensure_unities o h in
  match reverse factors with
  | [] => Raise IndexError
  | (last_arg, rep_last) :: rest =>
      '(res, h) ← rep_last o h;
      '(res, o, h) ← mul_loop rest last_arg res o h;
      let res := flatten_scalar res in
      res ← integrate_result (fst <$> factors) res o h;
      Ok (res, o, h)
  end.

(** The caller of the product algorithm sees the value and the heap. *)
Definition forget_frame (r : result (Val * Options * Heap)) : result (Val * Heap) :=
  '(v, _, h) ← r; Ok (v, h).

Fixpoint represent (expr : Expr) : Rep := λ o h,
  let format := get_format o in
  match expr with
  | EQ q => v ← represent_QExpr q o h; Ok (v, h)
  | EAdd args =>
      match map represent args with
      | [] => Raise IndexError
      | rep0 :: rest => '(res, h) ← rep0 o h; add_loop rest o res h
      end
  | EPow base exp =>
      exp ← (if is_numeric_format format
             then s ← _sympy_to_scalar exp; Ok (ExpScalar s)
             else Ok (ExpExpr exp));
      '(b, h) ← represent base o h;
      Ok (vpow b exp, h)
  | ETensorProduct args =>
      '(new_args, h) ← represent_all (map represent args) o h;
      Ok (vtensor new_args, h)
  | EDagger arg =>
      '(v, h) ← represent arg o h; Ok (vdagger v, h)
  | ECommutator a b =>
      '(A, h) ← represent a o h;
      '(B, h) ← represent b o h;
      Ok (vsub (vmul A B) (vmul B A), h)
  | EAntiCommutator a b =>
      '(A, h) ← represent a o h;
      '(B, h) ← represent b o h;
      Ok (vadd (vmul A B) (vmul B A), h)
  | EInnerProduct bra ket =>
      forget_frame
        (represent_Mul [(bra, represent bra); (ket, represent ket)] o h)
  | EMul args =>
      forget_frame
        (represent_Mul (map (λ arg, (arg, represent arg)) args) o h)
  | EAtom _ =>
      if is_numeric_format format
      then s ← _sympy_to_scalar expr; Ok (val_of_scalar s, h)
      else Ok (val_of_expr expr, h)
  end.

(** The call of [represent] on every factor of a product. *)
Definition with_calls (args : list Expr) : list (Expr * Rep) :=
  map (λ arg, (arg, represent arg)) args.

(** The product algorithm on a list of factors. *)
Definition represent_product (args : list Expr) (o : Options) (h : Heap)
  : result (Val * Options * Heap) :=
  represent_Mul (with_calls args) o h.

End Represent.

(** ** collapse_deltas *)

(** The part of SymPy's expression algebra that [collapse_deltas] uses. *)
Class SymAlgebra := {
  Sym : Type;
  sym_eqb : Sym -> Sym -> bool;          (* a == b *)
  sym_is_Mul : Sym -> bool;              (* isinstance(a, Mul) *)
  sym_is_DiracDelta : Sym -> bool;       (* isinstance(a, DiracDelta) *)
  sym_args : Sym -> list Sym;            (* a.args *)
  sym_symbol : string -> Sym;            (* the symbol a label sympifies to *)
  sym_neg : Sym -> Sym;                  (* -a *)
  sym_subs : Sym -> Sym -> Sym -> Sym;   (* e.subs(old, new) *)
  sym_Mul : list Sym -> Sym;             (* Mul applied to the factors *)
  sym_oo : Sym
}.

Section CollapseDeltas.
Context {A : SymAlgebra}.

(** [x in args] *)
Definition sym_in (x : Sym) (args : list Sym) : bool :=
  existsb (λ a, sym_eqb a x) args.

(** The coordinate a factor [arg] substitutes for [label], if it is a
    delta whose argument has [label] or [-label] among its terms. *)
Definition delta_coord (label arg : Sym) : result (option Sym) :=
  if sym_is_DiracDelta arg then
    match sym_args arg with
    | [] => Raise IndexError
    | arg0 :: _ =>
        if sym_in label (sym_args arg0) || sym_in (sym_neg label) (sym_args arg0)
        then
          let dirac_args :=
            map (λ a, if sym_is_Mul a then sym_neg a else a) (sym_args arg0) in
          match dirac_args with
          | d0 :: d1 :: _ =>
              Ok (Some (if sym_eqb label d1 then d0 else sym_neg d1))
          | _ => Raise IndexError
          end
        else Ok None
    end
  else Ok None.

(** The inner loop, over the factors of the original product. *)
Fixpoint collapse_args (label : Sym) (args : list Sym) (new_expr : Sym)
  : result Sym :=
  match args with
  | [] => Ok new_expr
  | arg :: args' =>
      c ← delta_coord label arg;
      collapse_args label args'
        (match c with
         | Some coord => sym_subs new_expr label coord
         | None => new_expr
         end)
  end.

(** The outer loop, over the labels. *)
Fixpoint collapse_labels (labels : list Sym) (args : list Sym) (new_expr : Sym)
  : result Sym :=
  match labels with
  | [] => Ok new_expr
  | label :: labels' =>
      new_expr ← collapse_args label args new_expr;
      collapse_labels labels' args new_expr
  end.

(** The symbols of the basis states enumerated at the unresolved
    indices: [k.label[0]] for every [k] of [enumerate_states(basis, unities)]. *)
Definition unresolved_labels (basis : PyObj) (unities : list Z)
  : result (list Sym) :=
  kets ← enumerate_states basis (IndexList unities);
  labels ← labels0 kets;
  Ok (map sym_symbol labels).

Definition collapse_deltas (expr : Sym) (o : Options) (h : Heap) : result Sym :=
  if negb (sym_is_Mul expr) then Ok expr
  else
    let unities := default [] (unities_of o h) in
    match pop_basis o with
    | PyNone => Raise (NotImplementedError "Could not get basis set for operator")
    | basis =>
        labels ← unresolved_labels basis unities;
        new_expr ← collapse_labels labels (sym_args expr) expr;
        let new_args :=
          filter (λ arg, sym_eqb arg sym_oo = false) (sym_args new_expr) in
        Ok (sym_Mul new_args)
    end.

End CollapseDeltas.

(** ** A concrete world: the position basis of [cartesian]

    Values are kept as symbolic terms, so that a computed representation
    shows at which index and with which list every rule was called. *)
Module Cartesian.

Unset Elimination Schemes.
Inductive SVal :=
  | SRule (q : QObj) (seen : OptView)      (* a matrix built by a leaf's rule *)
  | SOverlap (bra ket : QObj)              (* the overlap of a bra and a ket *)
  | SSandwich (bra op ket : QObj)          (* bra, operator, ket, applied *)
  | SExpr (e : Expr)
  | SScalar (s : PyScalar)
  | SAdd (a b : SVal)
  | SSub (a b : SVal)
  | SMul (a b : SVal)
  | SPow (a : SVal) (e : Exponent)
  | STensor (l : list SVal)
  | SDagger (a : SVal)
  | SIntegral (v : SVal) (coord : string) (start end_ : string).
Set Elimination Schemes.

Definition XKet : QClass := {| cname := "XKet"; ckind := KKet |}.
Definition XBra : QClass := {| cname := "XBra"; ckind := KBra |}.
Definition XOp : QClass := {| cname := "XOp"; ckind := KHermitianOperator |}.
Definition SzUpKet : QClass := {| cname := "SzUpKet"; ckind := KKet |}.
Definition SzOp : QClass := {| cname := "SzOp"; ckind := KOperator |}.
Definition HOp : QClass := {| cname := "HOp"; ckind := KHermitianOperator |}.

Definition class_of (x : PyObj) : option QClass :=
  match x with
  | PyInst q => Some (qclass q)
  | PyClass c => Some c
  | _ => None
  end.

Definition s_operator_to_state (x : PyObj) : option QClass :=
  c ← class_of x; if bool_decide (c = XOp) then Some XKet else None.

Definition s_state_to_operator (x : PyObj) : option QClass :=
  c ← class_of x;
  if bool_decide (c = XKet) || bool_decide (c = XBra) then Some XOp else None.

Definition s_default_args (c : QClass) : list string :=
  if bool_decide (c = XKet) || bool_decide (c = XBra) then ["x"]
  else if bool_decide (c = XOp) then ["X"]
  else ["psi"].

Definition s_dual_class (c : QClass) : QClass :=
  match ckind c with
  | KKet =>
      {| cname := if bool_decide (c = XKet) then "XBra" else cname c +:+ "Dual";
         ckind := KBra |}
  | KBra =>
      {| cname := if bool_decide (c = XBra) then "XKet" else cname c +:+ "Dual";
         ckind := KKet |}
  | _ => c
  end.

(** Only [SzUpKet] has a rule of its own (for every basis). *)
Definition s_own_represent (q : QObj) (seen : OptView) : result SVal :=
  if bool_decide (qclass q = SzUpKet) then Ok (SRule q seen)
  else Raise (NotImplementedError (cname (qclass q) +:+ " has no rule for this basis")).

Definition s_format_represent (q : QObj) (v : SVal) (format : string)
  : result SVal :=
  if bool_decide (format = "sympy") || is_numeric_format format then Ok v
  else Raise (NotImplementedError ("This object can't format as " +:+ format)).

Fixpoint s_is_Expr (v : SVal) : bool :=
  match v with
  | SRule _ _ => false
  | SAdd a b | SSub a b | SMul a b => s_is_Expr a && s_is_Expr b
  | SPow a _ | SDagger a => s_is_Expr a
  | _ => true
  end.

Definition mentions (q : QObj) (s : string) : bool :=
  bool_decide (s ∈ qlabel q).

Fixpoint s_has_free_symbol (v : SVal) (s : string) : bool :=
  match v with
  | SRule _ _ | SExpr _ | SScalar _ => false
  | SOverlap bra ket => mentions bra s || mentions ket s
  | SSandwich bra _ ket => mentions bra s || mentions ket s
  | SAdd a b | SSub a b | SMul a b => s_has_free_symbol a s || s_has_free_symbol b s
  | SPow a _ | SDagger a => s_has_free_symbol a s
  | STensor l => existsb (λ a, s_has_free_symbol a s) l
  | SIntegral a coord _ _ => negb (bool_decide (s = coord)) && s_has_free_symbol a s
  end.

#[global] Instance world : World := {|
  Val := SVal;
  Lim := string;
  default_args := s_default_args;
  dual_class := s_dual_class;
  operator_to_state := s_operator_to_state;
  state_to_operator := s_state_to_operator;
  hilbert_interval := λ _, ("-oo", "oo");
  own_represent := s_own_represent;
  format_represent := s_format_represent;
  innerproduct_doit := λ bra ket, Ok (SOverlap bra ket);
  qapply_sandwich := λ bra op ket, Ok (SSandwich bra op ket);
  val_of_expr := SExpr;
  val_of_scalar := SScalar;
  vadd := SAdd;
  vsub := SSub;
  vmul := SMul;
  vpow := SPow;
  vtensor := STensor;
  vdagger := SDagger;
  flatten_scalar := λ v, v;
  is_Expr := s_is_Expr;
  has_free_symbol := s_has_free_symbol;
  integrate := SIntegral
|}.

Definition no_options : Options :=
  {| o_format := None; o_basis := None; o_index := None; o_unities := None;
     o_extra := [] |}.

(** The operator [XOp()], the ket [XKet()] and the bra [XBra('y')] of
    the docstring of [represent]. *)
Definition X_op : QObj := {| qclass := XOp; qlabel := ["X"] |}.
Definition X : Expr := EQ X_op.
Definition x : Expr := EQ {| qclass := XKet; qlabel := ["x"] |}.
Definition y : Expr := EQ {| qclass := XBra; qlabel := ["y"] |}.
Definition up : Expr := EQ {| qclass := SzUpKet; qlabel := ["up"] |}.
Definition H : Expr := EQ {| qclass := HOp; qlabel := ["H"] |}.

(** The frame of a product entered with no options: counter 1, an empty
    list at location 0. *)
Definition in_product : Options :=
  {| o_format := None; o_basis := None; o_index := Some 1%Z;
     o_unities := Some 0; o_extra := [] |}.

Definition ket_at (lab : string) : QObj := {| qclass := XKet; qlabel := [lab] |}.
Definition bra_at (lab : string) : QObj := {| qclass := XBra; qlabel := [lab] |}.

(** The overlaps of [y] with the basis ket at 1, and of the basis bra at
    1 with [x]. *)
Definition overlap_y_x1 : SVal := SOverlap (bra_at "y") (ket_at "x_1").
Definition overlap_x1_x : SVal := SOverlap (bra_at "x_1") (ket_at "x").

End Cartesian.

(** ** A concrete algebra: unevaluated terms

    Sums and products keep their arguments in the order given; [-a] is
    the product of [-1] and [a], and negating such a product gives [a]
    back, as SymPy prints and evaluates it. *)
Module Terms.

Unset Elimination Schemes.
Inductive Term :=
  | TSymbol (name : string)
  | TNum (z : Z)
  | TOo
  | TAdd (args : list Term)
  | TMul (args : list Term)
  | TDiracDelta (arg : Term).
Set Elimination Schemes.

Fixpoint term_eqb (a b : Term) : bool :=
  let fix all_eqb (l l' : list Term) : bool :=
    match l, l' with
    | [], [] => true
    | t :: l, t' :: l' => term_eqb t t' && all_eqb l l'
    | _, _ => false
    end in
  match a, b with
  | TSymbol s, TSymbol s' => bool_decide (s = s')
  | TNum z, TNum z' => bool_decide (z = z')
  | TOo, TOo => true
  | TAdd l, TAdd l' => all_eqb l l'
  | TMul l, TMul l' => all_eqb l l'
  | TDiracDelta t, TDiracDelta t' => term_eqb t t'
  | _, _ => false
  end.

Definition term_args (t : Term) : list Term :=
  match t with
  | TAdd args | TMul args => args
  | TDiracDelta arg => [arg]
  | _ => []
  end.

Definition term_neg (t : Term) : Term :=
  match t with
  | TNum z => TNum (- z)
  | TMul [TNum (-1); u] => u
  | _ => TMul [TNum (-1); t]
  end.

(** [e.subs(old, new)]: every occurrence of [old] replaced. *)
Fixpoint term_subs (e old new : Term) : Term :=
  if term_eqb e old then new
  else
    match e with
    | TAdd args => TAdd (map (λ a, term_subs a old new) args)
    | TMul args => TMul (map (λ a, term_subs a old new) args)
    | TDiracDelta arg => TDiracDelta (term_subs arg old new)
    | _ => e
    end.

Definition term_Mul (args : list Term) : Term :=
  match args with
  | [] => TNum 1
  | [t] => t
  | _ => TMul args
  end.

#[global] Instance algebra : SymAlgebra := {|
  Sym := Term;
  sym_eqb := term_eqb;
  sym_is_Mul := λ t, match t with TMul _ => true | _ => false end;
  sym_is_DiracDelta := λ t, match t with TDiracDelta _ => true | _ => false end;
  sym_args := term_args;
  sym_symbol := TSymbol;
  sym_neg := term_neg;
  sym_subs := term_subs;
  sym_Mul := term_Mul;
  sym_oo := TOo
|}.

(** Options with the basis [XKet()] and the unresolved indices at
    location 0 of the heap. *)
Definition x_basis : Options :=
  {| o_format := None;
     o_basis := Some (PyInst {| qclass := Cartesian.XKet; qlabel := ["x"] |});
     o_index := None; o_unities := Some 0; o_extra := [] |}.

Definition sym (s : string) : Term := TSymbol s.

(** [y*DiracDelta(x_1 + a)*DiracDelta(x_1 + x_2)] *)
Definition two_deltas : Term :=
  TMul [sym "y";
        TDiracDelta (TAdd [sym "x_1"; sym "a"]);
        TDiracDelta (TAdd [sym "x_1"; sym "x_2"])].

(** [y*DiracDelta(x_1 + a)] *)
Definition one_delta : Term :=
  TMul [sym "y"; TDiracDelta (TAdd [sym "x_1"; sym "a"])].

(** The symbol named [s] occurs in the term [t]. *)
Fixpoint term_occurs (s : string) (t : Term) : bool :=
  let fix any (l : list Term) : bool :=
    match l with
    | [] => false
    | t :: l' => term_occurs s t || any l'
    end in
  match t with
  | TSymbol s' => bool_decide (s' = s)
  | TAdd l | TMul l => any l
  | TDiracDelta arg => term_occurs s arg
  | _ => false
  end.

End Terms.

(** ** Notions used by the statements *)

(** [sub] occurs in [s]. *)
Definition contains (s sub : string) : Prop :=
  ∃ pre post, s = pre +:+ sub +:+ post.

(** The list an options record refers to is allocated. *)
Definition wf_options (o : Options) (h : Heap) : Prop :=
  ∀ l, o_unities o = Some l → l < length h.

(** The counter of a product's frame once the algorithm is entered. *)
Definition entry_index (o : Options) : Z :=
  match o_index o with Some i => i + 1 | None => 1 end.

(** How often the loop of a product increments its counter, and how
    often it appends to the list, on the factors [rest] still to come
    after [last_arg]: only the kinds of the factors themselves count. *)
Fixpoint own_bumps (last_arg : Expr) (rest : list Expr) : Z :=
  match rest with
  | [] => 0
  | arg :: rest' =>
      (if expr_is_Operator last_arg
          || expr_is_BraBase last_arg && expr_is_KetBase arg
       then 1 else 0) + own_bumps arg rest'
  end.

Fixpoint own_appends (last_arg : Expr) (rest : list Expr) : nat :=
  match rest with
  | [] => 0
  | arg :: rest' =>
      (if expr_is_Operator last_arg
          || expr_is_KetBase last_arg && expr_is_Operator arg
       then 1 else 0) + own_appends arg rest'
  end.

(** The same for a whole product, whose last factor comes first. *)
Definition product_bumps (args : list Expr) : Z :=
  match reverse args with
  | [] => 0
  | last_arg :: rest => own_bumps last_arg rest
  end.

Definition product_appends (args : list Expr) : nat :=
  match reverse args with
  | [] => 0
  | last_arg :: rest => own_appends last_arg rest
  end.

(** The entries the loop of a product appends to the list, on the
    factors [rest] still to come after [last_arg], from the counter
    [index]: the adjacency rule, that appends the counter after
    incrementing it when the factor before was an operator, and the
    counter as it is when an operator follows a ket. *)
Fixpoint own_entries (last_arg : Expr) (rest : list Expr) (index : Z) : list Z :=
  match rest with
  | [] => []
  | arg :: rest' =>
      if expr_is_Operator last_arg
      then (index + 1)%Z :: own_entries arg rest' (index + 1)
      else if expr_is_BraBase last_arg && expr_is_KetBase arg
      then own_entries arg rest' (index + 1)
      else if expr_is_KetBase last_arg && expr_is_Operator arg
      then index :: own_entries arg rest' index
      else own_entries arg rest' index
  end.

(** The same for a whole product, entered at the counter [index]. *)
Definition product_entries (args : list Expr) (index : Z) : list Z :=
  match reverse args with
  | [] => []
  | last_arg :: rest => own_entries last_arg rest index
  end.

(** Lists only grow, at their end. *)
Definition extends (h h' : Heap) : Prop :=
  ∀ l old, h !! l = Some old → ∃ app, h' !! l = Some (old ++ app).

(** Of the lists of [h], only the one at [u] may differ in [h']. *)
Definition frame_except (u : option loc) (h h' : Heap) : Prop :=
  ∀ l, l < length h → u ≠ Some l → h' !! l = h !! l.

(** A call that only appends, and only to the list it was given. *)
Definition rep_ok {W : World} (r : Rep) : Prop :=
  ∀ o h v h', r o h = Ok (v, h') →
    extends h h' ∧ frame_except (o_unities o) h h'.

(** The counter a call is entered with, 0 when the options carry none. *)
Definition entered_with (o : Options) : Z := default 0%Z (o_index o).

(** A call that records only indices above the counter it is entered
    with. *)
Definition rep_fresh {W : World} (r : Rep) : Prop :=
  ∀ o h v h' l old,
    r o h = Ok (v, h') → o_unities o = Some l → h !! l = Some old →
    ∃ app, h' !! l = Some (old ++ app) ∧
           Forall (λ k, (entered_with o < k)%Z) app.

(** The atoms that are numbers for [_sympy_to_scalar]. *)
Definition is_number_atom (a : Atom) : bool :=
  match a with AOther _ => false | _ => true end.

(** An expression that is a number for [_sympy_to_scalar]. *)
Definition is_number (e : Expr) : bool :=
  match e with EAtom a => is_number_atom a | _ => false end.

(** An expression that is a leaf. *)
Definition is_leaf (e : Expr) : bool :=
  match e with EQ _ => true | _ => false end.

(** Two states of a call that a callee cannot tell apart: the same
    options but for the address of the list, and the same contents of
    the list. *)
Definition same_list (o : Options) (h : Heap) (o' : Options) (h' : Heap) : Prop :=
  match o_unities o, o_unities o' with
  | None, None => True
  | Some l, Some l' => ∃ c, h !! l = Some c ∧ h' !! l' = Some c
  | _, _ => False
  end.

Definition alike (o : Options) (h : Heap) (o' : Options) (h' : Heap) : Prop :=
  set_unities None o = set_unities None o' ∧ same_list o h o' h'.

(** Two outcomes with the same value, or the same exception. *)
Definition same_outcome {V : Type} (o o' : Options)
    (r r' : result (V * Heap)) : Prop :=
  match r, r' with
  | Ok (v, h), Ok (v', h') => v = v' ∧ same_list o h o' h'
  | Raise e, Raise e' => e = e'
  | _, _ => False
  end.

(** A call that does the same from states that are alike. *)
Definition rep_alike {W : World} (r : Rep) : Prop :=
  ∀ o h o' h', alike o h o' h' → same_outcome o o' (r o h) (r o' h').

Section SpecWords.
Context {W : World}.

(** The default basis of [rep_innerproduct] as the specification words
    it: the leaf's own class, or its dual class if the leaf is a ket. *)
Definition spec_default_basis (q : QObj) : PyObj :=
  if is_KetBase q then PyInst (instantiate (dual_class (qclass q)))
  else PyInst (instantiate (qclass q)).

(** An iteration of an enclosing product on a factor that is itself a
    product, as the specification words it: the counter is shared, so
    the loop goes on with the counter the nested call ended with. *)
Definition shared_counter_iteration (inner rest : list Expr) (last_arg : Expr)
    (res : Val) (o : Options) (h : Heap) : result (Val * Options * Heap) :=
  '(o1, h1) ← adjust_index last_arg (EMul inner) o h;
  '(v, on, hn) ← represent_product inner o1 h1;
  mul_loop (with_calls rest) (EMul inner) (vmul v res)
           (set_index (o_index on) o1) hn.

End SpecWords.

(** Structural induction on expressions, through the argument lists. *)
Section ExprInduction.
Variable P : Expr → Prop.
Hypothesis H_Q : ∀ q, P (EQ q).
Hypothesis H_Add : ∀ args, Forall P args → P (EAdd args).
Hypothesis H_Mul : ∀ args, Forall P args → P (EMul args).
Hypothesis H_Pow : ∀ base exp, P base → P exp → P (EPow base exp).
Hypothesis H_Tensor : ∀ args, Forall P args → P (ETensorProduct args).
Hypothesis H_Dagger : ∀ arg, P arg → P (EDagger arg).
Hypothesis H_Comm : ∀ a b, P a → P b → P (ECommutator a b).
Hypothesis H_Anti : ∀ a b, P a → P b → P (EAntiCommutator a b).
Hypothesis H_Inner : ∀ bra ket, P bra → P ket → P (EInnerProduct bra ket).
Hypothesis H_Atom : ∀ a, P (EAtom a).

Fixpoint Expr_ind (e : Expr) : P e :=
  let fix all (l : list Expr) : Forall P l :=
    match l with
    | [] => List.Forall_nil P
    | x :: l' => @List.Forall_cons _ P x l' (Expr_ind x) (all l')
    end in
  match e with
  | EQ q => H_Q q
  | EAdd args => H_Add args (all args)
  | EMul args => H_Mul args (all args)
  | EPow base exp => H_Pow base exp (Expr_ind base) (Expr_ind exp)
  | ETensorProduct args => H_Tensor args (all args)
  | EDagger arg => H_Dagger arg (Expr_ind arg)
  | ECommutator a b => H_Comm a b (Expr_ind a) (Expr_ind b)
  | EAntiCommutator a b => H_Anti a b (Expr_ind a) (Expr_ind b)
  | EInnerProduct bra ket => H_Inner bra ket (Expr_ind bra) (Expr_ind ket)
  | EAtom a => H_Atom a
  end.
End ExprInduction.

(** What the statements on substitution assume of an expression
    algebra, for a test [occurs s e] of the symbol named [s] occurring
    in [e] (SymPy's [e.has(Symbol(s))]). *)
Record SymLaws {A : SymAlgebra} (occurs : string → Sym → bool) : Prop := {
  (** substituting for a symbol brings in no symbol that is absent from
      the new term, and removes the symbol substituted *)
  subs_occurs : ∀ s s' e c,
    occurs s' c = false → s' = s ∨ occurs s' e = false →
    occurs s' (sym_subs e (sym_symbol s) c) = false;
  (** a symbol absent from an expression is absent from its arguments *)
  args_occurs : ∀ s e a,
    occurs s e = false → a ∈ sym_args e → occurs s a = false;
  (** a symbol occurs in what equals it, and in what equals its negation *)
  eq_occurs : ∀ s a, sym_eqb a (sym_symbol s) = true → occurs s a = true;
  neg_occurs : ∀ s a,
    sym_eqb a (sym_neg (sym_symbol s)) = true → occurs s a = true;
  (** a product of factors without a symbol is without it *)
  Mul_occurs : ∀ s l,
    Forall (λ a, occurs s a = false) l → occurs s (sym_Mul l) = false;
  (** a delta has an argument *)
  delta_args : ∀ a, sym_is_DiracDelta a = true → sym_args a ≠ []
}.

(** Structural induction on terms, through the argument lists. *)
Section TermInduction.
Variable P : Terms.Term → Prop.
Hypothesis H_Symbol : ∀ s, P (Terms.TSymbol s).
Hypothesis H_Num : ∀ z, P (Terms.TNum z).
Hypothesis H_Oo : P Terms.TOo.
Hypothesis H_Add : ∀ args, Forall P args → P (Terms.TAdd args).
Hypothesis H_Mul : ∀ args, Forall P args → P (Terms.TMul args).
Hypothesis H_Delta : ∀ arg, P arg → P (Terms.TDiracDelta arg).

Fixpoint Term_ind (t : Terms.Term) : P t :=
  let fix all (l : list Terms.Term) : Forall P l :=
    match l with
    | [] => List.Forall_nil P
    | x :: l' => @List.Forall_cons _ P x l' (Term_ind x) (all l')
    end in
  match t with
  | Terms.TSymbol s => H_Symbol s
  | Terms.TNum z => H_Num z
  | Terms.TOo => H_Oo
  | Terms.TAdd args => H_Add args (all args)
  | Terms.TMul args => H_Mul args (all args)
  | Terms.TDiracDelta arg => H_Delta arg (Term_ind arg)
  end.
End TermInduction.

(** * Properties *)

(** ** enumerate_states *)

Lemma suffix_label_contains i lab : contains (suffix_label i lab) lab.
Proof. exists "", ("_" +:+ pretty i). reflexivity. Qed.

Lemma suffix_label_inj lab i j : suffix_label i lab = suffix_label j lab → i = j.
Proof.
  unfold suffix_label. intros Heq.
  apply (inj (String.app lab)) in Heq.
  apply (inj (String.app "_")) in Heq.
  by apply (inj pretty) in Heq.
Qed.

Lemma enum_state_label_inj q i j :
  qlabel q ≠ [] → qlabel (enum_state q i) = qlabel (enum_state q j) → i = j.
Proof.
  unfold enum_state; simpl. destruct (qlabel q) as [|lab labs]; [done|].
  intros _ Heq. simpl in Heq. injection Heq as Heq _.
  by apply suffix_label_inj in Heq.
Qed.

Lemma enumerate_states_not_state x rest :
  isinstance_StateBase x = false →
  enumerate_states x rest = Raise (TypeError "First argument is not a state!").
Proof. unfold enumerate_states. by intros ->. Qed.

Lemma enumerate_states_range q start count :
  is_StateBase q = true →
  enumerate_states (PyInst q) (StartCount start count)
  = Ok (enum_state q <$> seqZ start count).
Proof. unfold enumerate_states; simpl. by intros ->. Qed.

(** C7. [enumerate_states] on a template and a (start, count) pair: a
    template that is not a state raises the type error; a state gives
    as many states as there are positions in [start, start+count), the
    k-th one for position start+k, of the template's class, its label
    the template's label with every component suffixed by "_" and the
    position, so that every component contains the template's; and when
    the template has a label at all, states at different positions have
    different labels. *)
Theorem enumerate_states_start_count (template : PyObj) (start count : Z) :
  (isinstance_StateBase template = false →
   enumerate_states template (StartCount start count)
   = Raise (TypeError "First argument is not a state!")) ∧
  (∀ q, template = PyInst q → is_StateBase q = true →
   ∃ states,
     enumerate_states template (StartCount start count) = Ok states ∧
     length states = Z.to_nat count ∧
     (∀ k, (k < Z.to_nat count)%nat →
        ∃ st, states !! k = Some st ∧
          qclass st = qclass q ∧
          qlabel st = (λ lab, lab +:+ "_" +:+ pretty (start + Z.of_nat k)%Z) <$> qlabel q ∧
          Forall2 (λ new lab, contains new lab) (qlabel st) (qlabel q)) ∧
     (qlabel q ≠ [] →
      ∀ j k stj stk, j ≠ k → states !! j = Some stj → states !! k = Some stk →
        qlabel stj ≠ qlabel stk)).
Proof.
  split; [apply enumerate_states_not_state|].
  intros q -> Hstate. eexists. split; [by apply enumerate_states_range|].
  split; [by rewrite length_fmap, length_seqZ|]. split.
  - intros k Hk. exists (enum_state q (start + Z.of_nat k)%Z).
    split; [|split; [done|split; [done|]]].
    + rewrite list_lookup_fmap, lookup_seqZ_lt by lia. done.
    + simpl. apply Forall2_fmap_l, Forall_Forall2_diag, Forall_forall.
      intros lab _. apply suffix_label_contains.
  - intros Hlabel j k stj stk Hjk Hj Hk Heq.
    rewrite list_lookup_fmap in Hj, Hk.
    destruct (seqZ start count !! j) as [pj|] eqn:Ej; [|done].
    destruct (seqZ start count !! k) as [pk|] eqn:Ek; [|done].
    simpl in Hj, Hk. injection Hj as <-. injection Hk as <-.
    apply lookup_seqZ in Ej as [-> _]. apply lookup_seqZ in Ek as [-> _].
    apply enum_state_label_inj in Heq; [lia|done].
Qed.

Lemma enumerate_states_start_count_witness :
  is_StateBase (Cartesian.ket_at "x") = true ∧
  ∃ states,
    enumerate_states (PyInst (Cartesian.ket_at "x")) (StartCount 1 2) = Ok states ∧
    length states = 2%nat.
Proof.
  split; [reflexivity|].
  destruct (proj2 (enumerate_states_start_count
                     (PyInst (Cartesian.ket_at "x")) 1 2)
              (Cartesian.ket_at "x") eq_refl eq_refl)
    as (states & Hrun & Hlen & _).
  exists states. split; [exact Hrun | exact Hlen].
Defined.

Section LeafProperties.
Context {W : World}.

(** ** get_basis *)

Lemma get_basis_state_instance expr o b :
  o_basis o = Some (PyInst b) → is_StateBase b = true →
  get_basis expr o = Ok (PyInst b).
Proof.
  intros Hb Hs. unfold get_basis, pop_basis. rewrite Hb. simpl. by rewrite Hs.
Qed.

Lemma get_basis_state_class expr o c :
  o_basis o = Some (PyClass c) → kind_is_StateBase (ckind c) = true →
  get_basis expr o = Ok (PyInst (instantiate c)).
Proof.
  intros Hb Hs. unfold get_basis, pop_basis. rewrite Hb. simpl. by rewrite Hs.
Qed.

Lemma get_basis_operator_class expr o c :
  o_basis o = Some (PyClass c) → kind_is_Operator (ckind c) = true →
  get_basis expr o = Ok (state_of_mapping (operator_to_state (PyClass c))).
Proof.
  intros Hb Hs. unfold get_basis, pop_basis. rewrite Hb. simpl.
  destruct (ckind c); try discriminate; reflexivity.
Qed.

Lemma get_basis_foreign_class expr o name :
  o_basis o = Some (PyForeignClass name) → get_basis expr o = Ok PyNone.
Proof. intros Hb. unfold get_basis, pop_basis. by rewrite Hb. Qed.

(** An instance that is not a state reaches [issubclass], which raises:
    the branch for operator instances is never taken. *)
Lemma get_basis_other_instance expr o q :
  o_basis o = Some (PyInst q) → is_StateBase q = false →
  get_basis expr o = Raise (TypeError "issubclass() arg 1 must be a class").
Proof.
  intros Hb Hs. unfold get_basis, pop_basis. rewrite Hb. simpl. by rewrite Hs.
Qed.

Lemma get_basis_other_value expr o repr :
  o_basis o = Some (PyValue repr) →
  get_basis expr o = Raise (TypeError "issubclass() arg 1 must be a class").
Proof. intros Hb. unfold get_basis, pop_basis. by rewrite Hb. Qed.

(** ** rep_innerproduct *)

(** C5 (amended). Called on a bra or ket leaf with no basis in the
    options, [rep_innerproduct] does what it does when the options carry
    its default basis, and that default is the default instance of the
    leaf's own class when the leaf is a ket, of the leaf's dual class
    when it is a bra. *)
Theorem rep_innerproduct_default_basis (q : QObj) (o : Options) :
  o_basis o = None →
  is_KetBase q || is_BraBase q = true →
  rep_innerproduct (EQ q) o
  = rep_innerproduct (EQ q) (set_basis (Some (default_basis q)) o) ∧
  (is_KetBase q = true → default_basis q = PyInst (instantiate (qclass q))) ∧
  (is_BraBase q = true →
   default_basis q = PyInst (instantiate (dual_class (qclass q)))).
Proof.
  intros Hb Hkind. split; [|split].
  - unfold rep_innerproduct. rewrite Hkind, Hb. reflexivity.
  - unfold default_basis. by intros ->.
  - unfold default_basis, is_KetBase, is_BraBase.
    destruct (ckind (qclass q)); simpl; done.
Qed.

(** ** integrate_result *)

Lemma integrate_result_with_basis orig_args res o h b :
  o_basis o = None → last orig_args = Some b →
  integrate_result orig_args res o h
  = match infer_basis b with
    | Some basis => integrate_result orig_args res (set_basis (Some basis) o) h
    | None => Ok res
    end.
Proof.
  intros Hb Hlast. unfold integrate_result. rewrite Hb, Hlast.
  destruct (is_Expr res); simpl; [|by destruct (infer_basis b)].
  destruct (infer_basis b) as [basis|] eqn:E; simpl; [|reflexivity].
  unfold pop_basis, unities_of. simpl. reflexivity.
Qed.

(** With a state as basis, one unresolved index and its coordinate
    free in the result, the result is integrated once. *)
Lemma integrate_result_one_index orig_args res o h b lab0 labs u :
  is_Expr res = true →
  o_basis o = Some (PyInst b) → is_StateBase b = true →
  qlabel b = lab0 :: labs → unities_of o h = Some [u] →
  has_free_symbol res (suffix_label u lab0) = true →
  integrate_result orig_args res o h
  = match state_to_operator (PyInst b) with
    | Some op_class =>
        Ok (integrate res (suffix_label u lab0)
              (hilbert_interval (instantiate op_class)).1
              (hilbert_interval (instantiate op_class)).2)
    | None => Raise (TypeError "'NoneType' object is not callable")
    end.
Proof.
  intros Hexpr Hb Hstate Hlabel Hus Hfree.
  unfold integrate_result. rewrite Hexpr, Hb. simpl negb. cbv beta iota.
  cbv beta iota delta [mbind result_bind]. unfold pop_basis.
  rewrite Hb, Hus. simpl default. cbv beta iota.
  unfold enumerate_states. simpl isinstance_StateBase. rewrite Hstate.
  cbv beta iota. simpl. unfold label0. simpl. rewrite Hlabel. simpl.
  rewrite Hfree. destruct (state_to_operator (PyInst b)) as [c|]; [|done].
  by destruct (hilbert_interval (instantiate c)).
Qed.

(** C9. With no basis in the options, [integrate_result] infers it from
    the last argument of the original product alone: two products with
    the same last argument give the same outcome; a ket or bra there
    stands for the default instance of its class, an operator for the
    default instance of the state class [operator_to_state] maps it to,
    and when there is no such class, or the last argument is none of
    these, the result is returned unchanged.  The inferred basis is the
    one integrated over: with one unresolved index whose coordinate,
    built from the label of the inferred default instance, is free in
    the result, the result is integrated over that coordinate, between
    the bounds of the operator mapped to the inferred basis. *)
Theorem integrate_result_infers_from_last
    (orig_args : list Expr) (arg : Expr) (res : Val) (o : Options) (h : Heap) :
  o_basis o = None →
  last orig_args = Some arg →
  (∀ other_args, last other_args = Some arg →
     integrate_result other_args res o h = integrate_result orig_args res o h) ∧
  (∀ q, arg = EQ q → is_KetBase q || is_BraBase q = true →
     integrate_result orig_args res o h
     = integrate_result orig_args res
         (set_basis (Some (PyInst (instantiate (qclass q)))) o) h) ∧
  (∀ q state_class, arg = EQ q → is_Operator q = true →
     operator_to_state (PyInst q) = Some state_class →
     integrate_result orig_args res o h
     = integrate_result orig_args res
         (set_basis (Some (PyInst (instantiate state_class))) o) h) ∧
  (∀ q, arg = EQ q → is_Operator q = true →
     operator_to_state (PyInst q) = None →
     integrate_result orig_args res o h = Ok res) ∧
  (expr_is_KetBase arg = false → expr_is_BraBase arg = false →
   expr_is_Operator arg = false →
     integrate_result orig_args res o h = Ok res) ∧
  (∀ q c lab0 labs u op_class,
     arg = EQ q →
     (is_KetBase q || is_BraBase q = true ∧ c = qclass q) ∨
     (is_Operator q = true ∧ operator_to_state (PyInst q) = Some c ∧
      kind_is_StateBase (ckind c) = true) →
     default_args c = lab0 :: labs →
     is_Expr res = true → unities_of o h = Some [u] →
     has_free_symbol res (suffix_label u lab0) = true →
     state_to_operator (PyInst (instantiate c)) = Some op_class →
     integrate_result orig_args res o h
     = Ok (integrate res (suffix_label u lab0)
             (hilbert_interval (instantiate op_class)).1
             (hilbert_interval (instantiate op_class)).2)).
Proof.
  intros Hb Hlast.
  assert (∀ q, is_Operator q = true →
            infer_basis (EQ q)
            = Some (state_of_mapping (operator_to_state (PyInst q)))) as Hinfer_op.
  { intros q Hop. simpl. unfold is_KetBase, is_BraBase, is_Operator in *.
    destruct (ckind (qclass q)); try discriminate; reflexivity. }
  refine (conj _ (conj _ (conj _ (conj _ (conj _ _))))).
  - intros other Hother.
    rewrite (integrate_result_with_basis other res o h arg Hb Hother).
    rewrite (integrate_result_with_basis orig_args res o h arg Hb Hlast).
    destruct (infer_basis arg); [|reflexivity].
    unfold integrate_result. simpl. reflexivity.
  - intros q -> Hkind.
    rewrite (integrate_result_with_basis _ _ _ _ _ Hb Hlast).
    simpl. by rewrite Hkind.
  - intros q sc -> Hop Hmap.
    rewrite (integrate_result_with_basis _ _ _ _ _ Hb Hlast).
    by rewrite (Hinfer_op q Hop), Hmap.
  - intros q -> Hop Hmap.
    rewrite (integrate_result_with_basis _ _ _ _ _ Hb Hlast).
    rewrite (Hinfer_op q Hop), Hmap.
    unfold integrate_result; simpl; by destruct (is_Expr res).
  - intros Hk Hbr Hop.
    rewrite (integrate_result_with_basis _ _ _ _ _ Hb Hlast).
    destruct arg; simpl in *; try reflexivity.
    by rewrite Hk, Hbr, Hop.
  - intros q c lab0 labs u opc -> Hc Hargs Hexpr Hus Hfree Hmap.
    rewrite (integrate_result_with_basis _ _ _ _ _ Hb Hlast).
    assert (infer_basis (EQ q) = Some (PyInst (instantiate c)) ∧
            is_StateBase (instantiate c) = true) as [-> Hstate].
    { destruct Hc as [[Hkind ->] | (Hop & Hto & Hstate)].
      - simpl. rewrite Hkind. split; [done|].
        unfold is_StateBase, is_KetBase, is_BraBase in *. simpl.
        by destruct (ckind (qclass q)).
      - by rewrite (Hinfer_op q Hop), Hto. }
    rewrite (integrate_result_one_index orig_args res
               (set_basis (Some (PyInst (instantiate c))) o) h
               (instantiate c) lab0 labs u Hexpr eq_refl Hstate Hargs Hus Hfree).
    by rewrite Hmap.
Qed.

(** ** represent on a leaf *)

Lemma represent_EQ q o h :
  represent (EQ q) o h = (v ← represent_QExpr q o h; Ok (v, h)).
Proof. reflexivity. Qed.

(** C4. When the own rule of a leaf declines with a reason, [represent]
    first asks [get_basis] for the basis.  With a basis specifier that
    is an instance other than a state (an operator instance), or a
    value that is not a class, [get_basis] raises inside the handler:
    the type error of [issubclass] comes out, no fallback is attempted
    and the reason of the own rule is lost.  When [get_basis] returns,
    [represent] turns to the fallback for the basis found:
    [rep_innerproduct] for a bra or ket, [rep_expectation] for a
    Hermitian operator; what the fallback returns is the result, and
    when the fallback declines too, the error raised carries the reason
    of the own rule, not the fallback's, and nothing is tried again. *)
Theorem represent_leaf_fallback
    (q : QObj) (o : Options) (h : Heap) (strerr : string) :
  own_represent q (view o h) = Raise (NotImplementedError strerr) →
  ((∃ b, o_basis o = Some (PyInst b) ∧ is_StateBase b = false) ∨
   (∃ repr, o_basis o = Some (PyValue repr)) →
   represent (EQ q) o h = Raise (TypeError "issubclass() arg 1 must be a class")) ∧
  (∀ basis, get_basis (EQ q) o = Ok basis →
   let o' := set_basis (Some basis) o in
   (is_KetBase q || is_BraBase q = true →
      (∀ v, rep_innerproduct (EQ q) o' = Ok v → represent (EQ q) o h = Ok (v, h)) ∧
      (∀ reason, rep_innerproduct (EQ q) o' = Raise (NotImplementedError reason) →
         represent (EQ q) o h = Raise (NotImplementedError strerr))) ∧
   (is_KetBase q || is_BraBase q = false → is_HermitianOperator q = true →
      (∀ v, rep_expectation (EQ q) o' = Ok v → represent (EQ q) o h = Ok (v, h)) ∧
      (∀ reason, rep_expectation (EQ q) o' = Raise (NotImplementedError reason) →
         represent (EQ q) o h = Raise (NotImplementedError strerr)))).
Proof.
  intros Hown. rewrite represent_EQ. unfold represent_QExpr. rewrite Hown.
  split.
  - intros [(b & Hb & Hstate) | (repr & Hb)].
    + by rewrite (get_basis_other_instance _ _ _ Hb Hstate).
    + by rewrite (get_basis_other_value _ _ _ Hb).
  - intros basis Hbasis. rewrite Hbasis. simpl. split.
    + intros ->. split.
      * by intros v ->.
      * by intros reason ->.
    + intros -> ->. split.
      * by intros v ->.
      * by intros reason ->.
Qed.

End LeafProperties.

(** ** The product algorithm *)

Section ProductProperties.
Context {W : World}.

Lemma fst_with_calls args : (with_calls args).*1 = args.
Proof.
  unfold with_calls. induction args as [|a args IH]; [done|].
  simpl. f_equal. exact IH.
Qed.


Lemma represent_EMul args o h :
  represent (EMul args) o h = forget_frame (represent_product args o h).
Proof. reflexivity. Qed.

Lemma represent_EInnerProduct bra ket o h :
  represent (EInnerProduct bra ket) o h = represent (EMul [bra; ket]) o h.
Proof. reflexivity. Qed.

Lemma represent_EQ_heap q o h v h' :
  represent (EQ q) o h = Ok (v, h') → h' = h.
Proof.
  rewrite represent_EQ. destruct (represent_QExpr q o h); simpl; [|done].
  by intros [= _ <-].
Qed.

Lemma represent_EAtom_heap a o h v h' :
  represent (EAtom a) o h = Ok (v, h') → h' = h.
Proof.
  simpl. destruct (is_numeric_format (get_format o)).
  - destruct a; simpl; try done; by intros [= _ <-].
  - by intros [= _ <-].
Qed.

(** The adjacency rule, case by case. *)
Lemma adjust_index_cases last_arg arg o h i l :
  o_index o = Some i → o_unities o = Some l →
  adjust_index last_arg arg o h =
    if expr_is_Operator last_arg
    then Ok (set_index (Some (i + 1)%Z) o, alter (λ u, u ++ [(i + 1)%Z]) l h)
    else if expr_is_BraBase last_arg && expr_is_KetBase arg
    then Ok (set_index (Some (i + 1)%Z) o, h)
    else if expr_is_KetBase last_arg && expr_is_Operator arg
    then Ok (o, alter (λ u, u ++ [i]) l h)
    else Ok (o, h).
Proof.
  intros Hi Hl. unfold adjust_index, incr_index, append_index.
  rewrite Hi, Hl. simpl. rewrite Hl. reflexivity.
Qed.


Lemma represent_product_nil o h : represent_product [] o h = Raise IndexError.
Proof.
  unfold represent_product, represent_Mul. simpl.
  by destruct (ensure_unities (enter_index o) h).
Qed.

Lemma ensure_unities_spec o h o2 h2 :
  wf_options o h →
  ensure_unities o h = (o2, h2) →
  o_index o2 = o_index o ∧
  ∃ l, o_unities o2 = Some l ∧ h2 !! l = Some (default [] (unities_of o h)).
Proof.
  unfold ensure_unities, unities_of, wf_options.
  destruct (o_unities o) as [l|] eqn:El.
  - intros Hwf [= <- <-]. split; [done|]. exists l. split; [done|].
    destruct (lookup_lt_is_Some_2 h l (Hwf l eq_refl)) as [u Hu].
    simpl. by rewrite Hu.
  - intros _ [= <- <-]. split; [done|]. exists (length h). split; [done|].
    by apply list_lookup_middle.
Qed.

(** What the adjacency rule does to the frame and to the heap. *)
Lemma adjust_index_result last_arg arg o h o1 h1 i :
  o_index o = Some i →
  adjust_index last_arg arg o h = Ok (o1, h1) →
  o_index o1 =
    Some (i + (if expr_is_Operator last_arg
                  || expr_is_BraBase last_arg && expr_is_KetBase arg
               then 1 else 0))%Z ∧
  o_unities o1 = o_unities o ∧
  ((expr_is_Operator last_arg
    || expr_is_KetBase last_arg && expr_is_Operator arg = false ∧ h1 = h) ∨
   (expr_is_Operator last_arg
    || expr_is_KetBase last_arg && expr_is_Operator arg = true ∧
    ∃ l k, o_unities o = Some l ∧ h1 = alter (λ u, u ++ [k]) l h)).
Proof.
  intros Hi. unfold adjust_index, incr_index, append_index. rewrite Hi.
  destruct (expr_is_Operator last_arg); simpl.
  - destruct (o_unities o) as [l|] eqn:El; simpl; [|done].
    intros [= <- <-]. simpl. split; [done|]. split; [done|].
    right. split; [done|]. by exists l, (i + 1)%Z.
  - destruct (expr_is_BraBase last_arg && expr_is_KetBase arg) eqn:Ebk; simpl.
    + intros [= <- <-]. simpl. split; [done|]. split; [done|].
      left. split; [|done].
      destruct (expr_is_BraBase last_arg) eqn:Eb; [|done].
      destruct last_arg; try done. simpl in *.
      unfold is_BraBase, is_KetBase in *. by destruct (ckind (qclass q)).
    + destruct (expr_is_KetBase last_arg && expr_is_Operator arg) eqn:Eko.
      * destruct (o_unities o) as [l|] eqn:El; simpl; [|done].
        intros [= <- <-]. rewrite Hi. split; [f_equal; lia|]. split; [done|].
        right. split; [done|]. by exists l, i.
      * intros [= <- <-]. rewrite Hi. split; [f_equal; lia|]. split; [done|].
        by left.
Qed.

(** The counter of the frame after the loop: the counter before it plus
    the increments of the loop itself. *)
Lemma mul_loop_index rest : ∀ last_arg res o h res' o' h' i,
  o_index o = Some i →
  mul_loop rest last_arg res o h = Ok (res', o', h') →
  o_index o' = Some (i + own_bumps last_arg rest.*1)%Z ∧
  o_unities o' = o_unities o.
Proof.
  induction rest as [|[arg rep_arg] rest IH]; intros la res o h res' o' h' i Hi Hrun.
  - simpl in *. injection Hrun as <- <- <-. rewrite Hi. split; [f_equal; lia|done].
  - simpl in Hrun.
    destruct (adjust_index la arg o h) as [[o1 h1]|e] eqn:Eadj; simpl in Hrun; [|done].
    destruct (rep_arg o1 h1) as [[v h2]|e] eqn:Erep; simpl in Hrun; [|done].
    destruct (adjust_index_result _ _ _ _ _ _ _ Hi Eadj) as (Hi1 & Hu1 & _).
    destruct (IH _ _ _ _ _ _ _ _ Hi1 Hrun) as [Hidx Hun].
    rewrite Hidx, Hun, Hu1, fmap_cons. split; [f_equal; simpl; lia|done].
Qed.

End ProductProperties.

(** ** The shared list *)

Lemma extends_refl h : extends h h.
Proof. intros l old Hl. exists []. by rewrite app_nil_r. Qed.

Lemma extends_trans h1 h2 h3 : extends h1 h2 → extends h2 h3 → extends h1 h3.
Proof.
  intros H12 H23 l old Hl.
  destruct (H12 l old Hl) as [app1 H2]. destruct (H23 l _ H2) as [app2 H3].
  exists (app1 ++ app2). by rewrite app_assoc.
Qed.

Lemma extends_length h h' : extends h h' → length h ≤ length h'.
Proof.
  intros Hext. destruct (decide (length h ≤ length h')) as [|Hlt]; [done|].
  destruct (lookup_lt_is_Some_2 h (length h')) as [old Hold]; [lia|].
  destruct (Hext _ _ Hold) as [app Happ].
  apply lookup_lt_Some in Happ. lia.
Qed.

Lemma extends_alter h l k : extends h (alter (λ u, u ++ [k]) l h).
Proof.
  intros l' old Hl'. destruct (decide (l = l')) as [->|Hne].
  - exists [k]. by rewrite list_lookup_alter_eq, Hl'.
  - exists []. by rewrite list_lookup_alter_ne, app_nil_r.
Qed.

Lemma extends_alloc h : extends h (h ++ [[]]).
Proof.
  intros l old Hl. exists []. rewrite app_nil_r, lookup_app_l; [done|].
  by eapply lookup_lt_Some.
Qed.

Lemma frame_except_refl u h : frame_except u h h.
Proof. by intros l _ _. Qed.

Lemma frame_except_trans u h1 h2 h3 :
  extends h1 h2 → frame_except u h1 h2 → frame_except u h2 h3 →
  frame_except u h1 h3.
Proof.
  intros Hext H12 H23 l Hl Hu. apply extends_length in Hext.
  rewrite H23; [by apply H12 | lia | done].
Qed.

Lemma frame_except_alter h l k : frame_except (Some l) h (alter (λ u, u ++ [k]) l h).
Proof.
  intros l' _ Hne. apply list_lookup_alter_ne. intros ->. by apply Hne.
Qed.

(** A callee that was given no list allocates its own: the lists of the
    caller stay as they are. *)
Lemma frame_except_alloc h h' :
  frame_except (Some (length h)) (h ++ [[]]) h' → extends (h ++ [[]]) h' →
  frame_except None h h'.
Proof.
  intros Hframe Hext l Hl _. rewrite Hframe.
  - by apply lookup_app_l.
  - rewrite length_app. simpl. lia.
  - intros [= <-]. lia.
Qed.

Section SharedList.
Context {W : World}.

Lemma adjust_index_grows last_arg arg o h o1 h1 i :
  o_index o = Some i →
  adjust_index last_arg arg o h = Ok (o1, h1) →
  extends h h1 ∧ frame_except (o_unities o) h h1.
Proof.
  intros Hi Hadj.
  destruct (adjust_index_result _ _ _ _ _ _ _ Hi Hadj)
    as (_ & _ & [[_ ->] | [_ (l & k & Hl & ->)]]).
  - split; [apply extends_refl | apply frame_except_refl].
  - rewrite Hl. split; [apply extends_alter | apply frame_except_alter].
Qed.

Lemma add_loop_grows rest : ∀ o res h v h',
  Forall rep_ok rest →
  add_loop rest o res h = Ok (v, h') →
  extends h h' ∧ frame_except (o_unities o) h h'.
Proof.
  induction rest as [|r rest IH]; intros o res h v h' Hok Hrun; simpl in Hrun.
  - injection Hrun as <- <-. split; [apply extends_refl | apply frame_except_refl].
  - apply Forall_cons in Hok as [Hr Hrest].
    destruct (r o h) as [[v1 h1]|e] eqn:Er; simpl in Hrun; [|done].
    destruct (Hr _ _ _ _ Er) as [He1 Hf1].
    destruct (IH _ _ _ _ _ Hrest Hrun) as [He2 Hf2].
    split; [by eapply extends_trans | by eapply frame_except_trans].
Qed.

Lemma represent_all_grows reps : ∀ o h vs h',
  Forall rep_ok reps →
  represent_all reps o h = Ok (vs, h') →
  extends h h' ∧ frame_except (o_unities o) h h'.
Proof.
  induction reps as [|r reps IH]; intros o h vs h' Hok Hrun; simpl in Hrun.
  - injection Hrun as <- <-. split; [apply extends_refl | apply frame_except_refl].
  - apply Forall_cons in Hok as [Hr Hrest].
    destruct (r o h) as [[v1 h1]|e] eqn:Er; simpl in Hrun; [|done].
    destruct (represent_all reps o h1) as [[vs1 h2]|e] eqn:Eall; simpl in Hrun;
      [|done].
    injection Hrun as <- <-.
    destruct (Hr _ _ _ _ Er) as [He1 Hf1].
    destruct (IH _ _ _ _ Hrest Eall) as [He2 Hf2].
    split; [by eapply extends_trans | by eapply frame_except_trans].
Qed.

Lemma mul_loop_grows rest : ∀ last_arg res o h res' o' h' i,
  Forall (λ f, rep_ok f.2) rest →
  o_index o = Some i →
  mul_loop rest last_arg res o h = Ok (res', o', h') →
  extends h h' ∧ frame_except (o_unities o) h h'.
Proof.
  induction rest as [|[arg rep_arg] rest IH];
    intros la res o h res' o' h' i Hok Hi Hrun; simpl in Hrun.
  - injection Hrun as <- <- <-.
    split; [apply extends_refl | apply frame_except_refl].
  - apply Forall_cons in Hok as [Hr Hrest]. simpl in Hr.
    destruct (adjust_index la arg o h) as [[o1 h1]|e] eqn:Eadj; simpl in Hrun; [|done].
    destruct (rep_arg o1 h1) as [[v h2]|e] eqn:Erep; simpl in Hrun; [|done].
    destruct (adjust_index_result _ _ _ _ _ _ _ Hi Eadj) as (Hi1 & Hu1 & _).
    destruct (adjust_index_grows _ _ _ _ _ _ _ Hi Eadj) as [He1 Hf1].
    destruct (Hr _ _ _ _ Erep) as [He2 Hf2]. rewrite Hu1 in Hf2.
    destruct (IH _ _ _ _ _ _ _ _ Hrest Hi1 Hrun) as [He3 Hf3]. rewrite Hu1 in Hf3.
    split.
    + eapply extends_trans; [|exact He3]. by eapply extends_trans.
    + eapply frame_except_trans; [| |exact Hf3].
      * by eapply extends_trans.
      * by eapply frame_except_trans.
Qed.

Lemma represent_Mul_grows factors o h v o' h' :
  Forall (λ f, rep_ok f.2) factors →
  represent_Mul factors o h = Ok (v, o', h') →
  extends h h' ∧ frame_except (o_unities o) h h'.
Proof.
  intros Hok. unfold represent_Mul.
  destruct (ensure_unities (enter_index o) h) as [o2 h2] eqn:Eens.
  assert (Forall (λ f, rep_ok f.2) (reverse factors)) as Hrev.
  { apply Forall_forall. intros f Hf. rewrite elem_of_reverse in Hf.
    exact (proj1 (Forall_forall _ _) Hok f Hf). }
  destruct (reverse factors) as [|[la rep_last] rest]; [done|].
  apply Forall_cons in Hrev as [Hlast Hrest]. simpl in Hlast.
  destruct (rep_last o2 h2) as [[res h3]|e] eqn:Elast; simpl; [|done].
  destruct (mul_loop rest la res o2 h3) as [[[res' o3] h4]|e] eqn:Eloop; simpl;
    [|done].
  destruct (integrate_result _ _ _ _); simpl; [|done].
  intros [= -> -> ->].
  assert (o_index o2 = Some (entry_index o)) as Hi2.
  { unfold ensure_unities in Eens. destruct (o_unities (enter_index o));
      by injection Eens as <- <-. }
  destruct (Hlast _ _ _ _ Elast) as [He3 Hf3].
  destruct (mul_loop_grows _ _ _ _ _ _ _ _ _ Hrest Hi2 Eloop) as [He4 Hf4].
  assert (extends h2 h') as He24 by (by eapply extends_trans).
  assert (frame_except (o_unities o2) h2 h') as Hf24
    by exact (frame_except_trans _ _ _ _ He3 Hf3 Hf4).
  unfold ensure_unities in Eens. simpl in Eens.
  destruct (o_unities o) as [l|] eqn:El.
  - injection Eens as <- <-. simpl in *. rewrite El in Hf24. done.
  - injection Eens as <- <-. simpl in *. split.
    + eapply extends_trans; [apply extends_alloc | done].
    + by apply frame_except_alloc.
Qed.

(** Every call of [represent] only appends to lists, and leaves every
    list but the one its options refer to as it was. *)
Lemma represent_grows e : rep_ok (represent e).
Proof.
  induction e as [q|args IH|args IH|base exp IHb IHe|args IH|arg IH
                  |a b IHa IHb|a b IHa IHb|bra ket IHb IHk|a] using Expr_ind;
    intros o h v h' Hrun.
  - apply represent_EQ_heap in Hrun as ->.
    split; [apply extends_refl | apply frame_except_refl].
  - simpl in Hrun. destruct args as [|a args]; [done|]. simpl in Hrun.
    apply Forall_cons in IH as [Ha Hargs].
    destruct (represent a o h) as [[v1 h1]|e] eqn:Ea; simpl in Hrun; [|done].
    destruct (Ha _ _ _ _ Ea) as [He1 Hf1].
    destruct (add_loop_grows (map represent args) o v1 h1 v h') as [He2 Hf2];
      [by apply Forall_fmap | done |].
    split; [by eapply extends_trans | by eapply frame_except_trans].
  - rewrite represent_EMul in Hrun. unfold forget_frame, represent_product in Hrun.
    destruct (represent_Mul (with_calls args) o h) as [[[v1 o1] h1]|e] eqn:Emul;
      simpl in Hrun; [|done].
    injection Hrun as <- <-.
    eapply represent_Mul_grows; [|exact Emul].
    unfold with_calls. by apply Forall_fmap.
  - simpl in Hrun.
    destruct (if is_numeric_format (get_format o)
              then _sympy_to_scalar exp ≫= λ s, Ok (ExpScalar s)
              else Ok (ExpExpr exp)) as [ex|e]; simpl in Hrun; [|done].
    destruct (represent base o h) as [[b h1]|e] eqn:Eb; simpl in Hrun; [|done].
    injection Hrun as <- <-. by eapply IHb.
  - simpl in Hrun.
    destruct (represent_all (map represent args) o h) as [[vs h1]|e] eqn:Eall;
      simpl in Hrun; [|done].
    injection Hrun as <- <-.
    eapply represent_all_grows; [|exact Eall]. by apply Forall_fmap.
  - simpl in Hrun.
    destruct (represent arg o h) as [[v1 h1]|e] eqn:Ea; simpl in Hrun; [|done].
    injection Hrun as <- <-. by eapply IH.
  - simpl in Hrun.
    destruct (represent a o h) as [[v1 h1]|e] eqn:Ea; simpl in Hrun; [|done].
    destruct (represent b o h1) as [[v2 h2]|e] eqn:Eb; simpl in Hrun; [|done].
    injection Hrun as <- <-.
    destruct (IHa _ _ _ _ Ea) as [He1 Hf1]. destruct (IHb _ _ _ _ Eb) as [He2 Hf2].
    split; [by eapply extends_trans | by eapply frame_except_trans].
  - simpl in Hrun.
    destruct (represent a o h) as [[v1 h1]|e] eqn:Ea; simpl in Hrun; [|done].
    destruct (represent b o h1) as [[v2 h2]|e] eqn:Eb; simpl in Hrun; [|done].
    injection Hrun as <- <-.
    destruct (IHa _ _ _ _ Ea) as [He1 Hf1]. destruct (IHb _ _ _ _ Eb) as [He2 Hf2].
    split; [by eapply extends_trans | by eapply frame_except_trans].
  - rewrite represent_EInnerProduct, represent_EMul in Hrun.
    unfold forget_frame, represent_product in Hrun.
    destruct (represent_Mul (with_calls [bra; ket]) o h) as [[[v1 o1] h1]|e] eqn:Emul;
      simpl in Hrun; [|done].
    injection Hrun as <- <-.
    eapply represent_Mul_grows; [|exact Emul].
    unfold with_calls. simpl. repeat apply List.Forall_cons; done.
  - apply represent_EAtom_heap in Hrun as ->.
    split; [apply extends_refl | apply frame_except_refl].
Qed.

End SharedList.

Section ProductBookkeeping.
Context {W : World}.

Lemma mul_loop_cons arg rep_arg rest last_arg res o h :
  mul_loop ((arg, rep_arg) :: rest) last_arg res o h =
    ('(o1, h1) ← adjust_index last_arg arg o h;
     '(v, h2) ← rep_arg o1 h1;
     mul_loop rest arg (vmul v res) o1 h2).
Proof. reflexivity. Qed.

Lemma ket_kind q :
  is_KetBase q = true → is_Operator q = false ∧ is_BraBase q = false.
Proof. unfold is_KetBase, is_Operator, is_BraBase. by destruct (ckind (qclass q)). Qed.

Lemma bra_kind q :
  is_BraBase q = true → is_Operator q = false ∧ is_KetBase q = false.
Proof. unfold is_KetBase, is_Operator, is_BraBase. by destruct (ckind (qclass q)). Qed.


(** The list grows by at least the appends of the loop itself. *)
Lemma mul_loop_appends rest : ∀ last_arg res o h res' o' h' i l old,
  Forall (λ f, rep_ok f.2) rest →
  o_index o = Some i → o_unities o = Some l → h !! l = Some old →
  mul_loop rest last_arg res o h = Ok (res', o', h') →
  ∃ app, h' !! l = Some (old ++ app) ∧ own_appends last_arg rest.*1 ≤ length app.
Proof.
  induction rest as [|[arg rep_arg] rest IH];
    intros la res o h res' o' h' i l old Hok Hi Hl Hold Hrun.
  - simpl in Hrun. injection Hrun as <- <- <-. exists [].
    rewrite app_nil_r. split; [done|simpl; lia].
  - rewrite mul_loop_cons in Hrun.
    apply Forall_cons in Hok as [Hr Hrest]. simpl in Hr.
    destruct (adjust_index la arg o h) as [[o1 h1]|e] eqn:Eadj; simpl in Hrun; [|done].
    destruct (rep_arg o1 h1) as [[v h2]|e] eqn:Erep; simpl in Hrun; [|done].
    destruct (adjust_index_result _ _ _ _ _ _ _ Hi Eadj) as (Hi1 & Hu1 & Hheap).
    rewrite Hl in Hu1.
    assert (∃ a1, h1 !! l = Some (old ++ a1) ∧
              (if expr_is_Operator la || expr_is_KetBase la && expr_is_Operator arg
               then 1 else 0) ≤ length a1) as (a1 & Hh1 & Hlen1).
    { destruct Hheap as [[-> ->] | [-> (l' & k & Hl' & ->)]].
      - exists []. rewrite app_nil_r. split; [done|simpl; lia].
      - rewrite Hl in Hl'. injection Hl' as <-. exists [k].
        rewrite list_lookup_alter_eq, Hold. split; [done|simpl; lia]. }
    destruct (Hr _ _ _ _ Erep) as [Hext _].
    destruct (Hext _ _ Hh1) as [a2 Hh2].
    destruct (IH _ _ _ _ _ _ _ _ _ _ Hrest Hi1 Hu1 Hh2 Hrun) as (a3 & Hh3 & Hlen3).
    exists (a1 ++ a2 ++ a3). split.
    + rewrite Hh3. f_equal. by rewrite <- !app_assoc.
    + rewrite fmap_cons. simpl own_appends. rewrite !length_app. lia.
Qed.

Lemma with_calls_ok args : Forall (λ f, rep_ok f.2) (with_calls args).
Proof.
  unfold with_calls. apply Forall_fmap, Forall_forall. intros e _. simpl.
  apply represent_grows.
Qed.

Lemma reverse_with_calls args : reverse (with_calls args) = with_calls (reverse args).
Proof. unfold with_calls. symmetry. apply fmap_reverse. Qed.

(** The frame of a product when it returns, and the list it was given. *)
Lemma represent_product_frame args o h v o' h' :
  represent_product args o h = Ok (v, o', h') →
  o_index o' = Some (entry_index o + product_bumps args)%Z ∧
  (∀ l, o_unities o = Some l → o_unities o' = Some l) ∧
  (∀ l old, o_unities o = Some l → h !! l = Some old →
     ∃ app, h' !! l = Some (old ++ app) ∧ product_appends args ≤ length app).
Proof.
  unfold represent_product, represent_Mul, product_bumps, product_appends.
  rewrite reverse_with_calls.
  destruct (ensure_unities (enter_index o) h) as [o2 h2] eqn:Eens.
  destruct (reverse args) as [|la rest]; [simpl; done|].
  change (with_calls (la :: rest)) with ((la, represent la) :: with_calls rest).
  cbv beta iota.
  destruct (represent la o2 h2) as [[res h3]|e] eqn:Elast; simpl; [|done].
  destruct (mul_loop (with_calls rest) la res o2 h3) as [[[res' o3] h4]|e] eqn:Eloop;
    simpl; [|done].
  destruct (integrate_result _ _ _ _); simpl; [|done].
  intros [= -> -> ->].
  assert (o_index o2 = Some (entry_index o)) as Hi2.
  { unfold ensure_unities in Eens. destruct (o_unities (enter_index o));
      by injection Eens as <- <-. }
  destruct (mul_loop_index _ _ _ _ _ _ _ _ _ Hi2 Eloop) as [Hidx Hun].
  rewrite fst_with_calls in Hidx. split; [done|]. split.
  - intros l Hl. rewrite Hun. unfold ensure_unities in Eens. simpl in Eens.
    rewrite Hl in Eens. by injection Eens as <- <-.
  - intros l old Hl Hold. unfold ensure_unities in Eens. simpl in Eens.
    rewrite Hl in Eens. injection Eens as <- <-.
    destruct (represent_grows la _ _ _ _ Elast) as [Hext _].
    destruct (Hext _ _ Hold) as [a1 Hh3].
    destruct (mul_loop_appends _ _ _ _ _ _ _ _ _ _ _ (with_calls_ok rest)
                Hi2 Hl Hh3 Eloop) as (a2 & Hh4 & Hlen).
    rewrite fst_with_calls in Hlen.
    exists (a1 ++ a2). rewrite Hh4, <- app_assoc. split; [done|].
    rewrite length_app. lia.
Qed.


End ProductBookkeeping.

(** The two products of the docstring of [represent]: [represent(X*x)]
    is [x*DiracDelta(x - x_2)], the integral over [x_1] of the sandwich
    of [X] between the basis states at 2 and 1 times the overlap of the
    basis state at 1 with [x]; [represent(X*x*y)] is
    [x*DiracDelta(x - x_3)*DiracDelta(x_1 - y)], with the sandwich
    between the states at 3 and 2, integrated over [x_2], and the
    overlap of [y] with the state at 1. *)
Example represent_X_x :
  represent (EMul [Cartesian.X; Cartesian.x]) Cartesian.no_options []
  = Ok (Cartesian.SIntegral
          (Cartesian.SMul
             (Cartesian.SSandwich (Cartesian.bra_at "x_2") Cartesian.X_op
                                  (Cartesian.ket_at "x_1"))
             Cartesian.overlap_x1_x)
          "x_1" "-oo" "oo",
        [[1%Z]]).
Proof. vm_compute. reflexivity. Qed.

Example represent_X_x_y :
  represent (EMul [Cartesian.X; Cartesian.x; Cartesian.y]) Cartesian.no_options []
  = Ok (Cartesian.SIntegral
          (Cartesian.SMul
             (Cartesian.SSandwich (Cartesian.bra_at "x_3") Cartesian.X_op
                                  (Cartesian.ket_at "x_2"))
             (Cartesian.SMul
                (Cartesian.SOverlap (Cartesian.bra_at "x_2") (Cartesian.ket_at "x"))
                Cartesian.overlap_y_x1))
          "x_2" "-oo" "oo",
        [[2%Z]]).
Proof. vm_compute. reflexivity. Qed.


Section CopiedOptions.
Context {W : World}.

Lemma own_bumps_nonneg rest : ∀ last_arg, (0 ≤ own_bumps last_arg rest)%Z.
Proof.
  induction rest as [|arg rest IH]; intros la; simpl; [lia|].
  specialize (IH arg).
  destruct (expr_is_Operator la || expr_is_BraBase la && expr_is_KetBase arg); lia.
Qed.

Lemma product_bumps_nonneg args : (0 ≤ product_bumps args)%Z.
Proof.
  unfold product_bumps. destruct (reverse args); [lia|apply own_bumps_nonneg].
Qed.

(** C2 (amended). Every call gets its own copy of the options; only the
    list is one object for all of them.  An iteration of an enclosing
    product on a factor that is itself a product hands the nested call
    the options of the enclosing frame and the heap, and goes on with
    these same options and the heap the nested call left.  The nested
    call counts on its copy, entered one up and then incremented by its
    own loop, so above the counter of the enclosing frame; it appends to
    the very list the enclosing frame holds, which keeps what it had and
    gains at least the entries of the nested loop, and it leaves every
    other list alone. *)
Theorem options_copied_list_shared :
  (∀ inner rest last_arg res o h,
     mul_loop (with_calls (EMul inner :: rest)) last_arg res o h =
       ('(o1, h1) ← adjust_index last_arg (EMul inner) o h;
        '(v, on, hn) ← represent_product inner o1 h1;
        mul_loop (with_calls rest) (EMul inner) (vmul v res) o1 hn)) ∧
  (∀ inner o1 h1 v on hn i l old,
     o_index o1 = Some i → o_unities o1 = Some l → h1 !! l = Some old →
     represent_product inner o1 h1 = Ok (v, on, hn) →
     o_index on = Some (i + 1 + product_bumps inner)%Z ∧
     (i < i + 1 + product_bumps inner)%Z ∧
     o_unities on = Some l ∧
     (∃ app, hn !! l = Some (old ++ app) ∧ product_appends inner ≤ length app) ∧
     (∀ l', l' < length h1 → l' ≠ l → hn !! l' = h1 !! l')).
Proof.
  split.
  - intros inner rest la res o h.
    change (with_calls (EMul inner :: rest))
      with ((EMul inner, represent (EMul inner)) :: with_calls rest).
    rewrite mul_loop_cons.
    destruct (adjust_index la (EMul inner) o h) as [[o1 h1]|e]; [|done].
    cbv beta iota delta [mbind result_bind].
    rewrite represent_EMul. unfold forget_frame.
    by destruct (represent_product inner o1 h1) as [[[v on] hn]|e].
  - intros inner o1 h1 v on hn i l old Hi Hl Hold Hrun.
    destruct (represent_product_frame _ _ _ _ _ _ Hrun) as (Hidx & Hun & Happ).
    unfold entry_index in Hidx. rewrite Hi in Hidx.
    pose proof (product_bumps_nonneg inner).
    split; [done|]. split; [lia|]. split; [by apply Hun|].
    split; [by eapply Happ|].
    intros l' Hl' Hne.
    assert (represent (EMul inner) o1 h1 = Ok (v, hn)) as Hcall.
    { rewrite represent_EMul, Hrun. reflexivity. }
    destruct (represent_grows _ _ _ _ _ Hcall) as [_ Hframe].
    apply Hframe; [done|]. rewrite Hl. intros [= ->]. done.
Qed.

End CopiedOptions.

Lemma options_copied_list_shared_witness :
  ∃ v on hn,
    represent_product [Cartesian.X; Cartesian.x] Cartesian.in_product [[]]
    = Ok (v, on, hn) ∧
    o_index on = Some 2%Z ∧ o_unities on = Some 0 ∧
    ∃ app, hn !! 0 = Some app ∧ 1 ≤ length app.
Proof.
  destruct (represent_product [Cartesian.X; Cartesian.x] Cartesian.in_product [[]])
    as [[[v on] hn]|e] eqn:Hrun; [|vm_compute in Hrun; discriminate].
  exists v, on, hn. split; [reflexivity|].
  destruct (proj2 options_copied_list_shared
              [Cartesian.X; Cartesian.x] Cartesian.in_product [[]]
              v on hn 1%Z 0 [] eq_refl eq_refl eq_refl Hrun)
    as (Hidx & _ & Hun & Happ & _).
  split; [exact Hidx|]. split; [exact Hun|exact Happ].
Defined.

(** The counter is not shared: in the product of a ket, the product
    [X*x] and a bra, what the loop computes once the bra is represented
    is not what it would compute with the counter of the nested call. *)
Lemma counter_not_shared :
  mul_loop (with_calls [EMul [Cartesian.X; Cartesian.x]; Cartesian.x])
           Cartesian.y Cartesian.overlap_y_x1 Cartesian.in_product [[]]
  ≠ shared_counter_iteration [Cartesian.X; Cartesian.x] [Cartesian.x]
      Cartesian.y Cartesian.overlap_y_x1 Cartesian.in_product [[]].
Proof. vm_compute. discriminate. Qed.

(** ** get_basis on a specifier that is neither a state nor a class *)

(** C3. [get_basis] does raise: asked for the basis of the ket [x] with
    the operator instance [X] as specifier, or with a plain value, it
    reaches [issubclass] with a first argument that is not a class.  The
    branch written for operator instances is not reached. *)
Theorem get_basis_operator_instance_raises :
  get_basis Cartesian.x
    (set_basis (Some (PyInst Cartesian.X_op)) Cartesian.no_options)
  = Raise (TypeError "issubclass() arg 1 must be a class") ∧
  get_basis Cartesian.x (set_basis (Some (PyValue "5")) Cartesian.no_options)
  = Raise (TypeError "issubclass() arg 1 must be a class").
Proof. split; reflexivity. Qed.

(** ** Concrete instances of the leaf properties *)

Lemma rep_innerproduct_default_basis_witness :
  rep_innerproduct Cartesian.x Cartesian.no_options
  = rep_innerproduct Cartesian.x
      (set_basis (Some (PyInst (Cartesian.ket_at "x"))) Cartesian.no_options).
Proof.
  exact (proj1 (rep_innerproduct_default_basis
                  (Cartesian.ket_at "x") Cartesian.no_options eq_refl eq_refl)).
Defined.

(** The default basis of a ket is not the default instance of its dual
    class, as the specification has it. *)
Lemma default_basis_not_dual_for_ket :
  is_KetBase (Cartesian.ket_at "x") = true ∧
  default_basis (Cartesian.ket_at "x") ≠ spec_default_basis (Cartesian.ket_at "x").
Proof. split; [reflexivity|]. vm_compute. discriminate. Qed.

Lemma integrate_result_infers_from_last_witness :
  integrate_result [Cartesian.X; Cartesian.x] Cartesian.overlap_x1_x
    Cartesian.in_product [[1%Z]]
  = Ok (Cartesian.SIntegral Cartesian.overlap_x1_x "x_1" "-oo" "oo").
Proof.
  refine (proj2 (proj2 (proj2 (proj2 (proj2
            (integrate_result_infers_from_last
               [Cartesian.X; Cartesian.x] Cartesian.x Cartesian.overlap_x1_x
               Cartesian.in_product [[1%Z]] eq_refl eq_refl)))))
            (Cartesian.ket_at "x") Cartesian.XKet "x" [] 1%Z Cartesian.XOp
            eq_refl _ eq_refl eq_refl eq_refl eq_refl eq_refl).
  left. split; reflexivity.
Defined.

Lemma represent_leaf_fallback_witness :
  represent Cartesian.x
    (set_basis (Some (PyInst Cartesian.X_op)) Cartesian.no_options) []
  = Raise (TypeError "issubclass() arg 1 must be a class").
Proof.
  refine (proj1 (represent_leaf_fallback
                   {| qclass := Cartesian.XKet; qlabel := ["x"] |}
                   (set_basis (Some (PyInst Cartesian.X_op)) Cartesian.no_options)
                   [] "XKet has no rule for this basis" eq_refl) _).
  left. exists Cartesian.X_op. split; reflexivity.
Defined.

(** ** collapse_deltas *)

Section CollapseProperties.
Context {A : SymAlgebra}.

Lemma collapse_args_untouched label args : ∀ new_expr,
  Forall (λ arg, delta_coord label arg = Ok None) args →
  collapse_args label args new_expr = Ok new_expr.
Proof.
  induction args as [|arg args IH]; intros new_expr Hno; [done|].
  apply Forall_cons in Hno as [Harg Hargs]. simpl. rewrite Harg. simpl.
  by apply IH.
Qed.

Lemma collapse_labels_untouched labels args : ∀ new_expr,
  Forall (λ label, Forall (λ arg, delta_coord label arg = Ok None) args) labels →
  collapse_labels labels args new_expr = Ok new_expr.
Proof.
  induction labels as [|label labels IH]; intros new_expr Hno; [done|].
  apply Forall_cons in Hno as [Hlabel Hlabels]. simpl.
  rewrite collapse_args_untouched by done. simpl. by apply IH.
Qed.

Lemma filter_all {B} (P : B → Prop) `{∀ x, Decision (P x)} (l : list B) :
  Forall P l → filter P l = l.
Proof.
  induction 1 as [|x l Hx Hl IH]; [done|].
  rewrite filter_cons_True by done. by rewrite IH.
Qed.

Lemma unresolved_labels_basis basis unities labels :
  unresolved_labels basis unities = Ok labels → basis ≠ PyNone.
Proof. intros Hlab ->. discriminate. Qed.

(** C10. An expression that is not a product is returned as it is,
    whatever the options hold, and nothing is raised; the failure for a
    missing basis is raised on products only (and on every product
    whose options carry no basis). *)
Theorem collapse_deltas_not_a_product (expr : Sym) (o : Options) (h : Heap) :
  (sym_is_Mul expr = false → collapse_deltas expr o h = Ok expr) ∧
  (collapse_deltas expr o h
   = Raise (NotImplementedError "Could not get basis set for operator") →
   sym_is_Mul expr = true) ∧
  (sym_is_Mul expr = true → pop_basis o = PyNone →
   collapse_deltas expr o h
   = Raise (NotImplementedError "Could not get basis set for operator")).
Proof.
  unfold collapse_deltas. split; [|split].
  - by intros ->.
  - destruct (sym_is_Mul expr); [done|]. simpl. discriminate.
  - by intros -> ->.
Qed.

End CollapseProperties.

Lemma collapse_deltas_not_a_product_witness :
  @collapse_deltas Terms.algebra (Terms.sym "y") Cartesian.no_options [] = Ok (Terms.sym "y").
Proof.
  exact (proj1 (@collapse_deltas_not_a_product Terms.algebra
                  (Terms.sym "y") Cartesian.no_options []) eq_refl).
Defined.

(** ** collapse_deltas applied twice *)

Section CleanCollapse.
Context {A : SymAlgebra}.
Variable occurs : string → Sym → bool.
Hypothesis laws : SymLaws occurs.
Variable names : list string.

(** No unresolved label occurs in [e]. *)
Let label_free (e : Sym) : Prop := Forall (λ s, occurs s e = false) names.

Lemma collapse_args_absent s args : ∀ e e',
  s ∈ names →
  Forall (λ arg, ∀ c, delta_coord (sym_symbol s) arg = Ok (Some c) → label_free c)
         args →
  collapse_args (sym_symbol s) args e = Ok e' →
  (∀ s', s' ∈ names → occurs s' e = false → occurs s' e' = false) ∧
  (Exists (λ arg, ∃ c, delta_coord (sym_symbol s) arg = Ok (Some c)) args →
   occurs s e' = false).
Proof.
  intros e e' Hs. revert e.
  induction args as [|arg args IH]; intros e Hfree Hrun.
  - simpl in Hrun. injection Hrun as <-. split; [done|]. intros Hex. inversion Hex.
  - apply Forall_cons in Hfree as [Harg Hargs]. simpl in Hrun.
    destruct (delta_coord (sym_symbol s) arg) as [co|err] eqn:Eco; [|done].
    simpl in Hrun. destruct (IH _ Hargs Hrun) as [Hkeep Hgone].
    destruct co as [c|].
    + pose proof (Harg c eq_refl) as Hc.
      assert (∀ s', s' ∈ names → occurs s' c = false) as Hc'.
      { intros s' Hs'. exact (proj1 (Forall_forall _ _) Hc s' Hs'). }
      split.
      * intros s' Hs' Habs. apply Hkeep; [done|].
        apply (subs_occurs _ laws); [by apply Hc' | by right].
      * intros _. apply Hkeep; [done|].
        apply (subs_occurs _ laws); [by apply Hc' | by left].
    + split; [exact Hkeep|]. intros [(c & Hc) | Hex]%Exists_cons; [congruence|].
      by apply Hgone.
Qed.

Lemma collapse_labels_absent ns args : ∀ e e',
  ns ⊆ names →
  Forall (λ s, Forall (λ arg, ∀ c, delta_coord (sym_symbol s) arg = Ok (Some c) →
                              label_free c) args) ns →
  collapse_labels (map sym_symbol ns) args e = Ok e' →
  (∀ s', s' ∈ names → occurs s' e = false → occurs s' e' = false) ∧
  (∀ s, s ∈ ns →
     Exists (λ arg, ∃ c, delta_coord (sym_symbol s) arg = Ok (Some c)) args →
     occurs s e' = false).
Proof.
  induction ns as [|s ns IH]; intros e e' Hsub Hfree Hrun.
  - simpl in Hrun. injection Hrun as <-. split; [done|].
    by intros s ?%elem_of_nil.
  - apply Forall_cons in Hfree as [Hs Hns]. simpl in Hrun.
    destruct (collapse_args (sym_symbol s) args e) as [e1|err] eqn:Eargs; [|done].
    simpl in Hrun.
    assert (s ∈ names) as Hin by (apply Hsub; left).
    assert (ns ⊆ names) as Hsub' by (intros x Hx; apply Hsub; by right).
    destruct (collapse_args_absent s args e e1 Hin Hs Eargs) as [Hkeep1 Hgone1].
    destruct (IH e1 e' Hsub' Hns Hrun) as [Hkeep2 Hgone2].
    split.
    + intros s' Hs' Habs. by apply Hkeep2, Hkeep1.
    + intros s0 [-> | Hs0]%elem_of_cons Hex.
      * apply Hkeep2; [done|]. by apply Hgone1.
      * by apply Hgone2.
Qed.

(** A factor without the unresolved labels gives none of them a
    coordinate. *)
Lemma delta_coord_label_free s arg :
  s ∈ names → label_free arg → delta_coord (sym_symbol s) arg = Ok None.
Proof.
  intros Hs Hfree. unfold delta_coord.
  destruct (sym_is_DiracDelta arg) eqn:Edelta; [|done].
  destruct (sym_args arg) as [|arg0 rest] eqn:Eargs.
  { by destruct (delta_args _ laws arg Edelta). }
  assert (occurs s arg = false) as Harg
    by exact (proj1 (Forall_forall _ _) Hfree s Hs).
  assert (occurs s arg0 = false) as Harg0.
  { apply (args_occurs _ laws s arg); [done|]. rewrite Eargs. left. }
  assert (∀ x, (∀ a, sym_eqb a x = true → occurs s a = true) →
               sym_in x (sym_args arg0) = false) as Hnot.
  { intros x Hx. unfold sym_in. apply not_true_is_false. intros Hex.
    apply existsb_exists in Hex as (a & Ha & Heq).
    apply list_elem_of_In in Ha.
    specialize (Hx a Heq).
    rewrite (args_occurs _ laws s arg0 a Harg0 Ha) in Hx. discriminate. }
  rewrite (Hnot _ (eq_occurs _ laws s)), (Hnot _ (neg_occurs _ laws s)).
  reflexivity.
Qed.

(** C8 (amended). [collapse_deltas] is idempotent on the products it
    collapses cleanly.  Take a product in which every coordinate that a
    delta factor gives for an unresolved label is free of the unresolved
    labels, and every unresolved label that occurs is given a
    coordinate by some delta factor.  Then the first application leaves
    no unresolved label in its result, and a second application, with
    the same list and basis, substitutes nothing: it returns the first
    result rebuilt by [Mul] from its factors other than infinity, which
    is the first result itself whenever [Mul] rebuilds it so.  What is
    not a product is returned as it is both times. *)
Theorem collapse_deltas_twice
    (expr r : Sym) (o : Options) (h : Heap) :
  collapse_deltas expr o h = Ok r →
  sym_is_Mul expr = false ∨
  (unresolved_labels (pop_basis o) (default [] (unities_of o h))
   = Ok (map sym_symbol names) ∧
   Forall (λ s, Forall (λ arg, ∀ c, delta_coord (sym_symbol s) arg = Ok (Some c) →
                               Forall (λ s', occurs s' c = false) names)
                       (sym_args expr)) names ∧
   Forall (λ s, occurs s expr = false ∨
                Exists (λ arg, ∃ c, delta_coord (sym_symbol s) arg = Ok (Some c))
                       (sym_args expr)) names) →
  (sym_is_Mul expr = true → Forall (λ s, occurs s r = false) names) ∧
  collapse_deltas r o h
  = Ok (if sym_is_Mul r
        then sym_Mul (filter (λ arg, sym_eqb arg sym_oo = false) (sym_args r))
        else r) ∧
  ((sym_is_Mul r = true →
    sym_Mul (filter (λ arg, sym_eqb arg sym_oo = false) (sym_args r)) = r) →
   collapse_deltas r o h = Ok r).
Proof.
  intros Hrun Hclass.
  assert ((sym_is_Mul expr = true → Forall (λ s, occurs s r = false) names) ∧
          collapse_deltas r o h
          = Ok (if sym_is_Mul r
                then sym_Mul (filter (λ arg, sym_eqb arg sym_oo = false) (sym_args r))
                else r)) as [Hfree_r Htwice].
  { destruct Hclass as [Hnot | (Hlabels & Hclean & Hall)].
    - unfold collapse_deltas in Hrun. rewrite Hnot in Hrun. simpl in Hrun.
      injection Hrun as <-. split; [by rewrite Hnot|].
      unfold collapse_deltas. by rewrite Hnot.
    - pose proof (unresolved_labels_basis _ _ _ Hlabels) as Hbasis.
      destruct (sym_is_Mul expr) eqn:Hmul.
      2:{ unfold collapse_deltas in Hrun. rewrite Hmul in Hrun. simpl in Hrun.
          injection Hrun as <-. split; [done|].
          unfold collapse_deltas. by rewrite Hmul. }
      assert (∃ new_expr,
                collapse_labels (map sym_symbol names) (sym_args expr) expr
                = Ok new_expr ∧
                r = sym_Mul (filter (λ arg, sym_eqb arg sym_oo = false)
                                    (sym_args new_expr))) as (new_expr & Hnew & Hr).
      { unfold collapse_deltas in Hrun. rewrite Hmul in Hrun. simpl in Hrun.
        destruct (pop_basis o); try done; rewrite Hlabels in Hrun; simpl in Hrun;
          (destruct (collapse_labels (map sym_symbol names) (sym_args expr) expr)
             as [ne|err]; [|done]); simpl in Hrun; injection Hrun as <-;
          by exists ne. }
      destruct (collapse_labels_absent names (sym_args expr) expr new_expr
                  ltac:(done) Hclean Hnew) as [Hkeep Hgone].
      assert (label_free new_expr) as Hfree.
      { apply Forall_forall. intros s Hs.
        destruct (proj1 (Forall_forall _ _) Hall s Hs) as [Habs | Hex].
        - by apply Hkeep.
        - by apply Hgone. }
      assert (label_free r) as Hfree_r.
      { apply Forall_forall. intros s Hs. rewrite Hr.
        apply (Mul_occurs _ laws). apply Forall_forall. intros a Ha.
        apply list_elem_of_filter in Ha as [_ Ha].
        apply (args_occurs _ laws s new_expr); [|done].
        exact (proj1 (Forall_forall _ _) Hfree s Hs). }
      split; [by intros _|].
      unfold collapse_deltas. destruct (sym_is_Mul r) eqn:Hmul_r; [|done]. simpl.
      assert (collapse_labels (map sym_symbol names) (sym_args r) r = Ok r) as Hquiet.
      { apply collapse_labels_untouched. apply Forall_forall.
        intros label Hlabel.
        apply list_elem_of_In, in_map_iff in Hlabel as (s & <- & Hs%list_elem_of_In).
        apply Forall_forall. intros arg Harg.
        apply delta_coord_label_free; [done|].
        apply Forall_forall. intros s' Hs'.
        apply (args_occurs _ laws s' r); [|done].
        exact (proj1 (Forall_forall _ _) Hfree_r s' Hs'). }
      destruct (pop_basis o); try done; rewrite Hlabels; simpl;
        by rewrite Hquiet. }
  split; [exact Hfree_r|]. split; [exact Htwice|].
  intros Hrebuild. rewrite Htwice.
  destruct (sym_is_Mul r); [|done]. by rewrite (Hrebuild eq_refl).
Qed.

End CleanCollapse.

(** The algebra of unevaluated terms satisfies the laws. *)
Lemma term_occurs_list s l :
  Terms.term_occurs s (Terms.TAdd l) = existsb (Terms.term_occurs s) l ∧
  Terms.term_occurs s (Terms.TMul l) = existsb (Terms.term_occurs s) l.
Proof.
  split; induction l as [|t l IH]; simpl; try reflexivity;
    f_equal; exact IH.
Qed.

Lemma term_eqb_symbol a s :
  Terms.term_eqb a (Terms.TSymbol s) = true → a = Terms.TSymbol s.
Proof.
  destruct a; simpl; try discriminate.
  intros Heq. apply bool_decide_eq_true in Heq. by subst.
Qed.

Lemma existsb_false {B} (f : B → bool) (l : list B) :
  existsb f l = false ↔ Forall (λ x, f x = false) l.
Proof.
  induction l as [|x l IH]; simpl.
  - split; [constructor | done].
  - rewrite orb_false_iff, IH. split.
    + intros [Hx Hl]. by constructor.
    + by intros [Hx Hl]%Forall_cons.
Qed.

Lemma term_subs_occurs s s' e c :
  Terms.term_occurs s' c = false → s' = s ∨ Terms.term_occurs s' e = false →
  Terms.term_occurs s' (Terms.term_subs e (Terms.TSymbol s) c) = false.
Proof.
  intros Hc. induction e as [n|z| |args IH|args IH|arg IH] using Term_ind;
    intros Hor.
  - simpl. destruct (bool_decide (n = s)) eqn:En; [done|].
    simpl. apply bool_decide_eq_false in En. apply bool_decide_eq_false.
    destruct Hor as [-> | Hn]; [done|]. simpl in Hn.
    by apply bool_decide_eq_false in Hn.
  - done.
  - done.
  - change (Terms.term_subs (Terms.TAdd args) (Terms.TSymbol s) c)
      with (Terms.TAdd (map (λ a, Terms.term_subs a (Terms.TSymbol s) c) args)).
    rewrite (proj1 (term_occurs_list _ _)). apply existsb_false.
    apply Forall_forall. intros x Hx.
    apply list_elem_of_In, in_map_iff in Hx as (a & <- & Ha%list_elem_of_In).
    apply (proj1 (Forall_forall _ _) IH a Ha).
    destruct Hor as [-> | Hn]; [by left|right].
    rewrite (proj1 (term_occurs_list _ _)) in Hn.
    exact (proj1 (Forall_forall _ _) (proj1 (existsb_false _ _) Hn) a Ha).
  - change (Terms.term_subs (Terms.TMul args) (Terms.TSymbol s) c)
      with (Terms.TMul (map (λ a, Terms.term_subs a (Terms.TSymbol s) c) args)).
    rewrite (proj2 (term_occurs_list _ _)). apply existsb_false.
    apply Forall_forall. intros x Hx.
    apply list_elem_of_In, in_map_iff in Hx as (a & <- & Ha%list_elem_of_In).
    apply (proj1 (Forall_forall _ _) IH a Ha).
    destruct Hor as [-> | Hn]; [by left|right].
    rewrite (proj2 (term_occurs_list _ _)) in Hn.
    exact (proj1 (Forall_forall _ _) (proj1 (existsb_false _ _) Hn) a Ha).
  - change (Terms.term_subs (Terms.TDiracDelta arg) (Terms.TSymbol s) c)
      with (Terms.TDiracDelta (Terms.term_subs arg (Terms.TSymbol s) c)).
    simpl. apply IH. destruct Hor as [-> | Hn]; [by left | by right].
Qed.

Lemma term_laws : @SymLaws Terms.algebra Terms.term_occurs.
Proof.
  split.
  - intros s s' e c. apply term_subs_occurs.
  - intros s e a Habs Ha. destruct e as [| | |args|args|arg]; simpl in Ha;
      try (by apply elem_of_nil in Ha).
    + rewrite (proj1 (term_occurs_list _ _)) in Habs.
      exact (proj1 (Forall_forall _ _) (proj1 (existsb_false _ _) Habs) a Ha).
    + rewrite (proj2 (term_occurs_list _ _)) in Habs.
      exact (proj1 (Forall_forall _ _) (proj1 (existsb_false _ _) Habs) a Ha).
    + apply list_elem_of_singleton in Ha as ->. exact Habs.
  - intros s a Heq. simpl in Heq. apply term_eqb_symbol in Heq as ->.
    simpl. by apply bool_decide_eq_true.
  - intros s a Heq. simpl in Heq.
    destruct a as [| | | |[|t1 [|t2 [|t3 l]]]|]; simpl in Heq; try discriminate.
    + apply andb_true_iff in Heq as [_ Heq]. discriminate.
    + apply andb_true_iff in Heq as [_ Heq].
      apply andb_true_iff in Heq as [Heq _].
      apply term_eqb_symbol in Heq as ->.
      rewrite (proj2 (term_occurs_list _ _)). simpl.
      rewrite bool_decide_eq_true_2 by done. by rewrite orb_true_r.
    + apply andb_true_iff in Heq as [_ Heq].
      try (apply andb_true_iff in Heq as [_ Heq]). discriminate.
  - intros s l Hl. simpl. destruct l as [|t [|t' l]]; simpl.
    + done.
    + by apply Forall_cons in Hl as [Ht _].
    + change (Terms.term_occurs s (Terms.TMul (t :: t' :: l)) = false).
      rewrite (proj2 (term_occurs_list _ _)). by apply existsb_false.
  - intros a Ha. destruct a; simpl in *; done.
Qed.

Lemma collapse_deltas_twice_witness :
  ∃ r, @collapse_deltas Terms.algebra Terms.one_delta Terms.x_basis [[1%Z]] = Ok r ∧
       @collapse_deltas Terms.algebra r Terms.x_basis [[1%Z]] = Ok r.
Proof.
  destruct (@collapse_deltas Terms.algebra Terms.one_delta Terms.x_basis [[1%Z]])
    as [r|e] eqn:Hrun; [|vm_compute in Hrun; discriminate].
  exists r. split; [reflexivity|].
  refine (proj2 (proj2 (@collapse_deltas_twice Terms.algebra Terms.term_occurs term_laws
                          ["x_1"] Terms.one_delta r Terms.x_basis [[1%Z]] Hrun _))
            _).
  - right. split; [reflexivity|]. split.
    + repeat (apply List.Forall_cons || apply List.Forall_nil);
        intros c Hc; vm_compute in Hc; try discriminate.
      injection Hc as <-.
      repeat (apply List.Forall_cons || apply List.Forall_nil); reflexivity.
    + apply List.Forall_cons; [|apply List.Forall_nil]. right.
      apply List.Exists_cons_tl, List.Exists_cons_hd. eexists. reflexivity.
  - vm_compute in Hrun. injection Hrun as <-. reflexivity.
Defined.

(** [collapse_deltas] is not idempotent: on
    [y*DiracDelta(x_1 + a)*DiracDelta(x_1 + x_2)], with the unresolved
    indices 1 and 2 of the basis [x], the first application brings the
    label [x_1] back (for [x_2]), and the second replaces it again. *)
Lemma collapse_deltas_not_idempotent :
  ∃ r1 r2,
    @collapse_deltas Terms.algebra Terms.two_deltas Terms.x_basis [[1%Z; 2%Z]] = Ok r1 ∧
    @collapse_deltas Terms.algebra r1 Terms.x_basis [[1%Z; 2%Z]] = Ok r2 ∧
    r1 ≠ r2.
Proof.
  eexists _, _. split; [vm_compute; reflexivity|].
  split; [vm_compute; reflexivity|]. discriminate.
Qed.

(** ** Calls do not depend on where the list lives *)

Section Alike.
Context {W : World}.

Lemma alike_options o h o' h' :
  alike o h o' h' → o' = set_unities (o_unities o') o.
Proof.
  intros [Heq _]. destruct o, o'. unfold set_unities in *. simpl in *.
  by injection Heq as -> -> -> ->.
Qed.

Lemma alike_fields o h o' h' :
  alike o h o' h' →
  o_format o = o_format o' ∧ o_basis o = o_basis o' ∧ o_index o = o_index o' ∧
  o_extra o = o_extra o'.
Proof. intros Hal. rewrite (alike_options _ _ _ _ Hal). done. Qed.

Lemma alike_unities_of o h o' h' :
  alike o h o' h' → unities_of o h = unities_of o' h'.
Proof.
  intros [_ Hlist]. unfold same_list in Hlist. unfold unities_of.
  destruct (o_unities o) as [l|], (o_unities o') as [l'|]; try done.
  destruct Hlist as (c & -> & ->). done.
Qed.

Lemma alike_view o h o' h' : alike o h o' h' → view o h = view o' h'.
Proof.
  intros Hal. destruct (alike_fields _ _ _ _ Hal) as (Hf & Hb & Hi & He).
  unfold view. by rewrite Hf, Hb, Hi, He, (alike_unities_of _ _ _ _ Hal).
Qed.

Lemma integrate_result_depends orig_args res o h o' h' :
  o_basis o = o_basis o' → unities_of o h = unities_of o' h' →
  integrate_result orig_args res o h = integrate_result orig_args res o' h'.
Proof.
  intros Hb Hu. unfold integrate_result.
  destruct (negb (is_Expr res)); [done|]. rewrite <- Hb.
  destruct (o_basis o) as [b|] eqn:Eb.
  - cbv beta iota delta [mbind result_bind]. unfold pop_basis.
    rewrite <- Hb, Eb, Hu. reflexivity.
  - destruct (last orig_args) as [arg|]; [|done].
    cbv beta iota delta [mbind result_bind]. unfold pop_basis.
    change (unities_of (set_basis (infer_basis arg) o) h) with (unities_of o h).
    change (unities_of (set_basis (infer_basis arg) o') h') with (unities_of o' h').
    rewrite Hu. reflexivity.
Qed.

Lemma alike_set_index o h o' h' i :
  alike o h o' h' → alike (set_index i o) h (set_index i o') h'.
Proof.
  intros Hal. rewrite (alike_options _ _ _ _ Hal). destruct Hal as [_ Hlist].
  split; [done|]. exact Hlist.
Qed.

Lemma alike_append o h o' h' l l' i :
  alike o h o' h' → o_unities o = Some l → o_unities o' = Some l' →
  alike o (alter (λ u, u ++ [i]) l h) o' (alter (λ u, u ++ [i]) l' h').
Proof.
  intros [Heq Hlist] Hl Hl'. split; [done|]. unfold same_list in *.
  rewrite Hl, Hl' in *. destruct Hlist as (c & Hc & Hc'). exists (c ++ [i]).
  by rewrite !list_lookup_alter_eq, Hc, Hc'.
Qed.

Lemma alike_unities_agree o h o' h' :
  alike o h o' h' →
  (o_unities o = None ∧ o_unities o' = None) ∨
  (∃ l l', o_unities o = Some l ∧ o_unities o' = Some l').
Proof.
  intros [_ Hlist]. unfold same_list in Hlist.
  destruct (o_unities o) as [l|], (o_unities o') as [l'|]; try done.
  - right. by exists l, l'.
  - by left.
Qed.

Lemma incr_index_alike o h o' h' :
  alike o h o' h' →
  match incr_index o, incr_index o' with
  | Ok o1, Ok o1' =>
      alike o1 h o1' h' ∧ o_unities o1 = o_unities o ∧ o_unities o1' = o_unities o'
  | Raise e, Raise e' => e = e'
  | _, _ => False
  end.
Proof.
  intros Hal. destruct (alike_fields _ _ _ _ Hal) as (_ & _ & Hi & _).
  unfold incr_index. rewrite <- Hi. destruct (o_index o); [|done].
  split; [by apply alike_set_index|done].
Qed.

Lemma append_index_alike o h o' h' :
  alike o h o' h' →
  match append_index o h, append_index o' h' with
  | Ok h1, Ok h1' => alike o h1 o' h1'
  | Raise e, Raise e' => e = e'
  | _, _ => False
  end.
Proof.
  intros Hal. destruct (alike_fields _ _ _ _ Hal) as (_ & _ & Hi & _).
  unfold append_index. rewrite <- Hi.
  destruct (alike_unities_agree _ _ _ _ Hal) as [[-> ->] | (l & l' & Hl & Hl')];
    [done|].
  rewrite Hl, Hl'. destruct (o_index o); [|done]. by apply alike_append.
Qed.

Lemma adjust_index_alike last_arg arg o h o' h' :
  alike o h o' h' →
  match adjust_index last_arg arg o h, adjust_index last_arg arg o' h' with
  | Ok (o1, h1), Ok (o1', h1') =>
      alike o1 h1 o1' h1' ∧ o_unities o1 = o_unities o ∧ o_unities o1' = o_unities o'
  | Raise e, Raise e' => e = e'
  | _, _ => False
  end.
Proof.
  intros Hal. unfold adjust_index.
  destruct (expr_is_Operator last_arg).
  - pose proof (incr_index_alike _ _ _ _ Hal) as Hincr.
    destruct (incr_index o) as [o1|e], (incr_index o') as [o1'|e']; try done.
    destruct Hincr as (Hal1 & Hu & Hu'). simpl.
    pose proof (append_index_alike _ _ _ _ Hal1) as Happ.
    by destruct (append_index o1 h) as [h1|e], (append_index o1' h') as [h1'|e'].
  - destruct (expr_is_BraBase last_arg && expr_is_KetBase arg).
    + pose proof (incr_index_alike _ _ _ _ Hal) as Hincr.
      by destruct (incr_index o) as [o1|e], (incr_index o') as [o1'|e'].
    + destruct (expr_is_KetBase last_arg && expr_is_Operator arg); [|done].
      pose proof (append_index_alike _ _ _ _ Hal) as Happ.
      by destruct (append_index o h) as [h1|e], (append_index o' h') as [h1'|e'].
Qed.


Lemma alike_heaps o h o' h' h1 h1' :
  alike o h o' h' → same_list o h1 o' h1' → alike o h1 o' h1'.
Proof. intros [Heq _] Hlist. by split. Qed.

Lemma same_list_unities o h o' h' o1 o1' :
  o_unities o1 = o_unities o → o_unities o1' = o_unities o' →
  same_list o1 h o1' h' → same_list o h o' h'.
Proof. unfold same_list. by intros -> ->. Qed.

Lemma represent_QExpr_alike q o h o' h' :
  alike o h o' h' → represent_QExpr q o h = represent_QExpr q o' h'.
Proof.
  intros Hal. unfold represent_QExpr.
  rewrite (alike_view _ _ _ _ Hal), (alike_options _ _ _ _ Hal). reflexivity.
Qed.

Lemma add_loop_alike rest : ∀ o res h o' h',
  Forall rep_alike rest → alike o h o' h' →
  same_outcome o o' (add_loop rest o res h) (add_loop rest o' res h').
Proof.
  induction rest as [|r rest IH]; intros o res h o' h' Hok Hal; simpl.
  - split; [done|apply Hal].
  - apply Forall_cons in Hok as [Hr Hrest]. specialize (Hr _ _ _ _ Hal).
    unfold same_outcome in Hr.
    destruct (r o h) as [[v h1]|e], (r o' h') as [[v' h1']|e']; try done.
    destruct Hr as [<- Hlist]. simpl. apply IH; [done|].
    by eapply alike_heaps.
Qed.

Lemma represent_all_alike reps : ∀ o h o' h',
  Forall rep_alike reps → alike o h o' h' →
  same_outcome o o' (represent_all reps o h) (represent_all reps o' h').
Proof.
  induction reps as [|r reps IH]; intros o h o' h' Hok Hal; simpl.
  - split; [done|apply Hal].
  - apply Forall_cons in Hok as [Hr Hrest]. specialize (Hr _ _ _ _ Hal).
    unfold same_outcome in Hr.
    destruct (r o h) as [[v h1]|e], (r o' h') as [[v' h1']|e']; try done.
    destruct Hr as [<- Hlist]. simpl.
    specialize (IH o h1 o' h1' Hrest (alike_heaps _ _ _ _ _ _ Hal Hlist)).
    unfold same_outcome in IH.
    destruct (represent_all reps o h1) as [[vs h2]|e],
             (represent_all reps o' h1') as [[vs' h2']|e']; try done.
    destruct IH as [<- Hlist2]. simpl. by split.
Qed.

Lemma mul_loop_alike rest : ∀ last_arg res o h o' h',
  Forall (λ f, rep_alike f.2) rest → alike o h o' h' →
  match mul_loop rest last_arg res o h, mul_loop rest last_arg res o' h' with
  | Ok (v, o1, h1), Ok (v', o1', h1') =>
      v = v' ∧ alike o1 h1 o1' h1' ∧
      o_unities o1 = o_unities o ∧ o_unities o1' = o_unities o'
  | Raise e, Raise e' => e = e'
  | _, _ => False
  end.
Proof.
  induction rest as [|[arg rep_arg] rest IH]; intros la res o h o' h' Hok Hal.
  - simpl. done.
  - apply Forall_cons in Hok as [Hr Hrest]. simpl in Hr.
    rewrite !mul_loop_cons.
    pose proof (adjust_index_alike la arg _ _ _ _ Hal) as Hadj.
    destruct (adjust_index la arg o h) as [[o1 h1]|e],
             (adjust_index la arg o' h') as [[o1' h1']|e']; try done.
    destruct Hadj as (Hal1 & Hu1 & Hu1'). simpl.
    specialize (Hr _ _ _ _ Hal1). unfold same_outcome in Hr.
    destruct (rep_arg o1 h1) as [[v h2]|e], (rep_arg o1' h1') as [[v' h2']|e'];
      try done.
    destruct Hr as [<- Hlist]. simpl.
    specialize (IH arg (vmul v res) o1 h2 o1' h2' Hrest
                  (alike_heaps _ _ _ _ _ _ Hal1 Hlist)).
    destruct (mul_loop rest arg (vmul v res) o1 h2) as [[[w o2] h3]|e],
             (mul_loop rest arg (vmul v res) o1' h2') as [[[w' o2'] h3']|e'];
      try done.
    destruct IH as (-> & Hal2 & Hu2 & Hu2').
    by rewrite Hu2, Hu2', Hu1, Hu1'.
Qed.

Lemma ensure_unities_alike o h o' h' :
  alike o h o' h' →
  alike (ensure_unities o h).1 (ensure_unities o h).2
        (ensure_unities o' h').1 (ensure_unities o' h').2.
Proof.
  intros Hal. unfold ensure_unities.
  destruct (alike_unities_agree _ _ _ _ Hal) as [[Hn Hn'] | (l & l' & Hl & Hl')].
  - rewrite Hn, Hn'. simpl. rewrite (alike_options _ _ _ _ Hal). split; [done|].
    unfold same_list. simpl. exists [].
    split; by apply list_lookup_middle.
  - by rewrite Hl, Hl'.
Qed.

Lemma represent_Mul_alike factors o h o' h' :
  Forall (λ f, rep_alike f.2) factors → alike o h o' h' →
  match represent_Mul factors o h, represent_Mul factors o' h' with
  | Ok (v, _, h1), Ok (v', _, h1') => v = v' ∧ same_list o h1 o' h1'
  | Raise e, Raise e' => e = e'
  | _, _ => False
  end.
Proof.
  intros Hok Hal. unfold represent_Mul.
  assert (alike (enter_index o) h (enter_index o') h') as Hale.
  { unfold enter_index. destruct (alike_fields _ _ _ _ Hal) as (_ & _ & <- & _).
    by apply alike_set_index. }
  pose proof (ensure_unities_alike _ _ _ _ Hale) as Hal2.
  assert (∀ h1 h1',
            same_list (ensure_unities (enter_index o) h).1 h1
                      (ensure_unities (enter_index o') h').1 h1' →
            same_list o h1 o' h1') as Hback.
  { intros h1 h1'. unfold ensure_unities, same_list. simpl.
    destruct (alike_unities_agree _ _ _ _ Hal) as [[Hn Hn'] | (l & l' & Hl & Hl')].
    - rewrite Hn, Hn'. simpl. intros _. exact I.
    - rewrite Hl, Hl'. simpl. rewrite Hl, Hl'. intros Hc. exact Hc. }
  destruct (ensure_unities (enter_index o) h) as [o2 h2],
           (ensure_unities (enter_index o') h') as [o2' h2']. simpl in *.
  assert (Forall (λ f, rep_alike f.2) (reverse factors)) as Hrev.
  { apply Forall_forall. intros f Hf. rewrite elem_of_reverse in Hf.
    exact (proj1 (Forall_forall _ _) Hok f Hf). }
  destruct (reverse factors) as [|[la rep_last] rest]; [done|].
  apply Forall_cons in Hrev as [Hlast Hrest]. simpl in Hlast.
  specialize (Hlast _ _ _ _ Hal2). unfold same_outcome in Hlast.
  destruct (rep_last o2 h2) as [[res h3]|e], (rep_last o2' h2') as [[res' h3']|e'];
    try done.
  destruct Hlast as [<- Hlist3]. simpl.
  pose proof (mul_loop_alike rest la res o2 h3 o2' h3' Hrest
                (alike_heaps _ _ _ _ _ _ Hal2 Hlist3)) as Hloop.
  destruct (mul_loop rest la res o2 h3) as [[[w o3] h4]|e],
           (mul_loop rest la res o2' h3') as [[[w' o3'] h4']|e'];
    try done.
  destruct Hloop as (<- & Hal4 & Hu & Hu'). simpl.
  rewrite (integrate_result_depends (fst <$> factors) (flatten_scalar w)
             o3 h4 o3' h4');
    [|by destruct (alike_fields _ _ _ _ Hal4) as (_ & ? & _)
     |by apply alike_unities_of].
  destruct (integrate_result _ _ o3' h4') as [r|e]; simpl; [|done].
  split; [done|]. apply Hback. destruct Hal4 as [_ Hlist4].
  by eapply same_list_unities.
Qed.

(** The value of a call depends on the options and on the contents of
    the list, not on the rest of the heap. *)
Lemma represent_alike e : rep_alike (represent e).
Proof.
  induction e as [q|args IH|args IH|base exp IHb IHe|args IH|arg IH
                  |a b IHa IHb|a b IHa IHb|bra ket IHb IHk|a] using Expr_ind;
    intros o h o' h' Hal.
  - rewrite !represent_EQ, (represent_QExpr_alike q _ _ _ _ Hal).
    destruct (represent_QExpr q o' h'); simpl; [|done]. split; [done|apply Hal].
  - simpl. destruct args as [|a args]; [done|]. simpl.
    apply Forall_cons in IH as [Ha Hargs]. specialize (Ha _ _ _ _ Hal).
    unfold same_outcome in Ha.
    destruct (represent a o h) as [[v h1]|e], (represent a o' h') as [[v' h1']|e'];
      try done.
    destruct Ha as [<- Hlist]. simpl. apply add_loop_alike.
    + by apply Forall_fmap.
    + by eapply alike_heaps.
  - rewrite !represent_EMul. unfold represent_product, forget_frame.
    assert (Forall (λ f, rep_alike f.2) (with_calls args)) as Hok
      by (unfold with_calls; by apply Forall_fmap).
    pose proof (represent_Mul_alike (with_calls args) _ _ _ _ Hok Hal) as Hmul.
    destruct (represent_Mul (with_calls args) o h) as [[[v o1] h1]|e],
             (represent_Mul (with_calls args) o' h') as [[[v' o1'] h1']|e'];
      done.
  - simpl. destruct (alike_fields _ _ _ _ Hal) as (Hf & _).
    unfold get_format. rewrite <- Hf.
    destruct (if is_numeric_format (default "sympy" (o_format o))
              then _sympy_to_scalar exp ≫= λ s, Ok (ExpScalar s)
              else Ok (ExpExpr exp)) as [ex|e]; simpl; [|done].
    specialize (IHb _ _ _ _ Hal). unfold same_outcome in IHb.
    destruct (represent base o h) as [[v h1]|e], (represent base o' h') as [[v' h1']|e'];
      try done.
    destruct IHb as [<- Hlist]. simpl. by split.
  - simpl.
    assert (Forall rep_alike (map represent args)) as Hok
      by (by apply Forall_fmap).
    pose proof (represent_all_alike (map represent args) _ _ _ _ Hok Hal) as Hall.
    unfold same_outcome in Hall.
    destruct (represent_all (map represent args) o h) as [[vs h1]|e],
             (represent_all (map represent args) o' h') as [[vs' h1']|e'];
      try done.
    destruct Hall as [<- Hlist]. simpl. by split.
  - simpl. specialize (IH _ _ _ _ Hal). unfold same_outcome in IH.
    destruct (represent arg o h) as [[v h1]|e], (represent arg o' h') as [[v' h1']|e'];
      try done.
    destruct IH as [<- Hlist]. simpl. by split.
  - simpl. specialize (IHa _ _ _ _ Hal). unfold same_outcome in IHa.
    destruct (represent a o h) as [[v h1]|e], (represent a o' h') as [[v' h1']|e'];
      try done.
    destruct IHa as [<- Hlist]. simpl.
    specialize (IHb _ _ _ _ (alike_heaps _ _ _ _ _ _ Hal Hlist)).
    unfold same_outcome in IHb.
    destruct (represent b o h1) as [[w h2]|e], (represent b o' h1') as [[w' h2']|e'];
      try done.
    destruct IHb as [<- Hlist2]. simpl. by split.
  - simpl. specialize (IHa _ _ _ _ Hal). unfold same_outcome in IHa.
    destruct (represent a o h) as [[v h1]|e], (represent a o' h') as [[v' h1']|e'];
      try done.
    destruct IHa as [<- Hlist]. simpl.
    specialize (IHb _ _ _ _ (alike_heaps _ _ _ _ _ _ Hal Hlist)).
    unfold same_outcome in IHb.
    destruct (represent b o h1) as [[w h2]|e], (represent b o' h1') as [[w' h2']|e'];
      try done.
    destruct IHb as [<- Hlist2]. simpl. by split.
  - rewrite !represent_EInnerProduct, !represent_EMul.
    unfold represent_product, forget_frame.
    assert (Forall (λ f, rep_alike f.2) (with_calls [bra; ket])) as Hok.
    { unfold with_calls. simpl. repeat apply List.Forall_cons; done. }
    pose proof (represent_Mul_alike (with_calls [bra; ket]) _ _ _ _ Hok Hal) as Hmul.
    destruct (represent_Mul (with_calls [bra; ket]) o h) as [[[v o1] h1]|e],
             (represent_Mul (with_calls [bra; ket]) o' h') as [[[v' o1'] h1']|e'];
      done.
  - simpl. destruct (alike_fields _ _ _ _ Hal) as (Hf & _).
    unfold get_format. rewrite <- Hf.
    destruct (is_numeric_format (default "sympy" (o_format o))).
    + destruct a; simpl; try done; split; try done; apply Hal.
    + split; [done|apply Hal].
Qed.

End Alike.

(** ** represent on a sum *)

Section Sums.
Context {W : World}.

(** C6 (amended). The representation of a sum of two addends is the
    value-wise sum of the representations of the addends, taken one
    after the other: the first addend is represented, then the second
    on the same options and on the heap the first left, and the two
    values are added.  When the options carry no list, the addends do
    not see each other at all: the sum of the values they have when
    represented on their own is the value of the sum. *)
Theorem represent_Add (a b : Expr) (o : Options) (h : Heap) :
  represent (EAdd [a; b]) o h
  = ('(va, h1) ← represent a o h;
     '(vb, h2) ← represent b o h1;
     Ok (vadd va vb, h2)) ∧
  (o_unities o = None →
   ∀ va ha vb hb,
     represent a o h = Ok (va, ha) → represent b o h = Ok (vb, hb) →
     ∃ h', represent (EAdd [a; b]) o h = Ok (vadd va vb, h')).
Proof.
  assert (represent (EAdd [a; b]) o h
          = ('(va, h1) ← represent a o h;
             '(vb, h2) ← represent b o h1;
             Ok (vadd va vb, h2))) as Hseq.
  { simpl. destruct (represent a o h) as [[va h1]|e]; simpl; [|reflexivity].
    destruct (represent b o h1) as [[vb h2]|e]; reflexivity. }
  split; [exact Hseq|].
  intros Hnone va ha vb hb Ha Hb. rewrite Hseq, Ha. simpl.
  assert (alike o h o ha) as Hal.
  { split; [done|]. unfold same_list. by rewrite Hnone. }
  pose proof (represent_alike b o h o ha Hal) as Hsame.
  unfold same_outcome in Hsame. rewrite Hb in Hsame.
  destruct (represent b o ha) as [[vb' hb']|e]; [|done].
  destruct Hsame as [<- _]. simpl. by exists hb'.
Qed.

End Sums.

Lemma represent_Add_witness :
  ∃ va ha vb hb h',
    represent (EMul [Cartesian.X; Cartesian.x]) Cartesian.no_options []
    = Ok (va, ha) ∧
    represent (EMul [Cartesian.y; Cartesian.x]) Cartesian.no_options []
    = Ok (vb, hb) ∧
    represent (EAdd [EMul [Cartesian.X; Cartesian.x];
                     EMul [Cartesian.y; Cartesian.x]]) Cartesian.no_options []
    = Ok (Cartesian.SAdd va vb, h').
Proof.
  destruct (represent (EMul [Cartesian.X; Cartesian.x]) Cartesian.no_options [])
    as [[va ha]|e] eqn:Ha; [|vm_compute in Ha; discriminate].
  destruct (represent (EMul [Cartesian.y; Cartesian.x]) Cartesian.no_options [])
    as [[vb hb]|e] eqn:Hb; [|vm_compute in Hb; discriminate].
  destruct (proj2 (represent_Add (EMul [Cartesian.X; Cartesian.x])
                     (EMul [Cartesian.y; Cartesian.x]) Cartesian.no_options [])
              eq_refl va ha vb hb Ha Hb) as [h' Hsum].
  exists va, ha, vb, hb, h'. split; [reflexivity|]. split; [reflexivity|].
  exact Hsum.
Defined.

(** With a list in the options a sum is not the sum of the values of
    its addends: in a frame with index 1 and an empty list, the product
    of [y] and [x] represented on its own is not integrated, while as
    the second addend after the product of [X] and [x] it finds the
    entry 2 that one appended and is integrated over [x_2]. *)
Lemma represent_Add_not_addend_wise :
  ∃ va ha vb hb vs hs,
    represent (EMul [Cartesian.X; Cartesian.x]) Cartesian.in_product [[]]
    = Ok (va, ha) ∧
    represent (EMul [Cartesian.y; Cartesian.x]) Cartesian.in_product [[]]
    = Ok (vb, hb) ∧
    represent (EAdd [EMul [Cartesian.X; Cartesian.x];
                     EMul [Cartesian.y; Cartesian.x]]) Cartesian.in_product [[]]
    = Ok (vs, hs) ∧
    vs ≠ vadd va vb.
Proof.
  eexists _, _, _, _, _, _. split; [vm_compute; reflexivity|].
  split; [vm_compute; reflexivity|]. split; [vm_compute; reflexivity|].
  vm_compute. discriminate.
Qed.

(** * Further properties *)

(** ** What a call does to the lists *)

Section Effects.
Context {W : World}.

(** X1. A call of [represent] that returns has only appended to lists:
    every list keeps what it had, and of the lists that existed at the
    call only the one the options refer to can have gained entries.  So
    a call whose options carry no list changes nothing its caller can
    see. *)
Theorem represent_only_appends (e : Expr) (o : Options) (h h' : Heap) (v : Val) :
  represent e o h = Ok (v, h') →
  (∀ l old, h !! l = Some old → ∃ app, h' !! l = Some (old ++ app)) ∧
  (∀ l, l < length h → o_unities o ≠ Some l → h' !! l = h !! l) ∧
  (o_unities o = None → ∀ l, l < length h → h' !! l = h !! l).
Proof.
  intros Hrun. destruct (represent_grows e o h v h' Hrun) as [Hext Hframe].
  split; [exact Hext|]. split; [exact Hframe|].
  intros Hnone l Hl. apply Hframe; [done|]. by rewrite Hnone.
Qed.

(** X2. With no list in the options, what a call returns or raises does
    not depend on the heap it is run on: nothing of what earlier calls
    did is seen. *)
Theorem represent_without_list_ignores_heap
    (e : Expr) (o : Options) (h1 h2 : Heap) :
  o_unities o = None →
  (∀ v h1', represent e o h1 = Ok (v, h1') →
     ∃ h2', represent e o h2 = Ok (v, h2')) ∧
  (∀ err, represent e o h1 = Raise err → represent e o h2 = Raise err).
Proof.
  intros Hnone.
  assert (alike o h1 o h2) as Hal.
  { split; [done|]. unfold same_list. by rewrite Hnone. }
  pose proof (represent_alike e o h1 o h2 Hal) as Hsame.
  unfold same_outcome in Hsame. split.
  - intros v h1' Hrun. rewrite Hrun in Hsame.
    destruct (represent e o h2) as [[v' h2']|err]; [|done].
    destruct Hsame as [<- _]. by exists h2'.
  - intros err Hrun. rewrite Hrun in Hsame.
    destruct (represent e o h2) as [[v' h2']|err']; [done|]. by subst.
Qed.

End Effects.

Section FreshIndices.
Context {W : World}.

Lemma fresh_nil (f : Z) (old : list Z) (h : Heap) l :
  h !! l = Some old →
  ∃ app, h !! l = Some (old ++ app) ∧ Forall (λ k, (f < k)%Z) app.
Proof. intros Hl. exists []. by rewrite app_nil_r. Qed.

Lemma fresh_app (f : Z) (old a1 : list Z) (h : Heap) l :
  Forall (λ k, (f < k)%Z) a1 →
  (∃ app, h !! l = Some ((old ++ a1) ++ app) ∧ Forall (λ k, (f < k)%Z) app) →
  ∃ app, h !! l = Some (old ++ app) ∧ Forall (λ k, (f < k)%Z) app.
Proof.
  intros Ha1 (a2 & Hl & Ha2). exists (a1 ++ a2).
  rewrite Hl, <- app_assoc. split; [done|]. by apply Forall_app.
Qed.

Lemma fresh_weaken (f g : Z) (app : list Z) :
  (f ≤ g)%Z → Forall (λ k, (g < k)%Z) app → Forall (λ k, (f < k)%Z) app.
Proof. intros Hfg Hg. eapply Forall_impl; [exact Hg|]. intros k Hk. simpl in *. lia. Qed.

Lemma adjust_index_fresh last_arg arg o h o1 h1 j l old f :
  o_index o = Some j → (f < j)%Z → o_unities o = Some l → h !! l = Some old →
  adjust_index last_arg arg o h = Ok (o1, h1) →
  ∃ j1 a1, o_index o1 = Some j1 ∧ (j ≤ j1)%Z ∧ o_unities o1 = Some l ∧
           h1 !! l = Some (old ++ a1) ∧ Forall (λ k, (f < k)%Z) a1.
Proof.
  intros Hj Hf Hl Hold. rewrite (adjust_index_cases _ _ _ _ _ _ Hj Hl).
  destruct (expr_is_Operator last_arg).
  { intros [= <- <-]. exists (j + 1)%Z, [(j + 1)%Z]. simpl.
    rewrite list_lookup_alter_eq, Hold. repeat split; try done; try lia.
    apply Forall_singleton. lia. }
  destruct (expr_is_BraBase last_arg && expr_is_KetBase arg).
  { intros [= <- <-]. exists (j + 1)%Z, []. simpl.
    rewrite app_nil_r. repeat split; try done; lia. }
  destruct (expr_is_KetBase last_arg && expr_is_Operator arg).
  { intros [= <- <-]. exists j, [j].
    rewrite list_lookup_alter_eq, Hold. repeat split; try done.
    apply Forall_singleton. lia. }
  intros [= <- <-]. exists j, []. rewrite app_nil_r. by repeat split.
Qed.

Lemma add_loop_fresh rest : ∀ o res h v h' l old,
  Forall rep_fresh rest →
  o_unities o = Some l → h !! l = Some old →
  add_loop rest o res h = Ok (v, h') →
  ∃ app, h' !! l = Some (old ++ app) ∧ Forall (λ k, (entered_with o < k)%Z) app.
Proof.
  induction rest as [|r rest IH]; intros o res h v h' l old Hok Hl Hold Hrun;
    simpl in Hrun.
  - injection Hrun as <- <-. by apply fresh_nil.
  - apply Forall_cons in Hok as [Hr Hrest].
    destruct (r o h) as [[v1 h1]|e] eqn:Er; simpl in Hrun; [|done].
    destruct (Hr _ _ _ _ _ _ Er Hl Hold) as (a1 & Hh1 & Ha1).
    eapply fresh_app; [exact Ha1|]. by eapply IH.
Qed.

Lemma represent_all_fresh reps : ∀ o h vs h' l old,
  Forall rep_fresh reps →
  o_unities o = Some l → h !! l = Some old →
  represent_all reps o h = Ok (vs, h') →
  ∃ app, h' !! l = Some (old ++ app) ∧ Forall (λ k, (entered_with o < k)%Z) app.
Proof.
  induction reps as [|r reps IH]; intros o h vs h' l old Hok Hl Hold Hrun;
    simpl in Hrun.
  - injection Hrun as <- <-. by apply fresh_nil.
  - apply Forall_cons in Hok as [Hr Hrest].
    destruct (r o h) as [[v1 h1]|e] eqn:Er; simpl in Hrun; [|done].
    destruct (represent_all reps o h1) as [[vs1 h2]|e] eqn:Eall; simpl in Hrun;
      [|done].
    injection Hrun as <- <-.
    destruct (Hr _ _ _ _ _ _ Er Hl Hold) as (a1 & Hh1 & Ha1).
    eapply fresh_app; [exact Ha1|]. by eapply IH.
Qed.

Lemma mul_loop_fresh rest : ∀ last_arg res o h res' o' h' j l old f,
  Forall (λ fc, rep_fresh fc.2) rest →
  o_index o = Some j → (f < j)%Z → o_unities o = Some l → h !! l = Some old →
  mul_loop rest last_arg res o h = Ok (res', o', h') →
  ∃ app, h' !! l = Some (old ++ app) ∧ Forall (λ k, (f < k)%Z) app.
Proof.
  induction rest as [|[arg rep_arg] rest IH];
    intros la res o h res' o' h' j l old f Hok Hj Hf Hl Hold Hrun.
  - simpl in Hrun. injection Hrun as <- <- <-. by apply fresh_nil.
  - rewrite mul_loop_cons in Hrun.
    apply Forall_cons in Hok as [Hr Hrest]. simpl in Hr.
    destruct (adjust_index la arg o h) as [[o1 h1]|e] eqn:Eadj; simpl in Hrun; [|done].
    destruct (rep_arg o1 h1) as [[v h2]|e] eqn:Erep; simpl in Hrun; [|done].
    destruct (adjust_index_fresh _ _ _ _ _ _ _ _ _ _ Hj Hf Hl Hold Eadj)
      as (j1 & a1 & Hj1 & Hle & Hl1 & Hh1 & Ha1).
    eapply fresh_app; [exact Ha1|].
    destruct (Hr _ _ _ _ _ _ Erep Hl1 Hh1) as (a2 & Hh2 & Ha2).
    unfold entered_with in Ha2. rewrite Hj1 in Ha2. simpl in Ha2.
    eapply fresh_app; [eapply fresh_weaken; [|exact Ha2]; lia|].
    eapply (IH _ _ _ _ _ _ _ j1); try done. lia.
Qed.

Lemma represent_Mul_fresh factors o h v o' h' l old :
  Forall (λ fc, rep_fresh fc.2) factors →
  o_unities o = Some l → h !! l = Some old →
  represent_Mul factors o h = Ok (v, o', h') →
  ∃ app, h' !! l = Some (old ++ app) ∧ Forall (λ k, (entered_with o < k)%Z) app.
Proof.
  intros Hok Hl Hold. unfold represent_Mul, ensure_unities.
  change (o_unities (enter_index o)) with (o_unities o). rewrite Hl.
  assert (Forall (λ fc, rep_fresh fc.2) (reverse factors)) as Hrev.
  { apply Forall_forall. intros fc Hfc. rewrite elem_of_reverse in Hfc.
    exact (proj1 (Forall_forall _ _) Hok fc Hfc). }
  destruct (reverse factors) as [|[la rep_last] rest]; [done|].
  apply Forall_cons in Hrev as [Hlast Hrest]. simpl in Hlast.
  destruct (rep_last (enter_index o) h) as [[res h3]|e] eqn:Elast; simpl; [|done].
  destruct (mul_loop rest la res (enter_index o) h3) as [[[res' o3] h4]|e] eqn:Eloop;
    simpl; [|done].
  destruct (integrate_result _ _ _ _); simpl; [|done].
  intros [= -> -> ->].
  assert (entered_with o < entry_index o)%Z as Hlt.
  { unfold entered_with, entry_index. destruct (o_index o); simpl; lia. }
  destruct (Hlast _ _ _ _ _ _ Elast Hl Hold) as (a1 & Hh3 & Ha1).
  change (entered_with (enter_index o)) with (entry_index o) in Ha1.
  eapply fresh_app; [eapply fresh_weaken; [|exact Ha1]; lia|].
  exact (mul_loop_fresh rest la res (enter_index o) h3 _ _ _ (entry_index o) l
           (old ++ a1) (entered_with o) Hrest eq_refl Hlt Hl Hh3 Eloop).
Qed.

Lemma represent_fresh e : rep_fresh (represent e).
Proof.
  induction e as [q|args IH|args IH|base exp IHb IHe|args IH|arg IH
                  |a b IHa IHb|a b IHa IHb|bra ket IHb IHk|a] using Expr_ind;
    intros o h v h' l old Hrun Hl Hold.
  - apply represent_EQ_heap in Hrun as ->. by apply fresh_nil.
  - simpl in Hrun. destruct args as [|a args]; [done|]. simpl in Hrun.
    apply Forall_cons in IH as [Ha Hargs].
    destruct (represent a o h) as [[v1 h1]|e] eqn:Ea; simpl in Hrun; [|done].
    destruct (Ha _ _ _ _ _ _ Ea Hl Hold) as (a1 & Hh1 & Ha1).
    eapply fresh_app; [exact Ha1|].
    eapply add_loop_fresh; [|done|done|exact Hrun]. by apply Forall_fmap.
  - rewrite represent_EMul in Hrun. unfold forget_frame, represent_product in Hrun.
    destruct (represent_Mul (with_calls args) o h) as [[[v1 o1] h1]|e] eqn:Emul;
      simpl in Hrun; [|done].
    injection Hrun as <- <-.
    eapply represent_Mul_fresh; [|done|done|exact Emul].
    unfold with_calls. by apply Forall_fmap.
  - simpl in Hrun.
    destruct (if is_numeric_format (get_format o)
              then _sympy_to_scalar exp ≫= λ s, Ok (ExpScalar s)
              else Ok (ExpExpr exp)) as [ex|e]; simpl in Hrun; [|done].
    destruct (represent base o h) as [[b h1]|e] eqn:Eb; simpl in Hrun; [|done].
    injection Hrun as <- <-. by eapply IHb.
  - simpl in Hrun.
    destruct (represent_all (map represent args) o h) as [[vs h1]|e] eqn:Eall;
      simpl in Hrun; [|done].
    injection Hrun as <- <-.
    eapply represent_all_fresh; [|done|done|exact Eall]. by apply Forall_fmap.
  - simpl in Hrun.
    destruct (represent arg o h) as [[v1 h1]|e] eqn:Ea; simpl in Hrun; [|done].
    injection Hrun as <- <-. by eapply IH.
  - simpl in Hrun.
    destruct (represent a o h) as [[v1 h1]|e] eqn:Ea; simpl in Hrun; [|done].
    destruct (represent b o h1) as [[v2 h2]|e] eqn:Eb; simpl in Hrun; [|done].
    injection Hrun as <- <-.
    destruct (IHa _ _ _ _ _ _ Ea Hl Hold) as (a1 & Hh1 & Ha1).
    eapply fresh_app; [exact Ha1|]. by eapply IHb.
  - simpl in Hrun.
    destruct (represent a o h) as [[v1 h1]|e] eqn:Ea; simpl in Hrun; [|done].
    destruct (represent b o h1) as [[v2 h2]|e] eqn:Eb; simpl in Hrun; [|done].
    injection Hrun as <- <-.
    destruct (IHa _ _ _ _ _ _ Ea Hl Hold) as (a1 & Hh1 & Ha1).
    eapply fresh_app; [exact Ha1|]. by eapply IHb.
  - rewrite represent_EInnerProduct, represent_EMul in Hrun.
    unfold forget_frame, represent_product in Hrun.
    destruct (represent_Mul (with_calls [bra; ket]) o h) as [[[v1 o1] h1]|e] eqn:Emul;
      simpl in Hrun; [|done].
    injection Hrun as <- <-.
    eapply represent_Mul_fresh; [|done|done|exact Emul].
    unfold with_calls. simpl. repeat apply List.Forall_cons; done.
  - apply represent_EAtom_heap in Hrun as ->. by apply fresh_nil.
Qed.

(** X3. The indices a call records are fresh: every entry it appends
    to the list of its options is above the counter it was entered
    with (above 0 when the options carry no counter). *)
Theorem recorded_indices_are_fresh
    (e : Expr) (o : Options) (h h' : Heap) (v : Val) (l : loc) (old : list Z) :
  represent e o h = Ok (v, h') →
  o_unities o = Some l → h !! l = Some old →
  ∃ app, h' !! l = Some (old ++ app) ∧
         Forall (λ k, (default 0 (o_index o) < k)%Z) app.
Proof. intros Hrun Hl Hold. exact (represent_fresh e o h v h' l old Hrun Hl Hold). Qed.

End FreshIndices.

Section ProductCounters.
Context {W : World}.

Lemma own_bumps_le rest : ∀ last_arg,
  (own_bumps last_arg rest ≤ Z.of_nat (length rest))%Z.
Proof.
  induction rest as [|arg rest IH]; intros la; simpl; [lia|].
  specialize (IH arg).
  destruct (expr_is_Operator la || expr_is_BraBase la && expr_is_KetBase arg); lia.
Qed.

Lemma own_appends_le rest : ∀ last_arg, own_appends last_arg rest ≤ length rest.
Proof.
  induction rest as [|arg rest IH]; intros la; simpl; [lia|].
  specialize (IH arg).
  destruct (expr_is_Operator la || expr_is_KetBase la && expr_is_Operator arg); lia.
Qed.

Lemma product_bumps_le args :
  (product_bumps args ≤ Z.of_nat (length args) - 1)%Z ∨ args = [].
Proof.
  unfold product_bumps. destruct (reverse args) as [|la rest] eqn:E.
  - right. apply (f_equal reverse) in E. by rewrite reverse_involutive in E.
  - left. pose proof (own_bumps_le rest la).
    apply (f_equal length) in E. rewrite length_reverse in E. simpl in E. lia.
Qed.

Lemma product_appends_le args : product_appends args ≤ length args - 1.
Proof.
  unfold product_appends. destruct (reverse args) as [|la rest] eqn:E; [lia|].
  pose proof (own_appends_le rest la).
  apply (f_equal length) in E. rewrite length_reverse in E. simpl in E. lia.
Qed.

(** X4. The counter of a product never runs back and moves by at most
    one per factor after the last: when a product of n factors returns,
    the counter of its frame is the counter on entry (one above the
    caller's, or 1) plus the increments of its own loop, which are
    between 0 and n - 1, whatever products are nested in the factors. *)
Theorem product_counter_bounds
    (args : list Expr) (o : Options) (h h' : Heap) (v : Val) (o' : Options) :
  represent_product args o h = Ok (v, o', h') →
  o_index o' = Some (entry_index o + product_bumps args)%Z ∧
  (0 ≤ product_bumps args ≤ Z.of_nat (length args) - 1)%Z ∧
  (default 0 (o_index o) < entry_index o)%Z.
Proof.
  intros Hrun. destruct (represent_product_frame _ _ _ _ _ _ Hrun) as (Hidx & _).
  split; [exact Hidx|]. split.
  - split; [apply product_bumps_nonneg|].
    destruct (product_bumps_le args) as [Hle | ->]; [exact Hle|].
    by rewrite represent_product_nil in Hrun.
  - unfold entry_index. destruct (o_index o); simpl; lia.
Qed.

Lemma own_entries_length rest : ∀ last_arg index,
  length (own_entries last_arg rest index) = own_appends last_arg rest.
Proof.
  induction rest as [|arg rest IH]; intros la i; [done|]. simpl.
  destruct (expr_is_Operator la) eqn:Eop; simpl; [by rewrite IH|].
  destruct (expr_is_BraBase la && expr_is_KetBase arg) eqn:Ebk.
  - rewrite IH. destruct (expr_is_KetBase la) eqn:Ek; [|done].
    destruct la; try done. simpl in *.
    unfold is_BraBase, is_KetBase in *. by destruct (ckind (qclass q)).
  - destruct (expr_is_KetBase la && expr_is_Operator arg); simpl; by rewrite IH.
Qed.

Lemma mul_loop_leaf_entries rest : ∀ last_arg res o h res' o' h' j l old,
  Forall (λ fc, ∃ q, fc = (EQ q, represent (EQ q))) rest →
  o_index o = Some j → o_unities o = Some l → h !! l = Some old →
  mul_loop rest last_arg res o h = Ok (res', o', h') →
  h' !! l = Some (old ++ own_entries last_arg rest.*1 j).
Proof.
  induction rest as [|[arg rep_arg] rest IH];
    intros la res o h res' o' h' j l old Hok Hj Hl Hold Hrun.
  - simpl in Hrun. injection Hrun as <- <- <-. simpl. by rewrite app_nil_r.
  - rewrite mul_loop_cons in Hrun.
    apply Forall_cons in Hok as [(q & [= -> ->]) Hrest].
    rewrite (adjust_index_cases la (EQ q) o h j l Hj Hl) in Hrun.
    rewrite fmap_cons. cbn [fst own_entries].
    destruct (expr_is_Operator la).
    { cbv beta iota delta [mbind result_bind] in Hrun.
      destruct (represent_QExpr q _ _) as [v|e] eqn:Erep; [|done].
      assert (alter (λ u, u ++ [(j + 1)%Z]) l h !! l = Some (old ++ [(j + 1)%Z]))
        as Hnew by (by rewrite list_lookup_alter_eq, Hold).
      rewrite (IH _ _ (set_index (Some (j + 1)%Z) o) _ _ _ _ (j + 1)%Z l _ Hrest
                  eq_refl Hl Hnew Hrun).
      by rewrite <- app_assoc. }
    destruct (expr_is_BraBase la && expr_is_KetBase (EQ q)).
    { cbv beta iota delta [mbind result_bind] in Hrun.
      destruct (represent_QExpr q _ _) as [v|e] eqn:Erep; [|done].
      exact (IH _ _ (set_index (Some (j + 1)%Z) o) _ _ _ _ (j + 1)%Z l old Hrest
                eq_refl Hl Hold Hrun). }
    destruct (expr_is_KetBase la && expr_is_Operator (EQ q)).
    { cbv beta iota delta [mbind result_bind] in Hrun.
      destruct (represent_QExpr q _ _) as [v|e] eqn:Erep; [|done].
      assert (alter (λ u, u ++ [j]) l h !! l = Some (old ++ [j]))
        as Hnew by (by rewrite list_lookup_alter_eq, Hold).
      rewrite (IH _ _ o _ _ _ _ j l _ Hrest Hj Hl Hnew Hrun).
      by rewrite <- app_assoc. }
    cbv beta iota delta [mbind result_bind] in Hrun.
    destruct (represent_QExpr q _ _) as [v|e] eqn:Erep; [|done].
    exact (IH _ _ o _ _ _ _ j l old Hrest Hj Hl Hold Hrun).
Qed.

(** X5. A product whose factors are all leaves records exactly the
    entries of its own loop: when it returns, the list of its frame is
    the list it was given (empty when it was given none) followed by
    the entries the adjacency rule appends on these factors from the
    counter on entry, one after an operator (the incremented counter)
    and one when an operator follows a ket (the counter as it is); they
    are at most one per factor after the last. *)
Theorem leaf_product_records_own_entries
    (args : list Expr) (o : Options) (h h' : Heap) (v : Val) (o' : Options) :
  Forall (λ e, is_leaf e = true) args →
  wf_options o h →
  represent_product args o h = Ok (v, o', h') →
  ∃ l, o_unities o' = Some l ∧
       h' !! l = Some (default [] (unities_of o h)
                       ++ product_entries args (entry_index o)) ∧
       length (product_entries args (entry_index o)) = product_appends args ∧
       product_appends args ≤ length args - 1.
Proof.
  intros Hleaves Hwf Hrun. pose proof Hrun as Hrun0.
  unfold represent_product, represent_Mul in Hrun.
  rewrite reverse_with_calls in Hrun.
  destruct (ensure_unities (enter_index o) h) as [o2 h2] eqn:Eens.
  destruct (ensure_unities_spec (enter_index o) h o2 h2 Hwf Eens)
    as (Hi2 & l & Hl2 & Hh2).
  change (o_index (enter_index o)) with (Some (entry_index o)) in Hi2.
  change (unities_of (enter_index o) h) with (unities_of o h) in Hh2.
  assert (Forall (λ e, is_leaf e = true) (reverse args)) as Hrev.
  { apply Forall_forall. intros e He. rewrite elem_of_reverse in He.
    exact (proj1 (Forall_forall _ _) Hleaves e He). }
  pose proof (product_appends_le args) as Hle.
  unfold product_entries, product_appends.
  destruct (reverse args) as [|la rest] eqn:Erev; [simpl in Hrun; done|].
  change (with_calls (la :: rest)) with ((la, represent la) :: with_calls rest) in Hrun.
  cbv beta iota in Hrun.
  apply Forall_cons in Hrev as [Hla Hrest].
  destruct la as [q| | | | | | | | |]; try discriminate.
  cbv beta iota delta [mbind result_bind] in Hrun.
  change (represent (EQ q) o2 h2)
    with (match represent_QExpr q o2 h2 with
          | Ok a => Ok (a, h2)
          | Raise e => Raise e
          end) in Hrun.
  destruct (represent_QExpr q o2 h2) as [res|e] eqn:Elast; [|done].
  destruct (mul_loop (with_calls rest) (EQ q) res o2 h2) as [[[res' o3] h4]|e] eqn:Eloop;
    [|done].
  destruct (integrate_result _ _ _ _); [|done].
  injection Hrun as <- <- <-.
  assert (Forall (λ fc, ∃ q, fc = (EQ q, represent (EQ q))) (with_calls rest)) as Hcalls.
  { unfold with_calls. apply Forall_fmap. eapply Forall_impl; [exact Hrest|].
    intros [q'| | | | | | | | |]; simpl; try discriminate. intros _. by exists q'. }
  pose proof (mul_loop_leaf_entries _ _ _ _ _ _ _ _ _ _ _ Hcalls Hi2 Hl2 Hh2 Eloop)
    as Hh4.
  destruct (mul_loop_index _ _ _ _ _ _ _ _ _ Hi2 Eloop) as [_ Hun].
  rewrite fst_with_calls in Hh4.
  exists l. split; [by rewrite Hun|]. split; [exact Hh4|].
  split; [apply own_entries_length|].
  unfold product_appends in Hle. by rewrite Erev in Hle.
Qed.

End ProductCounters.

(** ** enumerate_states on an index list *)

Lemma enumerate_states_list q index_list :
  is_StateBase q = true →
  enumerate_states (PyInst q) (IndexList index_list)
  = Ok (enum_state q <$> index_list).
Proof. unfold enumerate_states; simpl. by intros ->. Qed.

(** X8. Given a state and a list of positions, [enumerate_states]
    returns one state per position, in the order of the list and with
    repeated positions kept; when the template has a label, two of the
    returned states are equal exactly when their positions are. *)
Theorem enumerate_states_index_list (q : QObj) (index_list : list Z) :
  is_StateBase q = true →
  ∃ states,
    enumerate_states (PyInst q) (IndexList index_list) = Ok states ∧
    length states = length index_list ∧
    (∀ k i, index_list !! k = Some i → states !! k = Some (enum_state q i)) ∧
    (qlabel q ≠ [] →
     ∀ j k sj sk, states !! j = Some sj → states !! k = Some sk →
       (sj = sk ↔ index_list !! j = index_list !! k)).
Proof.
  intros Hstate. eexists. split; [by apply enumerate_states_list|].
  split; [by rewrite length_fmap|]. split.
  - intros k i Hk. by rewrite list_lookup_fmap, Hk.
  - intros Hlabel j k sj sk Hj Hk. rewrite list_lookup_fmap in Hj, Hk.
    destruct (index_list !! j) as [ij|]; [|done].
    destruct (index_list !! k) as [ik|]; [|done].
    simpl in Hj, Hk. injection Hj as <-. injection Hk as <-. split.
    + intros Heq. f_equal. apply (enum_state_label_inj q); [done|]. by rewrite Heq.
    + by intros [= ->].
Qed.

Lemma enumerate_states_index_list_witness :
  ∃ states,
    enumerate_states (PyInst (Cartesian.ket_at "x")) (IndexList [3; 1; 3]%Z)
    = Ok states ∧ length states = 3.
Proof.
  destruct (enumerate_states_index_list (Cartesian.ket_at "x") [3; 1; 3]%Z eq_refl)
    as (states & Hrun & Hlen & _).
  exists states. split; [exact Hrun | exact Hlen].
Defined.

(** X9. The two forms of [enumerate_states] agree and compose: a
    (start, count) pair stands for the list of the positions from start
    to start+count-1, so a count of zero or less gives no state;
    enumerating two lists one after the other is enumerating their
    concatenation, and a range splits at any point.  The test for a
    state comes first: what is not a state raises the type error
    whatever the other arguments, and a state with a wrong number of
    arguments raises [NotImplementedError]. *)
Theorem enumerate_states_forms (q : QObj) :
  is_StateBase q = true →
  (∀ start count,
     enumerate_states (PyInst q) (StartCount start count)
     = enumerate_states (PyInst q) (IndexList (seqZ start count))) ∧
  (∀ start count, (count ≤ 0)%Z →
     enumerate_states (PyInst q) (StartCount start count) = Ok []) ∧
  (∀ l1 l2 s1 s2,
     enumerate_states (PyInst q) (IndexList l1) = Ok s1 →
     enumerate_states (PyInst q) (IndexList l2) = Ok s2 →
     enumerate_states (PyInst q) (IndexList (l1 ++ l2)) = Ok (s1 ++ s2)) ∧
  (∀ start c1 c2 s1 s2, (0 ≤ c1)%Z → (0 ≤ c2)%Z →
     enumerate_states (PyInst q) (StartCount start c1) = Ok s1 →
     enumerate_states (PyInst q) (StartCount (start + c1) c2) = Ok s2 →
     enumerate_states (PyInst q) (StartCount start (c1 + c2)) = Ok (s1 ++ s2)) ∧
  enumerate_states (PyInst q) WrongArity
  = Raise (NotImplementedError "Wrong number of arguments!") ∧
  (∀ x rest, isinstance_StateBase x = false →
     enumerate_states x rest = Raise (TypeError "First argument is not a state!")).
Proof.
  intros Hstate.
  refine (conj _ (conj _ (conj _ (conj _ (conj _ _))))).
  - intros start count.
    rewrite enumerate_states_range by done.
    by rewrite enumerate_states_list.
  - intros start count Hle.
    rewrite enumerate_states_range by done. by rewrite seqZ_nil.
  - intros l1 l2 s1 s2. rewrite !enumerate_states_list by done.
    intros [= <-] [= <-]. by rewrite fmap_app.
  - intros start c1 c2 s1 s2 H1 H2. rewrite !enumerate_states_range by done.
    intros [= <-] [= <-]. by rewrite seqZ_app, fmap_app.
  - unfold enumerate_states. simpl. by rewrite Hstate.
  - intros x rest. apply enumerate_states_not_state.
Qed.

Lemma enumerate_states_forms_witness :
  enumerate_states (PyInst (Cartesian.ket_at "x")) (StartCount 1 2)
  = enumerate_states (PyInst (Cartesian.ket_at "x")) (IndexList (seqZ 1 2)).
Proof.
  exact (proj1 (enumerate_states_forms (Cartesian.ket_at "x") eq_refl) 1%Z 2%Z).
Defined.

Section LeafOutcomes.
Context {W : World}.

(** ** get_basis, all outcomes *)

Lemma get_basis_raises expr o err :
  get_basis expr o = Raise err →
  err = TypeError "issubclass() arg 1 must be a class" ∧
  ((∃ q, o_basis o = Some (PyInst q) ∧ is_StateBase q = false) ∨
   (∃ r, o_basis o = Some (PyValue r))).
Proof.
  unfold get_basis, pop_basis.
  destruct (o_basis o) as [[|q|c|name|r]|] eqn:Eb; simpl.
  - destruct expr; try done.
    destruct (is_StateBase q); [done|]. by destruct (is_Operator q).
  - destruct (is_StateBase q) eqn:Es; [done|]. simpl. intros [= <-].
    split; [done|]. left. by exists q.
  - destruct (kind_is_StateBase (ckind c)); [done|].
    by destruct (kind_is_Operator (ckind c)).
  - done.
  - intros [= <-]. split; [done|]. right. by exists r.
  - destruct expr; try done.
    destruct (is_StateBase q); [done|]. by destruct (is_Operator q).
Qed.

(** X7. [get_basis] returns [None] or an instance, never a class or
    another value.  It raises exactly when the specifier is an instance
    that is not a state, or a value that is not a class, and then the
    type error of [issubclass].  A state it has returned is a fixed
    point: given back as the specifier, it is returned as it is, for
    every expression. *)
Theorem get_basis_outcomes (expr : Expr) (o : Options) :
  (∀ b, get_basis expr o = Ok b → b = PyNone ∨ ∃ q, b = PyInst q) ∧
  (∀ err, get_basis expr o = Raise err ↔
     err = TypeError "issubclass() arg 1 must be a class" ∧
     ((∃ q, o_basis o = Some (PyInst q) ∧ is_StateBase q = false) ∨
      (∃ r, o_basis o = Some (PyValue r)))) ∧
  (∀ b expr', get_basis expr o = Ok (PyInst b) → is_StateBase b = true →
     get_basis expr' (set_basis (Some (PyInst b)) o) = Ok (PyInst b)).
Proof.
  split; [|split].
  - intros b. unfold get_basis, pop_basis, state_of_mapping.
    destruct (o_basis o) as [[|q|c|name|r]|]; simpl.
    + destruct expr; try (intros [= <-]; by left).
      destruct (is_StateBase q); [intros [= <-]; right; by eexists|].
      destruct (is_Operator q); [|intros [= <-]; by left].
      destruct (operator_to_state _); intros [= <-]; [right; by eexists|by left].
    + destruct (is_StateBase q); [|done]. intros [= <-]. right. by eexists.
    + destruct (kind_is_StateBase (ckind c)); simpl;
        [intros [= <-]; right; by eexists|].
      destruct (kind_is_Operator (ckind c)); simpl; [|intros [= <-]; by left].
      destruct (operator_to_state _); intros [= <-]; [right; by eexists|by left].
    + intros [= <-]. by left.
    + done.
    + destruct expr; try (intros [= <-]; by left).
      destruct (is_StateBase q); [intros [= <-]; right; by eexists|].
      destruct (is_Operator q); [|intros [= <-]; by left].
      destruct (operator_to_state _); intros [= <-]; [right; by eexists|by left].
  - intros err. split; [apply get_basis_raises|].
    intros [-> [(q & Hb & Hs) | (r & Hb)]].
    + by apply (get_basis_other_instance expr o q).
    + by apply (get_basis_other_value expr o r).
  - intros b expr' _ Hstate. by apply get_basis_state_instance.
Qed.

(** ** represent on a leaf, all outcomes *)

(** X6. On a leaf [represent] leaves the heap as it is.  When the own
    rule of the leaf returns, that is the result, whatever basis the
    options name; an error of the own rule other than
    [NotImplementedError] comes out as it is; and whenever
    [NotImplementedError] comes out, it is the one of the own rule,
    with its reason. *)
Theorem represent_leaf_outcomes (q : QObj) (o : Options) (h : Heap) :
  (∀ v h', represent (EQ q) o h = Ok (v, h') → h' = h) ∧
  (∀ v, own_represent q (view o h) = Ok v → represent (EQ q) o h = Ok (v, h)) ∧
  (∀ err, own_represent q (view o h) = Raise err →
     (∀ reason, err ≠ NotImplementedError reason) →
     represent (EQ q) o h = Raise err) ∧
  (∀ reason, represent (EQ q) o h = Raise (NotImplementedError reason) →
     own_represent q (view o h) = Raise (NotImplementedError reason)).
Proof.
  split; [intros v h'; apply represent_EQ_heap|].
  rewrite represent_EQ. unfold represent_QExpr. split; [|split].
  - by intros v ->.
  - intros err -> Hnot. destruct err; try done. by destruct (Hnot reason).
  - intros reason.
    destruct (own_represent q (view o h)) as [v|[strerr|msg| |key]];
      cbv beta iota delta [mbind result_bind]; try done.
    destruct (get_basis (EQ q) o) as [basis|err] eqn:Eb.
    + destruct (is_KetBase q || is_BraBase q).
      { destruct (rep_innerproduct (EQ q) (set_basis (Some basis) o))
          as [v|[r|msg| |key]]; unfold reraise; try done. by intros [= ->]. }
      destruct (is_HermitianOperator q).
      { destruct (rep_expectation (EQ q) (set_basis (Some basis) o))
          as [v|[r|msg| |key]]; unfold reraise; try done. by intros [= ->]. }
      by intros [= ->].
    + apply get_basis_raises in Eb as [-> _]. done.
Qed.

End LeafOutcomes.

Lemma get_basis_outcomes_witness :
  get_basis Cartesian.X
    (set_basis (Some (PyInst (Cartesian.ket_at "x"))) Cartesian.no_options)
  = Ok (PyInst (Cartesian.ket_at "x")).
Proof.
  exact (proj2 (proj2 (get_basis_outcomes Cartesian.x Cartesian.no_options))
           (Cartesian.ket_at "x") Cartesian.X eq_refl eq_refl).
Defined.

Lemma represent_leaf_outcomes_witness :
  represent Cartesian.up
    (set_basis (Some (PyInst Cartesian.X_op)) Cartesian.no_options) []
  = Ok (Cartesian.SRule
          {| qclass := Cartesian.SzUpKet; qlabel := ["up"] |}
          (view (set_basis (Some (PyInst Cartesian.X_op)) Cartesian.no_options) []),
        []).
Proof.
  exact (proj1 (proj2 (represent_leaf_outcomes
                         {| qclass := Cartesian.SzUpKet; qlabel := ["up"] |}
                         (set_basis (Some (PyInst Cartesian.X_op)) Cartesian.no_options)
                         [])) _ eq_refl).
Defined.

Lemma seqZ_two i : seqZ i 2 = [i; (i + 1)%Z].
Proof.
  rewrite seqZ_cons by lia. rewrite seqZ_cons by lia. rewrite seqZ_nil by lia.
  reflexivity.
Qed.

Lemma enumerate_states_pair b i :
  is_StateBase b = true →
  enumerate_states (PyInst b) (StartCount i 2)
  = Ok [enum_state b i; enum_state b (i + 1)].
Proof. intros Hb. rewrite enumerate_states_range by done. by rewrite seqZ_two. Qed.

Lemma enum_state_next_ne b i :
  qlabel b ≠ [] → enum_state b (i + 1) ≠ enum_state b i.
Proof.
  intros Hlabel Heq. apply (f_equal qlabel) in Heq.
  apply enum_state_label_inj in Heq; [lia|done].
Qed.

Section Evaluators.
Context {W : World}.

(** ** rep_innerproduct *)

(** X10. With a ket, or other state that is not a bra, as basis,
    [rep_innerproduct] pairs the leaf with a basis state enumerated at
    the current index or at the next, and never with the leaf itself:
    when the state at the current index is the leaf (its dual, for a
    bra) it takes the next one. *)
Theorem rep_innerproduct_pairs_with_another_state
    (q b : QObj) (o : Options) :
  is_StateBase b = true → is_BraBase b = false → qlabel b ≠ [] →
  o_basis o = Some (PyInst b) →
  (is_KetBase q = true →
   ∃ k, (k = enum_state b (index_or_1 o) ∨ k = enum_state b (index_or_1 o + 1)) ∧
        k ≠ q ∧
        rep_innerproduct (EQ q) o
        = (res ← innerproduct_doit (dual k) q;
           format_represent q res (get_format o))) ∧
  (is_BraBase q = true →
   ∃ k, (k = enum_state b (index_or_1 o) ∨ k = enum_state b (index_or_1 o + 1)) ∧
        dual k ≠ q ∧
        rep_innerproduct (EQ q) o
        = (res ← innerproduct_doit q k;
           format_represent q res (get_format o))).
Proof.
  intros Hstate Hnotbra Hlabel Hb. split.
  - intros Hket. destruct (ket_kind _ Hket) as [_ Hqb].
    unfold rep_innerproduct. rewrite Hket, Hb. simpl default.
    cbv beta iota. rewrite Hnotbra, (enumerate_states_pair _ _ Hstate).
    cbv beta iota delta [mbind result_bind]. rewrite Hqb.
    case_bool_decide as Heq.
    + exists (enum_state b (index_or_1 o + 1)). split; [by right|].
      split; [|done]. rewrite <- Heq. by apply enum_state_next_ne.
    + exists (enum_state b (index_or_1 o)). split; [by left|]. by split.
  - intros Hbra. destruct (bra_kind _ Hbra) as [_ Hqk].
    unfold rep_innerproduct. rewrite Hqk, Hbra, Hb. simpl default.
    cbv beta iota. rewrite Hnotbra, (enumerate_states_pair _ _ Hstate).
    cbv beta iota delta [mbind result_bind orb].
    case_bool_decide as Heq.
    + exists (enum_state b (index_or_1 o + 1)). split; [by right|].
      split; [|done]. rewrite <- Heq. intros Hd. apply (f_equal qlabel) in Hd.
      simpl in Hd. apply (enum_state_label_inj b) in Hd; [lia|done].
    + exists (enum_state b (index_or_1 o)). split; [by left|]. by split.
Qed.

(** X11. A bra as basis stands for its dual: [rep_innerproduct] does
    with it what it does with the dual ket. *)
Theorem rep_innerproduct_bra_basis (expr : Expr) (b : QObj) (o : Options) :
  is_BraBase b = true → is_BraBase (dual b) = false →
  rep_innerproduct expr (set_basis (Some (PyInst b)) o)
  = rep_innerproduct expr (set_basis (Some (PyInst (dual b))) o).
Proof.
  intros Hb Hd. unfold rep_innerproduct. destruct expr; try done.
  destruct (is_KetBase q || is_BraBase q); [|done]. simpl. by rewrite Hb, Hd.
Qed.

(** ** rep_expectation *)

(** X12. [rep_expectation] on an operator puts it between the basis bra
    enumerated at the next index and the basis ket at the current
    index.  With no basis it takes the default instance of the state
    class mapped to the operator, and declines when there is none; a
    basis that is not a state raises the type error of
    [enumerate_states]; and what is not an operator raises a type error
    whatever the options hold. *)
Theorem rep_expectation_outcomes (o : Options) :
  (∀ expr, expr_is_Operator expr = false →
     rep_expectation expr o
     = Raise (TypeError "The passed expression is not an operator")) ∧
  (∀ q b, is_Operator q = true → pop_basis o = PyInst b → is_StateBase b = true →
     rep_expectation (EQ q) o
     = qapply_sandwich (dual (enum_state b (index_or_1 o + 1))) q
                       (enum_state b (index_or_1 o))) ∧
  (∀ q c, is_Operator q = true → pop_basis o = PyNone →
     operator_to_state (PyInst q) = Some c →
     rep_expectation (EQ q) o
     = rep_expectation (EQ q) (set_basis (Some (PyInst (instantiate c))) o)) ∧
  (∀ q, is_Operator q = true → pop_basis o = PyNone →
     operator_to_state (PyInst q) = None →
     rep_expectation (EQ q) o
     = Raise (NotImplementedError "Could not get basis kets for this operator")) ∧
  (∀ q, is_Operator q = true → pop_basis o ≠ PyNone →
     isinstance_StateBase (pop_basis o) = false →
     rep_expectation (EQ q) o
     = Raise (TypeError "First argument is not a state!")).
Proof.
  refine (conj _ (conj _ (conj _ (conj _ _)))).
  - intros expr Hop. unfold rep_expectation. destruct expr; try done.
    simpl in Hop. by rewrite Hop.
  - intros q b Hop Hb Hstate. unfold rep_expectation. rewrite Hop, Hb.
    by rewrite (enumerate_states_pair _ _ Hstate).
  - intros q c Hop Hb Hmap. unfold rep_expectation. rewrite Hop, Hb, Hmap.
    reflexivity.
  - intros q Hop Hb Hmap. unfold rep_expectation. by rewrite Hop, Hb, Hmap.
  - intros q Hop Hb Hnot. unfold rep_expectation. rewrite Hop.
    destruct (pop_basis o); try done;
      by rewrite enumerate_states_not_state.
Qed.

(** ** integrate_result *)

Lemma labels0_enum_state b lab0 labs us :
  qlabel b = lab0 :: labs →
  labels0 (enum_state b <$> us) = Ok ((λ u, suffix_label u lab0) <$> us).
Proof.
  intros Hlabel. induction us as [|u us IH]; [done|].
  rewrite !fmap_cons. simpl. rewrite IH. unfold label0. simpl.
  by rewrite Hlabel.
Qed.

Lemma integrate_coords_none_free basis coords res :
  Forall (λ coord, has_free_symbol res coord = false) coords →
  integrate_coords basis coords res = Ok res.
Proof.
  induction 1 as [|coord coords Hc _ IH]; [done|]. simpl. by rewrite Hc.
Qed.

(** X13. [integrate_result] gives the result back as it is when it is
    not an expression, when the basis in the options is [None], when
    the list of unresolved indices is absent or empty, and when none of
    the coordinates of the basis states enumerated at the unresolved
    indices is free in it.  With a basis in the options the product
    node is not looked at; with none, and a product without arguments,
    looking for the last argument raises [IndexError]. *)
Theorem integrate_result_unchanged
    (orig_args : list Expr) (res : Val) (o : Options) (h : Heap) :
  (is_Expr res = false → integrate_result orig_args res o h = Ok res) ∧
  (o_basis o = Some PyNone → integrate_result orig_args res o h = Ok res) ∧
  (∀ b, o_basis o = Some b → default [] (unities_of o h) = [] →
     integrate_result orig_args res o h = Ok res) ∧
  (∀ b lab0 labs us,
     o_basis o = Some (PyInst b) → is_StateBase b = true →
     qlabel b = lab0 :: labs → unities_of o h = Some us →
     Forall (λ u, has_free_symbol res (suffix_label u lab0) = false) us →
     integrate_result orig_args res o h = Ok res) ∧
  (∀ b other_args, o_basis o = Some b →
     integrate_result other_args res o h = integrate_result orig_args res o h) ∧
  (is_Expr res = true → o_basis o = None → orig_args = [] →
     integrate_result orig_args res o h = Raise IndexError).
Proof.
  refine (conj _ (conj _ (conj _ (conj _ (conj _ _))))).
  - unfold integrate_result. by intros ->.
  - intros Hb. unfold integrate_result. destruct (negb (is_Expr res)); [done|].
    rewrite Hb. cbv beta iota delta [mbind result_bind]. unfold pop_basis.
    by rewrite Hb.
  - intros b Hb Hempty. unfold integrate_result.
    destruct (negb (is_Expr res)); [done|].
    rewrite Hb. cbv beta iota delta [mbind result_bind]. unfold pop_basis.
    rewrite Hb, Hempty. simpl. by destruct b.
  - intros b lab0 labs us Hb Hstate Hlabel Hus Hfree. unfold integrate_result.
    destruct (negb (is_Expr res)); [done|].
    rewrite Hb. cbv beta iota delta [mbind result_bind]. unfold pop_basis.
    rewrite Hb, Hus. simpl default. cbv beta iota.
    destruct us as [|u us]; [done|].
    rewrite enumerate_states_list by done.
    rewrite (labels0_enum_state _ _ _ _ Hlabel).
    apply integrate_coords_none_free. by apply Forall_fmap.
  - intros b other Hb. unfold integrate_result. by rewrite Hb.
  - intros Hexpr Hb ->. unfold integrate_result. by rewrite Hexpr, Hb.
Qed.

End Evaluators.

Lemma rep_innerproduct_pairs_with_another_state_witness :
  ∃ k, k ≠ Cartesian.ket_at "x_1" ∧
       rep_innerproduct (EQ (Cartesian.ket_at "x_1"))
         (set_basis (Some (PyInst (Cartesian.ket_at "x"))) Cartesian.no_options)
       = Ok (Cartesian.SOverlap (dual k) (Cartesian.ket_at "x_1")).
Proof.
  destruct (proj1 (rep_innerproduct_pairs_with_another_state
                     (Cartesian.ket_at "x_1") (Cartesian.ket_at "x")
                     (set_basis (Some (PyInst (Cartesian.ket_at "x")))
                                Cartesian.no_options)
                     eq_refl eq_refl ltac:(discriminate) eq_refl) eq_refl)
    as (k & Hk & Hne & Hrun).
  exists k. split; [exact Hne|]. rewrite Hrun. reflexivity.
Defined.

Lemma rep_innerproduct_bra_basis_witness :
  rep_innerproduct Cartesian.x
    (set_basis (Some (PyInst (Cartesian.bra_at "x"))) Cartesian.no_options)
  = rep_innerproduct Cartesian.x
      (set_basis (Some (PyInst (Cartesian.ket_at "x"))) Cartesian.no_options).
Proof.
  exact (rep_innerproduct_bra_basis Cartesian.x (Cartesian.bra_at "x")
           Cartesian.no_options eq_refl eq_refl).
Defined.

Lemma rep_expectation_outcomes_witness :
  rep_expectation Cartesian.X
    (set_basis (Some (PyInst (Cartesian.ket_at "x"))) Cartesian.no_options)
  = Ok (Cartesian.SSandwich (Cartesian.bra_at "x_2") Cartesian.X_op
                            (Cartesian.ket_at "x_1")).
Proof.
  exact (proj1 (proj2 (rep_expectation_outcomes
                         (set_basis (Some (PyInst (Cartesian.ket_at "x")))
                                    Cartesian.no_options)))
           Cartesian.X_op (Cartesian.ket_at "x") eq_refl eq_refl eq_refl).
Defined.

Lemma integrate_result_unchanged_witness :
  integrate_result [Cartesian.X; Cartesian.x] Cartesian.overlap_y_x1
    (set_basis (Some (PyInst (Cartesian.ket_at "x"))) Cartesian.in_product)
    [[2%Z]]
  = Ok Cartesian.overlap_y_x1.
Proof.
  refine (proj1 (proj2 (proj2 (proj2 (integrate_result_unchanged
            [Cartesian.X; Cartesian.x] Cartesian.overlap_y_x1
            (set_basis (Some (PyInst (Cartesian.ket_at "x"))) Cartesian.in_product)
            [[2%Z]]))))
            (Cartesian.ket_at "x") "x" [] [2%Z] eq_refl eq_refl eq_refl eq_refl _).
  repeat constructor.
Defined.

Section Structure.
Context {W : World}.

(** ** Scalars and exponents *)

(** X14. Only numbers pass [_sympy_to_scalar].  So with the format
    "numpy" or "scipy.sparse" a scalar that is not a number makes
    [represent] raise a type error, and so does a power whose exponent
    is not a number, before its base is looked at; with any other
    format (and with none, which is "sympy") a scalar is returned as it
    is and the exponent of a power is used as it is. *)
Theorem numeric_formats_need_numbers (o : Options) (h : Heap) :
  (∀ e, _sympy_to_scalar e = Raise (TypeError "Expected number") ↔
        is_number e = false) ∧
  (is_numeric_format (get_format o) = true ↔
   o_format o = Some "numpy" ∨ o_format o = Some "scipy.sparse") ∧
  (is_numeric_format (get_format o) = true →
   (∀ a, is_number_atom a = false →
      represent (EAtom a) o h = Raise (TypeError "Expected number")) ∧
   (∀ base exp, is_number exp = false →
      represent (EPow base exp) o h = Raise (TypeError "Expected number"))) ∧
  (is_numeric_format (get_format o) = false →
   (∀ a, represent (EAtom a) o h = Ok (val_of_expr (EAtom a), h)) ∧
   (∀ base exp v h', represent base o h = Ok (v, h') →
      represent (EPow base exp) o h = Ok (vpow v (ExpExpr exp), h'))).
Proof.
  refine (conj _ (conj _ (conj _ _))).
  - intros e. destruct e as [| | | | | | | | |[]]; simpl; split; done.
  - unfold get_format, is_numeric_format.
    destruct (o_format o) as [f|]; simpl.
    + rewrite orb_true_iff, !bool_decide_eq_true. split.
      * intros [-> | ->]; [by left | by right].
      * intros [[= ->] | [= ->]]; [by left | by right].
    + split; [done|]. by intros [|].
  - intros Hnum. split.
    + intros a Ha. simpl. rewrite Hnum. by destruct a.
    + intros base exp Hexp. simpl. rewrite Hnum.
      by destruct exp as [| | | | | | | | |[]].
  - intros Hnum. split.
    + intros a. simpl. by rewrite Hnum.
    + intros base exp v h' Hbase. simpl. rewrite Hnum. simpl. by rewrite Hbase.
Qed.

(** ** Sums, tensor products and commutators of independent operands *)

Lemma represent_any_heap e o h1 h2 :
  o_unities o = None →
  match represent e o h1, represent e o h2 with
  | Ok (v, _), Ok (v', _) => v = v'
  | Raise err, Raise err' => err = err'
  | _, _ => False
  end.
Proof.
  intros Hnone.
  assert (alike o h1 o h2) as Hal.
  { split; [done|]. unfold same_list. by rewrite Hnone. }
  pose proof (represent_alike e o h1 o h2 Hal) as Hsame.
  unfold same_outcome in Hsame.
  destruct (represent e o h1) as [[v h1']|err],
           (represent e o h2) as [[v' h2']|err']; try done.
  by destruct Hsame.
Qed.

Lemma represent_value_any_heap e o h1 h2 v h1' :
  o_unities o = None → represent e o h1 = Ok (v, h1') →
  ∃ h2', represent e o h2 = Ok (v, h2').
Proof.
  intros Hnone Hrun. pose proof (represent_any_heap e o h1 h2 Hnone) as Hsame.
  rewrite Hrun in Hsame.
  destruct (represent e o h2) as [[v' h2']|err]; [|done]. subst. by exists h2'.
Qed.

Lemma represent_error_any_heap e o h1 h2 err :
  o_unities o = None → represent e o h1 = Raise err →
  represent e o h2 = Raise err.
Proof.
  intros Hnone Hrun. pose proof (represent_any_heap e o h1 h2 Hnone) as Hsame.
  rewrite Hrun in Hsame.
  destruct (represent e o h2) as [[v' h2']|err']; [done|]. by subst.
Qed.

Lemma add_loop_values o h rest : ∀ vs acc h1,
  o_unities o = None →
  Forall2 (λ a v, ∃ h', represent a o h = Ok (v, h')) rest vs →
  ∃ h', add_loop (map represent rest) o acc h1 = Ok (foldl vadd acc vs, h').
Proof.
  induction rest as [|a rest IH]; intros vs acc h1 Hnone Hall.
  - apply Forall2_nil_inv_l in Hall as ->. by exists h1.
  - apply Forall2_cons_inv_l in Hall as (v & vs' & (h' & Hv) & Hrest & ->).
    destruct (represent_value_any_heap a o h h1 v h' Hnone Hv) as [h2 Hv2].
    simpl. rewrite Hv2. simpl. by apply IH.
Qed.

Lemma add_loop_error o h pre : ∀ vs a post err acc h1,
  o_unities o = None →
  Forall2 (λ a v, ∃ h', represent a o h = Ok (v, h')) pre vs →
  represent a o h = Raise err →
  add_loop (map represent (pre ++ a :: post)) o acc h1 = Raise err.
Proof.
  induction pre as [|b pre IH]; intros vs a post err acc h1 Hnone Hall Ha.
  - simpl. by rewrite (represent_error_any_heap a o h h1 err Hnone Ha).
  - apply Forall2_cons_inv_l in Hall as (v & vs' & (h' & Hv) & Hrest & ->).
    destruct (represent_value_any_heap b o h h1 v h' Hnone Hv) as [h2 Hv2].
    simpl. rewrite Hv2. simpl. by eapply IH.
Qed.

(** X15. When the options carry no list, a sum is represented from the
    values its addends have on their own: it is their sum from left to
    right, and when some addend raises, every addend before it having
    returned, the sum raises the same.  A sum with no addend raises
    [IndexError]. *)
Theorem represent_sum_of_values (o : Options) (h : Heap) :
  o_unities o = None →
  (∀ a rest v vs,
     Forall2 (λ b w, ∃ h', represent b o h = Ok (w, h')) (a :: rest) (v :: vs) →
     ∃ h', represent (EAdd (a :: rest)) o h = Ok (foldl vadd v vs, h')) ∧
  (∀ pre vs a post err,
     Forall2 (λ b w, ∃ h', represent b o h = Ok (w, h')) pre vs →
     represent a o h = Raise err →
     represent (EAdd (pre ++ a :: post)) o h = Raise err) ∧
  represent (EAdd []) o h = Raise IndexError.
Proof.
  intros Hnone. refine (conj _ (conj _ _)).
  - intros a rest v vs Hall.
    apply Forall2_cons_1 in Hall as [[h1 Hv] Hrest].
    change (represent (EAdd (a :: rest)) o h)
      with ('(res, h0) ← represent a o h; add_loop (map represent rest) o res h0).
    rewrite Hv. simpl. by apply (add_loop_values o h).
  - intros pre vs a post err Hpre Ha. destruct pre as [|b pre].
    + change (represent (EAdd ([] ++ a :: post)) o h)
        with ('(res, h0) ← represent a o h; add_loop (map represent post) o res h0).
      by rewrite Ha.
    + apply Forall2_cons_inv_l in Hpre as (v & vs' & (h' & Hv) & Hrest & ->).
      change (represent (EAdd ((b :: pre) ++ a :: post)) o h)
        with ('(res, h0) ← represent b o h;
              add_loop (map represent (pre ++ a :: post)) o res h0).
      rewrite Hv. simpl. by eapply (add_loop_error o h).
  - reflexivity.
Qed.

Lemma represent_all_values o h args : ∀ vs h1,
  o_unities o = None →
  Forall2 (λ a v, ∃ h', represent a o h = Ok (v, h')) args vs →
  ∃ h', represent_all (map represent args) o h1 = Ok (vs, h').
Proof.
  induction args as [|a args IH]; intros vs h1 Hnone Hall.
  - apply Forall2_nil_inv_l in Hall as ->. by exists h1.
  - apply Forall2_cons_inv_l in Hall as (v & vs' & (h' & Hv) & Hrest & ->).
    destruct (represent_value_any_heap a o h h1 v h' Hnone Hv) as [h2 Hv2].
    destruct (IH vs' h2 Hnone Hrest) as [h3 Hall].
    simpl. rewrite Hv2. simpl. rewrite Hall. simpl. by exists h3.
Qed.

(** X16. When the options carry no list, a tensor product is
    represented as the tensor product of the values its factors have on
    their own, as many and in the same order. *)
Theorem represent_tensor_of_values
    (args : list Expr) (vs : list Val) (o : Options) (h : Heap) :
  o_unities o = None →
  Forall2 (λ a v, ∃ h', represent a o h = Ok (v, h')) args vs →
  length vs = length args ∧
  ∃ h', represent (ETensorProduct args) o h = Ok (vtensor vs, h').
Proof.
  intros Hnone Hall. split; [symmetry; by eapply Forall2_length|].
  destruct (represent_all_values o h args vs h Hnone Hall) as [h' Hrun].
  exists h'. simpl. by rewrite Hrun.
Qed.

(** X17. When the options carry no list, the commutator and the
    anticommutator of two operands are built from the values A and B
    the operands have on their own, as A*B - B*A and A*B + B*A; each
    operand is represented once. *)
Theorem represent_commutators_of_values
    (a b : Expr) (A B : Val) (ha hb : Heap) (o : Options) (h : Heap) :
  o_unities o = None →
  represent a o h = Ok (A, ha) → represent b o h = Ok (B, hb) →
  (∃ h', represent (ECommutator a b) o h
         = Ok (vsub (vmul A B) (vmul B A), h')) ∧
  (∃ h', represent (EAntiCommutator a b) o h
         = Ok (vadd (vmul A B) (vmul B A), h')).
Proof.
  intros Hnone Ha Hb.
  destruct (represent_value_any_heap b o h ha B hb Hnone Hb) as [h' Hb'].
  split; exists h'; simpl; rewrite Ha; simpl; by rewrite Hb'.
Qed.

End Structure.

Lemma numeric_formats_need_numbers_witness :
  represent (EAtom (AOther "a"))
    {| o_format := Some "numpy"; o_basis := None; o_index := None;
       o_unities := None; o_extra := [] |} []
  = Raise (TypeError "Expected number").
Proof.
  exact (proj1 (proj1 (proj2 (proj2 (numeric_formats_need_numbers
            {| o_format := Some "numpy"; o_basis := None; o_index := None;
               o_unities := None; o_extra := [] |} []))) eq_refl)
           (AOther "a") eq_refl).
Defined.

Lemma represent_sum_of_values_witness :
  ∃ v w h',
    represent (EMul [Cartesian.X; Cartesian.x]) Cartesian.no_options [] = Ok (v, [[1%Z]]) ∧
    represent Cartesian.x Cartesian.no_options [] = Ok (w, []) ∧
    represent (EAdd [EMul [Cartesian.X; Cartesian.x]; Cartesian.x])
      Cartesian.no_options []
    = Ok (Cartesian.SAdd v w, h').
Proof.
  destruct (represent (EMul [Cartesian.X; Cartesian.x]) Cartesian.no_options [])
    as [[v hv]|e] eqn:Hv; [|vm_compute in Hv; discriminate].
  destruct (represent Cartesian.x Cartesian.no_options [])
    as [[w hw]|e] eqn:Hw; [|vm_compute in Hw; discriminate].
  destruct (proj1 (represent_sum_of_values Cartesian.no_options [] eq_refl)
              (EMul [Cartesian.X; Cartesian.x]) [Cartesian.x] v [w]
              (List.Forall2_cons _ _ (ex_intro _ hv Hv)
                 (List.Forall2_cons _ _ (ex_intro _ hw Hw) (List.Forall2_nil _))))
    as [h' Hsum].
  exists v, w, h'.
  assert (hv = [[1%Z]]) as -> by (vm_compute in Hv; by injection Hv).
  assert (hw = []) as -> by (vm_compute in Hw; by injection Hw).
  split; [reflexivity|]. split; [reflexivity|]. exact Hsum.
Defined.

Lemma represent_tensor_of_values_witness :
  ∃ v w h',
    represent (ETensorProduct [EMul [Cartesian.X; Cartesian.x]; Cartesian.x])
      Cartesian.no_options []
    = Ok (Cartesian.STensor [v; w], h').
Proof.
  destruct (represent (EMul [Cartesian.X; Cartesian.x]) Cartesian.no_options [])
    as [[v hv]|e] eqn:Hv; [|vm_compute in Hv; discriminate].
  destruct (represent Cartesian.x Cartesian.no_options [])
    as [[w hw]|e] eqn:Hw; [|vm_compute in Hw; discriminate].
  destruct (proj2 (represent_tensor_of_values
                     [EMul [Cartesian.X; Cartesian.x]; Cartesian.x] [v; w]
                     Cartesian.no_options [] eq_refl
                     (List.Forall2_cons _ _ (ex_intro _ hv Hv)
                        (List.Forall2_cons _ _ (ex_intro _ hw Hw)
                           (List.Forall2_nil _)))))
    as [h' Hrun].
  exists v, w, h'. exact Hrun.
Defined.

Lemma represent_commutators_of_values_witness :
  ∃ A B h',
    represent (ECommutator (EMul [Cartesian.X; Cartesian.x]) Cartesian.x)
      Cartesian.no_options []
    = Ok (Cartesian.SSub (Cartesian.SMul A B) (Cartesian.SMul B A), h').
Proof.
  destruct (represent (EMul [Cartesian.X; Cartesian.x]) Cartesian.no_options [])
    as [[A ha]|e] eqn:Ha; [|vm_compute in Ha; discriminate].
  destruct (represent Cartesian.x Cartesian.no_options [])
    as [[B hb]|e] eqn:Hb; [|vm_compute in Hb; discriminate].
  destruct (proj1 (represent_commutators_of_values
                     (EMul [Cartesian.X; Cartesian.x]) Cartesian.x A B ha hb
                     Cartesian.no_options [] eq_refl Ha Hb)) as [h' Hrun].
  exists A, B, h'. exact Hrun.
Defined.

(** ** collapse_deltas, what it leaves and what it raises *)

Section CollapseOutcomes.
Context {A : SymAlgebra}.

Lemma delta_coord_not_delta label arg :
  sym_is_DiracDelta arg = false → delta_coord label arg = Ok None.
Proof. unfold delta_coord. by intros ->. Qed.

Lemma delta_coord_sole_term label arg a0 rest t :
  sym_is_DiracDelta arg = true → sym_args arg = a0 :: rest →
  sym_args a0 = [t] → sym_eqb t label = true →
  delta_coord label arg = Raise IndexError.
Proof.
  intros Hd Hargs Ha0 Ht. unfold delta_coord, sym_in.
  rewrite Hd, Hargs, Ha0. simpl. rewrite Ht. simpl.
  by destruct (sym_is_Mul t).
Qed.

Lemma delta_coord_raises label arg err :
  delta_coord label arg = Raise err → err = IndexError.
Proof.
  unfold delta_coord. destruct (sym_is_DiracDelta arg); [|done].
  destruct (sym_args arg) as [|a0 rest]; [by intros [= <-]|].
  destruct (sym_in label (sym_args a0) || sym_in (sym_neg label) (sym_args a0));
    [|done].
  destruct (map _ (sym_args a0)) as [|d0 [|d1 ds]]; try done; by intros [= <-].
Qed.

Lemma collapse_args_raises label args : ∀ new_expr,
  Exists (λ arg, delta_coord label arg = Raise IndexError) args →
  collapse_args label args new_expr = Raise IndexError.
Proof.
  induction args as [|arg args IH]; intros new_expr Hex.
  - by apply Exists_nil in Hex.
  - simpl. destruct (delta_coord label arg) as [c|err] eqn:Ec; simpl.
    + apply Exists_cons in Hex as [Hhere | Hlater]; [congruence|]. by apply IH.
    + by apply delta_coord_raises in Ec as ->.
Qed.

Lemma collapse_args_errors label args new_expr err :
  collapse_args label args new_expr = Raise err → err = IndexError.
Proof.
  revert new_expr. induction args as [|arg args IH]; intros new_expr; [done|].
  simpl. destruct (delta_coord label arg) as [c|err'] eqn:Ec; simpl.
  - apply IH.
  - intros [= <-]. by apply delta_coord_raises in Ec.
Qed.

Lemma collapse_labels_raises labels args : ∀ new_expr,
  Exists (λ label, Exists (λ arg, delta_coord label arg = Raise IndexError) args)
         labels →
  collapse_labels labels args new_expr = Raise IndexError.
Proof.
  induction labels as [|label labels IH]; intros new_expr Hex.
  - by apply Exists_nil in Hex.
  - simpl. destruct (collapse_args label args new_expr) as [e'|err] eqn:Ec; simpl.
    + apply Exists_cons in Hex as [Hhere | Hlater]; [|by apply IH].
      by rewrite (collapse_args_raises _ _ _ Hhere) in Ec.
    + by apply collapse_args_errors in Ec as ->.
Qed.

(** X18. On a product without anything to collapse, [collapse_deltas]
    only drops the infinity factors and rebuilds the product: that is
    so when there is no unresolved index, and whenever no factor is a
    delta whose argument has a label, or its negation, among its terms;
    in particular on a product with no delta at all. *)
Theorem collapse_deltas_nothing_to_collapse
    (expr : Sym) (o : Options) (h : Heap) (labels : list Sym) :
  sym_is_Mul expr = true →
  unresolved_labels (pop_basis o) (default [] (unities_of o h)) = Ok labels →
  labels = [] ∨
  Forall (λ arg, sym_is_DiracDelta arg = false) (sym_args expr) ∨
  Forall (λ label,
            Forall (λ arg, delta_coord label arg = Ok None) (sym_args expr))
         labels →
  collapse_deltas expr o h
  = Ok (sym_Mul (filter (λ arg, sym_eqb arg sym_oo = false) (sym_args expr))).
Proof.
  intros Hmul Hlabels Hquiet.
  assert (Forall (λ label,
            Forall (λ arg, delta_coord label arg = Ok None) (sym_args expr))
            labels) as Hno.
  { destruct Hquiet as [-> | [Hnodelta | Hno]]; [done| |done].
    apply Forall_forall. intros label _. eapply Forall_impl; [exact Hnodelta|].
    intros arg. apply delta_coord_not_delta. }
  pose proof (unresolved_labels_basis _ _ _ Hlabels) as Hbasis.
  unfold collapse_deltas. rewrite Hmul. simpl.
  destruct (pop_basis o); try done; rewrite Hlabels; simpl;
    by rewrite collapse_labels_untouched.
Qed.

(** X19. What [collapse_deltas] raises on a product beside the missing
    basis: the type error of [enumerate_states] when the basis is not a
    state, and [IndexError] when some factor is a delta whose argument
    has an unresolved label as its only term, as there is no second
    term to take. *)
Theorem collapse_deltas_raises (expr : Sym) (o : Options) (h : Heap) :
  sym_is_Mul expr = true →
  (pop_basis o ≠ PyNone → isinstance_StateBase (pop_basis o) = false →
   collapse_deltas expr o h = Raise (TypeError "First argument is not a state!")) ∧
  (∀ labels,
     unresolved_labels (pop_basis o) (default [] (unities_of o h)) = Ok labels →
     Exists (λ label,
               Exists (λ arg, ∃ a0 rest t,
                         sym_is_DiracDelta arg = true ∧
                         sym_args arg = a0 :: rest ∧
                         sym_args a0 = [t] ∧ sym_eqb t label = true)
                      (sym_args expr)) labels →
     collapse_deltas expr o h = Raise IndexError).
Proof.
  intros Hmul. split.
  - intros Hbasis Hnot. unfold collapse_deltas, unresolved_labels.
    rewrite Hmul. simpl.
    destruct (pop_basis o); try done;
      by rewrite enumerate_states_not_state.
  - intros labels Hlabels Hex.
    pose proof (unresolved_labels_basis _ _ _ Hlabels) as Hbasis.
    assert (collapse_labels labels (sym_args expr) expr = Raise IndexError) as Hc.
    { apply collapse_labels_raises. eapply Exists_impl; [exact Hex|].
      intros label Hl. eapply Exists_impl; [exact Hl|].
      intros arg (a0 & rest & t & Hd & Hargs & Ha0 & Ht).
      by eapply delta_coord_sole_term. }
    unfold collapse_deltas. rewrite Hmul. simpl.
    destruct (pop_basis o); try done; rewrite Hlabels; simpl; by rewrite Hc.
Qed.

End CollapseOutcomes.

Lemma collapse_deltas_nothing_to_collapse_witness :
  @collapse_deltas Terms.algebra
    (Terms.TMul [Terms.TOo; Terms.sym "y"; Terms.sym "z"]) Terms.x_basis [[1%Z]]
  = Ok (Terms.TMul [Terms.sym "y"; Terms.sym "z"]).
Proof.
  refine (@collapse_deltas_nothing_to_collapse Terms.algebra
            (Terms.TMul [Terms.TOo; Terms.sym "y"; Terms.sym "z"])
            Terms.x_basis [[1%Z]] [Terms.sym "x_1"] eq_refl eq_refl _).
  right. left. repeat (apply List.Forall_cons || apply List.Forall_nil); reflexivity.
Defined.

Lemma collapse_deltas_raises_witness :
  @collapse_deltas Terms.algebra
    (Terms.TMul [Terms.sym "y";
                 Terms.TDiracDelta (Terms.TDiracDelta (Terms.sym "x_1"))])
    Terms.x_basis [[1%Z]]
  = Raise IndexError.
Proof.
  refine (proj2 (@collapse_deltas_raises Terms.algebra
            (Terms.TMul [Terms.sym "y";
                         Terms.TDiracDelta (Terms.TDiracDelta (Terms.sym "x_1"))])
            Terms.x_basis [[1%Z]] eq_refl) [Terms.sym "x_1"] eq_refl _).
  apply List.Exists_cons_hd. apply List.Exists_cons_tl. apply List.Exists_cons_hd.
  exists (Terms.TDiracDelta (Terms.sym "x_1")), [], (Terms.sym "x_1").
  repeat split.
Defined.

(** ** Concrete instances of the properties of calls and products *)

Lemma represent_only_appends_witness :
  ∃ v h',
    represent (EMul [Cartesian.X; Cartesian.x]) Cartesian.in_product [[]; [7%Z]]
    = Ok (v, h') ∧
    h' !! 1 = Some [7%Z].
Proof.
  destruct (represent (EMul [Cartesian.X; Cartesian.x]) Cartesian.in_product
              [[]; [7%Z]]) as [[v h']|e] eqn:Hrun;
    [|vm_compute in Hrun; discriminate].
  exists v, h'. split; [reflexivity|].
  exact (proj1 (proj2 (represent_only_appends _ _ _ _ _ Hrun)) 1
           ltac:(simpl; lia) ltac:(discriminate)).
Defined.

Lemma represent_without_list_ignores_heap_witness :
  ∃ v h1' h2',
    represent (EMul [Cartesian.X; Cartesian.x]) Cartesian.no_options [] = Ok (v, h1') ∧
    represent (EMul [Cartesian.X; Cartesian.x]) Cartesian.no_options [[5%Z]]
    = Ok (v, h2').
Proof.
  destruct (represent (EMul [Cartesian.X; Cartesian.x]) Cartesian.no_options [])
    as [[v h1']|e] eqn:Hrun; [|vm_compute in Hrun; discriminate].
  destruct (proj1 (represent_without_list_ignores_heap
                     (EMul [Cartesian.X; Cartesian.x]) Cartesian.no_options
                     [] [[5%Z]] eq_refl) v h1' Hrun) as [h2' Hrun2].
  exists v, h1', h2'. split; [reflexivity | exact Hrun2].
Defined.

Lemma recorded_indices_are_fresh_witness :
  ∃ v h' app,
    represent (EMul [Cartesian.X; Cartesian.x]) Cartesian.in_product [[]]
    = Ok (v, h') ∧
    h' !! 0 = Some app ∧ Forall (λ k, (1 < k)%Z) app.
Proof.
  destruct (represent (EMul [Cartesian.X; Cartesian.x]) Cartesian.in_product [[]])
    as [[v h']|e] eqn:Hrun; [|vm_compute in Hrun; discriminate].
  destruct (recorded_indices_are_fresh _ _ _ _ _ 0 [] Hrun eq_refl eq_refl)
    as (app & Hlist & Hfresh).
  exists v, h', app. split; [reflexivity|]. split; [exact Hlist | exact Hfresh].
Defined.

Lemma product_counter_bounds_witness :
  ∃ v o' h',
    represent_product [Cartesian.y; Cartesian.X; Cartesian.x]
                      Cartesian.no_options [] = Ok (v, o', h') ∧
    o_index o' = Some 2%Z.
Proof.
  destruct (represent_product [Cartesian.y; Cartesian.X; Cartesian.x]
              Cartesian.no_options []) as [[[v o'] h']|e] eqn:Hrun;
    [|vm_compute in Hrun; discriminate].
  exists v, o', h'. split; [reflexivity|].
  exact (proj1 (product_counter_bounds _ _ _ _ _ _ Hrun)).
Defined.

Lemma leaf_product_records_own_entries_witness :
  ∃ v o' h' l,
    represent_product [Cartesian.y; Cartesian.X; Cartesian.x]
                      Cartesian.no_options [] = Ok (v, o', h') ∧
    o_unities o' = Some l ∧ h' !! l = Some [1; 2]%Z.
Proof.
  destruct (represent_product [Cartesian.y; Cartesian.X; Cartesian.x]
              Cartesian.no_options []) as [[[v o'] h']|e] eqn:Hrun;
    [|vm_compute in Hrun; discriminate].
  destruct (leaf_product_records_own_entries
              [Cartesian.y; Cartesian.X; Cartesian.x] Cartesian.no_options
              [] h' v o') as (l & Hl & Hlist & _).
  - repeat (apply List.Forall_cons || apply List.Forall_nil); reflexivity.
  - intros l Hl. discriminate.
  - exact Hrun.
  - exists v, o', h', l. split; [reflexivity|]. split; [exact Hl|]. exact Hlist.
Defined.

Section Unresolved.
Context {W : World}.

(** X20. With one unresolved index whose coordinate is free in the
    result, [integrate_result] integrates the result once, over the
    interval of the operator mapped to the basis; when no operator is
    mapped to the basis, calling the missing class raises a type
    error. *)
Theorem integrate_result_one_coordinate
    (orig_args : list Expr) (res : Val) (o : Options) (h : Heap)
    (b : QObj) (lab0 : string) (labs : list string) (u : Z) :
  is_Expr res = true →
  o_basis o = Some (PyInst b) → is_StateBase b = true →
  qlabel b = lab0 :: labs → unities_of o h = Some [u] →
  has_free_symbol res (suffix_label u lab0) = true →
  (∀ op_class, state_to_operator (PyInst b) = Some op_class →
     integrate_result orig_args res o h
     = Ok (integrate res (suffix_label u lab0)
             (hilbert_interval (instantiate op_class)).1
             (hilbert_interval (instantiate op_class)).2)) ∧
  (state_to_operator (PyInst b) = None →
     integrate_result orig_args res o h
     = Raise (TypeError "'NoneType' object is not callable")).
Proof.
  intros Hexpr Hb Hstate Hlabel Hus Hfree.
  assert (integrate_result orig_args res o h
          = integrate_coords (PyInst b) [suffix_label u lab0] res) as Hrun.
  { unfold integrate_result. rewrite Hexpr, Hb. simpl negb. cbv beta iota.
    cbv beta iota delta [mbind result_bind]. unfold pop_basis.
    rewrite Hb, Hus. simpl default. cbv beta iota.
    rewrite enumerate_states_list by done.
    by rewrite (labels0_enum_state _ _ _ _ Hlabel). }
  rewrite Hrun. simpl. rewrite Hfree. split.
  - intros c ->. by destruct (hilbert_interval (instantiate c)).
  - by intros ->.
Qed.

(** X21. A leaf whose own rule declines and for which [get_basis] finds
    no basis: a bra or ket is handed to [rep_innerproduct] with the
    basis [None], which is not a state, so the type error of
    [enumerate_states] comes out instead of the decline; a Hermitian
    operator with no state mapped to it, and any other leaf, raise the
    decline of the own rule. *)
Theorem represent_leaf_without_basis
    (q : QObj) (o : Options) (h : Heap) (strerr : string) :
  own_represent q (view o h) = Raise (NotImplementedError strerr) →
  get_basis (EQ q) o = Ok PyNone →
  (is_KetBase q || is_BraBase q = true →
     represent (EQ q) o h = Raise (TypeError "First argument is not a state!")) ∧
  (is_KetBase q || is_BraBase q = false → is_HermitianOperator q = true →
   operator_to_state (PyInst q) = None →
     represent (EQ q) o h = Raise (NotImplementedError strerr)) ∧
  (is_KetBase q || is_BraBase q = false → is_HermitianOperator q = false →
     represent (EQ q) o h = Raise (NotImplementedError strerr)).
Proof.
  intros Hown Hbasis. rewrite represent_EQ. unfold represent_QExpr.
  rewrite Hown, Hbasis. cbv beta iota delta [mbind result_bind].
  refine (conj _ (conj _ _)).
  - intros Hkind. rewrite Hkind. unfold rep_innerproduct. rewrite Hkind.
    reflexivity.
  - intros Hkind Hherm Hmap. rewrite Hkind, Hherm.
    unfold rep_expectation, is_HermitianOperator, is_Operator in *.
    destruct (ckind (qclass q)); try discriminate. simpl. by rewrite Hmap.
  - intros Hkind Hherm. by rewrite Hkind, Hherm.
Qed.

End Unresolved.

Lemma integrate_result_one_coordinate_witness :
  integrate_result [Cartesian.X; Cartesian.x] Cartesian.overlap_x1_x
    (set_basis (Some (PyInst (Cartesian.ket_at "x"))) Cartesian.in_product)
    [[1%Z]]
  = Ok (Cartesian.SIntegral Cartesian.overlap_x1_x "x_1" "-oo" "oo").
Proof.
  exact (proj1 (integrate_result_one_coordinate
                  [Cartesian.X; Cartesian.x] Cartesian.overlap_x1_x
                  (set_basis (Some (PyInst (Cartesian.ket_at "x")))
                             Cartesian.in_product)
                  [[1%Z]] (Cartesian.ket_at "x") "x" [] 1%Z
                  eq_refl eq_refl eq_refl eq_refl eq_refl eq_refl)
           Cartesian.XOp eq_refl).
Defined.

Lemma represent_leaf_without_basis_witness :
  represent Cartesian.x
    (set_basis (Some (PyForeignClass "int")) Cartesian.no_options) []
  = Raise (TypeError "First argument is not a state!").
Proof.
  exact (proj1 (represent_leaf_without_basis
                  {| qclass := Cartesian.XKet; qlabel := ["x"] |}
                  (set_basis (Some (PyForeignClass "int")) Cartesian.no_options)
                  [] "XKet has no rule for this basis" eq_refl eq_refl)
           eq_refl).
Defined.
